(** * FileScope: indexing, search, duplicate detection and deletion engine

    A shallow embedding of the background engine of [App/FileScope.py]
    (the [QThread] subclasses and the data classes they use), together
    with the properties its specification states about it.

    Conventions of the embedding.
    - Python [str] is [string]; the model covers text over the ASCII
      range (case folding and the regular-expression classes [\s] and
      [\d] are the ASCII ones, other code units are carried unchanged).
    - Python [int] is [Z], counters that only count are [nat].
    - [st_mtime] (a float of seconds) is an exact rational [Q].
    - Every thread reads its [should_stop] attribute at fixed program
      points; the flag is set by another thread and never cleared, so a
      run is parameterised by the number of the first read that sees it
      set ([stop_at]).  Every read, every call into the operating system
      or the store, and every emitted signal is appended to a log.
    - The file system is a fixed snapshot during one scan. *)

From Stdlib Require Import ZArith QArith Qabs Ascii String List Lia.
From stdpp Require Import gmap strings list fin_maps pretty.
Import ListNotations.

Local Open Scope Z_scope.

#[local] Set Warnings "-clear-no-such-hyp".

(* ===================================================================== *)
(** ** Strings                                                            *)
(* ===================================================================== *)

Definition chars (s : string) : list ascii := list_ascii_of_string s.
Definition str (l : list ascii) : string := string_of_list_ascii l.

(** [str.lower()] on the ASCII range. *)
Definition ascii_lower (c : ascii) : ascii :=
  let n := nat_of_ascii c in
  if ((65 <=? n)%nat && (n <=? 90)%nat)%bool then ascii_of_nat (n + 32) else c.

Definition lower (s : string) : string := str (map ascii_lower (chars s)).

(** [needle in hay] for Python strings. *)
Fixpoint is_prefix (p s : list ascii) : bool :=
  match p, s with
  | [], _ => true
  | _ :: _, [] => false
  | a :: p', b :: s' => Ascii.eqb a b && is_prefix p' s'
  end.

Fixpoint contains_chars (needle hay : list ascii) : bool :=
  is_prefix needle hay ||
  match hay with
  | [] => false
  | _ :: hay' => contains_chars needle hay'
  end.

Definition str_in (needle hay : string) : bool :=
  contains_chars (chars needle) (chars hay).

Definition startswith (s prefix : string) : bool :=
  is_prefix (chars prefix) (chars s).

Definition endswith (s suffix : string) : bool :=
  is_prefix (rev (chars suffix)) (rev (chars s)).

(** [s.rfind(c)]: the highest index of [c] in [s], or -1. *)
Fixpoint rfind_from (c : ascii) (s : list ascii) (i acc : Z) : Z :=
  match s with
  | [] => acc
  | x :: s' => rfind_from c s' (i + 1) (if Ascii.eqb x c then i else acc)
  end.

Definition rfind (c : ascii) (s : list ascii) : Z := rfind_from c s 0 (-1).

(** [os.path.splitext] ([genericpath._splitext] with [sep = '/'], no
    [altsep], [extsep = '.']): the extension starts at the last dot of
    the last component, unless only dots precede it there. *)
Definition splitext_chars (p : list ascii) : list ascii * list ascii :=
  let sepIndex := rfind "/"%char p in
  let dotIndex := rfind "."%char p in
  if sepIndex <? dotIndex then
    let between := take (Z.to_nat (dotIndex - (sepIndex + 1)))
                        (drop (Z.to_nat (sepIndex + 1)) p) in
    if existsb (fun c => negb (Ascii.eqb c "."%char)) between
    then (take (Z.to_nat dotIndex) p, drop (Z.to_nat dotIndex) p)
    else (p, [])
  else (p, []).

Definition splitext (p : string) : string * string :=
  let '(root, ext) := splitext_chars (chars p) in (str root, str ext).

(** [os.path.join(a, b)] ([posixpath]). *)
Definition os_path_join (a b : string) : string :=
  if startswith b "/" then b
  else if String.eqb a "" || endswith a "/" then a +:+ b
  else a +:+ "/" +:+ b.

(* ===================================================================== *)
(** ** Data models                                                        *)
(* ===================================================================== *)

Module FileEntry.
Record t : Type := mk {
  name : string;
  path : string;
  extension : string;
  size : Z;
  modified : Q;
  is_dir : bool
}.
End FileEntry.

Module DuplicateFile.
Record t : Type := mk {
  name : string;
  path : string;
  size : Z;
  modified : Q;
  hash : option string
}.
End DuplicateFile.

(** [sorted(xs, reverse=True)] on integers: a stable descending sort,
    here by insertion from the right. *)
Fixpoint insert_desc (x : Z) (l : list Z) : list Z :=
  match l with
  | [] => [x]
  | y :: l' => if x <? y then y :: insert_desc x l' else x :: l
  end.

Definition sorted_reverse (l : list Z) : list Z := foldr insert_desc [] l.

(** Python [sum] of integers. *)
Definition sum (l : list Z) : Z := foldr Z.add 0 l.

Module DuplicateGroup.
Record t : Type := mk {
  key : string;
  files : list DuplicateFile.t
}.

Definition total_size (g : t) : Z := sum (map DuplicateFile.size (files g)).

Definition count (g : t) : nat := length (files g).

Definition wasted_space (g : t) : Z :=
  if (length (files g) <=? 1)%nat then 0
  else
    let sizes := sorted_reverse (map DuplicateFile.size (files g)) in
    sum (drop 1 sizes).
End DuplicateGroup.

(** The largest element of a non-empty list of integers. *)
Definition maximum (l : list Z) : Z :=
  match l with
  | [] => 0
  | x :: l' => foldr Z.max x l'
  end.

(* ===================================================================== *)
(** ** Signals, logs and the cooperative stop flag                        *)
(* ===================================================================== *)

(** The texts passed to [progress.emit], by template. *)
Inductive message : Type :=
  | LoadingCachedIndex
  | LoadedFromCache (n : nat)
  | IndexingDrive (drive : string)
  | CheckingForChanges
  | CheckedFiles (n : nat)
  | AddedNewFiles (n : nat)
  | UpdatedFiles (n : nat)
  | ScanningFiles
  | ScanningFilesBySize
  | HashingPotentialDuplicates (n : nat)
  | HashedFiles (done total : nat).

(** The [pyqtSignal]s of the engine's threads. *)
Inductive signal : Type :=
  | progress (m : message)
  | files_indexed (n : nat)
  | indexing_complete (n : nat)
  | results_ready (results : list FileEntry.t)
  | search_complete (total : nat)
  | files_scanned (n : nat)
  | scan_complete (duplicates : list (string * list DuplicateFile.t))
  | deletion_progress (current total : nat)
  | deletion_complete (deleted failed : nat).

Inductive method : Type := full_index_method | incremental_update_method.

(** What a thread does that is visible outside it. *)
Inductive action : Type :=
  | ReadStop (b : bool)                       (* a read of [self.should_stop] *)
  | Scandir (root : string)                   (* [os.walk] lists [root] and yields it *)
  | OsStat (filepath : string)                (* [os.stat(filepath)] *)
  | HashFile (filepath : string)              (* [self.hash_file(filepath)] *)
  | OsRemove (filepath : string)              (* [os.remove(filepath)] *)
  | SaveFileIndex (files : list FileEntry.t)  (* [db_manager.save_file_index] *)
  | RemoveDeletedFiles (existing : gset string)
  | Call (m : method)                         (* [self.m()] *)
  | SingleShot (msec : Z) (m : method)        (* [QTimer.singleShot(msec, ...)] *)
  | Emit (s : signal).

(** A running thread: the number of reads of the flag so far, the log,
    and the local variables of the method. *)
Record thread (L : Type) : Type := Run {
  reads : nat;
  log : list action;
  vars : L
}.
Arguments Run {L} _ _ _.
Arguments reads {L} _.
Arguments log {L} _.
Arguments vars {L} _.

Definition start {L} (v : L) : thread L := Run 0%nat [] v.

(** The value of the flag at its [n]-th read. *)
Definition flag (stop_at : option nat) (n : nat) : bool :=
  match stop_at with
  | Some k => (k <=? n)%nat
  | None => false
  end.

Definition should_stop {L} (stop_at : option nat) (r : thread L) : bool * thread L :=
  let b := flag stop_at (reads r) in
  (b, Run (S (reads r)) (log r ++ [ReadStop b]) (vars r)).

Definition act {L} (a : action) (r : thread L) : thread L :=
  Run (reads r) (log r ++ [a]) (vars r).

Definition emit {L} (s : signal) (r : thread L) : thread L := act (Emit s) r.

Definition set_vars {L L'} (v : L') (r : thread L) : thread L' :=
  Run (reads r) (log r) v.

(** [for x in xs: if self.should_stop: break; body] *)
Fixpoint for_break {X L} (stop_at : option nat)
    (body : X -> thread L -> thread L) (xs : list X) (r : thread L) : thread L :=
  match xs with
  | [] => r
  | x :: xs' =>
      let '(b, r1) := should_stop stop_at r in
      if b then r1 else for_break stop_at body xs' (body x r1)
  end.

(** The outcome of a loop that may [return] from the enclosing method. *)
Inductive flow (L : Type) : Type :=
  | Continue (r : thread L)
  | Return (r : thread L).
Arguments Continue {L} _.
Arguments Return {L} _.

(** [for x in xs: if self.should_stop: return; body] *)
Fixpoint for_return {X L} (stop_at : option nat)
    (body : X -> thread L -> flow L) (xs : list X) (r : thread L) : flow L :=
  match xs with
  | [] => Continue r
  | x :: xs' =>
      let '(b, r1) := should_stop stop_at r in
      if b then Return r1
      else match body x r1 with
           | Continue r2 => for_return stop_at body xs' r2
           | Return r2 => Return r2
           end
  end.

(** [for root, dirs, files in os.walk(top): if self.should_stop: break;
    body]: the generator lists a directory when it is asked for the next
    triple, and the flag is read after that. *)
Fixpoint walk_break {L} (stop_at : option nat)
    (body : string * list string * list string -> thread L -> thread L)
    (items : list (string * list string * list string)) (r : thread L) : thread L :=
  match items with
  | [] => r
  | item :: items' =>
      let '(b, r1) := should_stop stop_at (act (Scandir item.1.1) r) in
      if b then r1 else walk_break stop_at body items' (body item r1)
  end.

(** [for root, dirs, files in os.walk(top): if self.should_stop: return;
    body] *)
Fixpoint walk_return {L} (stop_at : option nat)
    (body : string * list string * list string -> thread L -> flow L)
    (items : list (string * list string * list string)) (r : thread L) : flow L :=
  match items with
  | [] => Continue r
  | item :: items' =>
      let '(b, r1) := should_stop stop_at (act (Scandir item.1.1) r) in
      if b then Return r1
      else match body item r1 with
           | Continue r2 => walk_return stop_at body items' r2
           | Return r2 => Return r2
           end
  end.

(** [enumerate(xs)] *)
Definition enumerate {X} (xs : list X) : list (nat * X) := imap pair xs.

(* ===================================================================== *)
(** ** FileSearchThread                                                   *)
(* ===================================================================== *)

Module FileSearchThread.
Record t : Type := mk {
  index : list FileEntry.t;
  query : string;
  folder_filter : string
}.

Definition init (index : list FileEntry.t) (query folder_filter : string) : t :=
  mk index (lower query) (lower folder_filter).

(** The body of the loop over the index; the local variable is
    [results]. *)
Definition visit (self : t) (entry : FileEntry.t)
    (r : thread (list FileEntry.t)) : thread (list FileEntry.t) :=
  if str_in (query self) (lower (FileEntry.name entry)) then
    if String.eqb (folder_filter self) ""
       || str_in (folder_filter self) (lower (FileEntry.path entry)) then
      let results := vars r ++ [entry] in
      if (length results mod 100 =? 0)%nat
      then set_vars [] (emit (results_ready results) r)
      else set_vars results r
    else r
  else r.

Definition run (stop_at : option nat) (self : t) : thread (list FileEntry.t) :=
  let r := for_break stop_at (visit self) (index self) (start []) in
  let r :=
    match vars r with
    | [] => r
    | _ :: _ =>
        let '(b, r1) := should_stop stop_at r in
        if b then r1 else emit (results_ready (vars r1)) r1
    end in
  let '(b, r1) := should_stop stop_at r in
  if b then r1
  else
    let total :=
      length (filter (fun e => str_in (query self) (lower (FileEntry.name e)))
                     (index self)) in
    emit (search_complete total) r1.
End FileSearchThread.

(** The search predicate of the specification: the query occurs in the
    name and, when a folder filter is supplied, the filter occurs in the
    path, both without regard to case. *)
Definition search_predicate (query folder_filter : string) (e : FileEntry.t) : bool :=
  str_in (lower query) (lower (FileEntry.name e))
  && (String.eqb folder_filter ""
      || str_in (lower folder_filter) (lower (FileEntry.path e))).

(* ===================================================================== *)
(** ** FileDeletionThread                                                 *)
(* ===================================================================== *)

(** What the operating system answers about an existing file. *)
Record file_mode : Type := FileMode {
  writable : bool;    (* [os.access(path, os.W_OK)] *)
  removable : bool    (* [os.remove(path)] succeeds *)
}.

Module FileDeletionThread.
Record locals : Type := Locals {
  files_on_disk : gmap string file_mode;
  deleted_count : nat;
  failed_count : nat
}.

Definition failed (v : locals) : locals :=
  Locals (files_on_disk v) (deleted_count v) (S (failed_count v)).

(** One iteration of the loop over [enumerate(self.files_to_delete)]. *)
Definition attempt (total : nat) (item : nat * DuplicateFile.t)
    (r : thread locals) : thread locals :=
  let '(i, file) := item in
  let v := vars r in
  let p := DuplicateFile.path file in
  match files_on_disk v !! p with
  | None => set_vars (failed v) r                        (* continue *)
  | Some m =>
      if negb (writable m) then set_vars (failed v) r    (* continue *)
      else
        let r := act (OsRemove p) r in
        let r :=
          if removable m
          then set_vars (Locals (delete p (files_on_disk v))
                                (S (deleted_count v)) (failed_count v)) r
          else set_vars (failed v) r in                  (* except Exception *)
        emit (deletion_progress (i + 1) total) r
  end.

Definition run (stop_at : option nat) (files_to_delete : list DuplicateFile.t)
    (disk : gmap string file_mode) : thread locals :=
  let total := length files_to_delete in
  let r := for_break stop_at (attempt total) (enumerate files_to_delete)
                     (start (Locals disk 0 0)) in
  let '(b, r1) := should_stop stop_at r in
  if b then r1
  else emit (deletion_complete (deleted_count (vars r1)) (failed_count (vars r1))) r1.
End FileDeletionThread.

(* ===================================================================== *)
(** ** The file system seen by a scan                                     *)
(* ===================================================================== *)

(** A directory as [os.walk] sees it: its name, its sub-directories and
    the names of its plain files; [NotListed] is a directory that
    [os.walk] does not enter (listing it fails, or it is a symbolic
    link).  The name of a root is the path of the drive. *)
#[warnings="-register-all"] Inductive fs_node : Type :=
  | Folder (name : string) (subdirs : list fs_node) (files : list string)
  | NotListed (name : string).

Definition dirname (node : fs_node) : string :=
  match node with
  | Folder name _ _ => name
  | NotListed name => name
  end.

(** The triples [(root, dirs, files)] that [os.walk(top)] yields to a
    consumer that prunes [dirs] in place with [keep]; [node] is the
    directory at [top]. *)
Fixpoint os_walk (keep : string -> bool) (top : string) (node : fs_node)
    : list (string * list string * list string) :=
  match node with
  | NotListed _ => []
  | Folder _ subdirs files =>
      (top, map dirname subdirs, files) ::
      (fix descend (ds : list fs_node) :=
         match ds with
         | [] => []
         | sub :: ds' =>
             (if keep (dirname sub)
              then os_walk keep (os_path_join top (dirname sub)) sub
              else [])
             ++ descend ds'
         end) subdirs
  end.

(** The answers of the environment during one scan. *)
Record env : Type := Env {
  os_stat : string -> option (Z * Q);     (* [(st_size, st_mtime)], or raises *)
  hash_file : string -> option string;    (* the hex digest, or raises *)
  time_time : nat -> Q                    (* [time.time()] at a point of the log *)
}.

(* ===================================================================== *)
(** ** DatabaseManager                                                    *)
(* ===================================================================== *)

Module DatabaseManager.
(** A row of [file_index] without its primary key [path]. *)
Record row : Type := Row {
  name : string;
  extension : string;
  size : Z;
  modified : Q;
  is_dir : bool;
  last_checked : Q
}.

(** The table [file_index]. *)
Abbreviation t := (gmap string row).

Definition row_of (current_time : Q) (f : FileEntry.t) : row :=
  Row (FileEntry.name f) (FileEntry.extension f) (FileEntry.size f)
      (FileEntry.modified f) (FileEntry.is_dir f) current_time.

(** [INSERT OR REPLACE], row by row. *)
Definition save_file_index (current_time : Q) (files : list FileEntry.t) (db : t) : t :=
  foldl (fun db f => <[FileEntry.path f := row_of current_time f]> db) db files.

Definition load_file_index (db : t) : list FileEntry.t :=
  map (fun '(p, r) =>
         FileEntry.mk (name r) p (extension r) (size r) (modified r) (is_dir r))
      (map_to_list db).

Definition get_indexed_paths (db : t) : gset string := dom db.

Definition remove_deleted_files (existing_paths : gset string) (db : t) : t :=
  let indexed_paths := dom db in
  let deleted_paths := indexed_paths ∖ existing_paths in
  foldr delete db (elements deleted_paths).

Definition get_file_info (path : string) (db : t) : option (Z * Q) :=
  match db !! path with
  | Some r => Some (size r, modified r)
  | None => None
  end.

(** The table [user_preferences]: a key and the JSON text of its value.
    [json.dumps] and [json.loads] are taken as they come: [dumps] gives
    the text of a value, or raises; [loads] gives the value of a text, or
    raises. *)
Section Preferences.
Context {V : Type} (dumps : V -> option string) (loads : string -> option V).

(** [INSERT OR REPLACE]; [None] when [json.dumps] raises, before the
    table is touched. *)
Definition save_preference (key : string) (value : V)
    (prefs : gmap string string) : option (gmap string string) :=
  match dumps value with
  | Some text => Some (<[key := text]> prefs)
  | None => None
  end.

Definition get_preference (key : string) (default : V)
    (prefs : gmap string string) : V :=
  match prefs !! key with
  | Some text =>
      match loads text with
      | Some value => value
      | None => default                                  (* except: return default *)
      end
  | None => default
  end.
End Preferences.

(** The table [selected_extensions]: an extension and its flag. *)
Definition save_selected_extensions (extensions : gset string)
    (table : gmap string Z) : gmap string Z :=
  let table : gmap string Z := ∅ in                      (* DELETE FROM *)
  foldl (fun table ext => <[ext := 1]> table) table (elements extensions).

Definition load_selected_extensions (table : gmap string Z) : gset string :=
  dom (filter (fun kv : string * Z => kv.2 = 1) table).

(** [get_index_stats]: the number of rows, the number of distinct
    extensions and the sum of the sizes ([SUM] is [NULL] on an empty
    table, which [or 0] turns into 0). *)
Definition get_index_stats (db : t) : nat * nat * Z :=
  let rows := (map_to_list db).*2 in
  let total_files := length rows in
  let total_extensions :=
    stdpp.base.size (list_to_set (extension <$> rows) : gset string) in
  let total_size := foldr Z.add 0 (size <$> rows) in
  (total_files, total_extensions, total_size).
End DatabaseManager.

(* ===================================================================== *)
(** ** SystemIndexerThread                                                *)
(* ===================================================================== *)

Module SystemIndexerThread.
Record self : Type := Self {
  index : list FileEntry.t;
  db_manager : option DatabaseManager.t
}.

Definition excluded_dirs : list string :=
  ["$RECYCLE.BIN"; "System Volume Information"; "Windows"; "ProgramData";
   "Program Files"; "Program Files (x86)"; "AppData";
   "node_modules"; ".git"; "__pycache__"].

Definition keep_dir (d : string) : bool :=
  negb (startswith d ".") && negb (existsb (String.eqb d) excluded_dirs).

Definition new_entry (filename filepath : string) (st : Z * Q) : FileEntry.t :=
  let ext := lower (splitext filename).2 in
  FileEntry.mk filename filepath ext st.1 st.2 false.

(** [self.db_manager.save_file_index(files)] on a live connection. *)
Definition save {L} (e : env) (files : list FileEntry.t) (db : DatabaseManager.t)
    (r : thread L) : DatabaseManager.t * thread L :=
  (DatabaseManager.save_file_index (time_time e (length (log r))) files db,
   act (SaveFileIndex files) r).

(** *** [full_index] *)

Record full_index_vars : Type := FullIndex {
  fi_index : list FileEntry.t;
  fi_db : DatabaseManager.t;
  total_files : nat;
  batch : list FileEntry.t
}.

Definition batch_size : nat := 500.

Definition index_file (e : env) (root filename : string)
    (r : thread full_index_vars) : thread full_index_vars :=
  let filepath := os_path_join root filename in
  let r := act (OsStat filepath) r in
  match os_stat e filepath with
  | None => r                                             (* continue *)
  | Some st =>
      let entry := new_entry filename filepath st in
      let v := vars r in
      let index := fi_index v ++ [entry] in
      let batch := batch v ++ [entry] in
      let total_files := S (total_files v) in
      if (batch_size <=? length batch)%nat then
        let '(db, r) := save e batch (fi_db v) r in
        emit (files_indexed total_files)
             (set_vars (FullIndex index db total_files []) r)
      else set_vars (FullIndex index (fi_db v) total_files batch) r
  end.

Definition index_directory (stop_at : option nat) (e : env)
    (item : string * list string * list string)
    (r : thread full_index_vars) : thread full_index_vars :=
  let '(root, dirs, files) := item in     (* [dirs[:] = ...] is [keep_dir] in [os_walk] *)
  for_break stop_at (index_file e root) files r.

Definition index_drive (stop_at : option nat) (e : env)
    (drive : fs_node)
    (r : thread full_index_vars) : thread full_index_vars :=
  let r := emit (progress (IndexingDrive (dirname drive))) r in
  walk_break stop_at (index_directory stop_at e)
            (os_walk keep_dir (dirname drive) drive) r.

Definition full_index (stop_at : option nat) (e : env)
    (drives : list fs_node) (index : list FileEntry.t)
    (db : DatabaseManager.t) (r : thread unit) : thread self :=
  let r := for_break stop_at (index_drive stop_at e) drives
                     (set_vars (FullIndex index db 0 []) r) in
  let v := vars r in
  let '(db, r) :=
    match batch v with
    | [] => (fi_db v, r)
    | _ :: _ => save e (batch v) (fi_db v) r
    end in
  let '(b, r) := should_stop stop_at r in
  let r := if b then r else emit (indexing_complete (total_files v)) r in
  set_vars (Self (fi_index v) (Some db)) r.

(** *** [incremental_update] *)

Record incremental_vars : Type := Incremental {
  iu_index : list FileEntry.t;
  iu_db : DatabaseManager.t;
  indexed_paths : gset string;
  existing_paths : gset string;
  new_files : list FileEntry.t;
  updated_files : list FileEntry.t;
  checked : nat
}.

(** [for i, f in enumerate(self.index): if f.path == filepath:
    self.index[i] = entry; break] *)
Fixpoint replace_first (filepath : string) (entry : FileEntry.t)
    (index : list FileEntry.t) : list FileEntry.t :=
  match index with
  | [] => []
  | f :: rest =>
      if String.eqb (FileEntry.path f) filepath then entry :: rest
      else f :: replace_first filepath entry rest
  end.

(** [stat.st_size != cached_info['size'] or
     abs(stat.st_mtime - cached_info['modified']) > 1] *)
Definition changed (st cached_info : Z * Q) : bool :=
  negb (st.1 =? cached_info.1)
  || negb (Qle_bool (Qabs (st.2 - cached_info.2)) 1).

Definition count_checked (r : thread incremental_vars) : thread incremental_vars :=
  let v := vars r in
  let checked := S (checked v) in
  let r := set_vars (Incremental (iu_index v) (iu_db v) (indexed_paths v)
                       (existing_paths v) (new_files v) (updated_files v) checked) r in
  if (checked mod 1000 =? 0)%nat then emit (progress (CheckedFiles checked)) r else r.

Definition check_file (e : env) (root filename : string)
    (r : thread incremental_vars) : thread incremental_vars :=
  let filepath := os_path_join root filename in
  let v := vars r in
  let existing := {[filepath]} ∪ existing_paths v in
  let r := set_vars (Incremental (iu_index v) (iu_db v) (indexed_paths v)
                       existing (new_files v) (updated_files v) (checked v)) r in
  let r := act (OsStat filepath) r in
  match os_stat e filepath with
  | None => r                                             (* continue *)
  | Some st =>
      if negb (bool_decide (filepath ∈ indexed_paths v)) then
        let entry := new_entry filename filepath st in
        count_checked
          (set_vars (Incremental (iu_index v ++ [entry]) (iu_db v) (indexed_paths v)
                       existing (new_files v ++ [entry]) (updated_files v)
                       (checked v)) r)
      else
        match DatabaseManager.get_file_info filepath (iu_db v) with
        | Some cached_info =>
            if changed st cached_info then
              let entry := new_entry filename filepath st in
              count_checked
                (set_vars (Incremental (replace_first filepath entry (iu_index v))
                             (iu_db v) (indexed_paths v) existing (new_files v)
                             (updated_files v ++ [entry]) (checked v)) r)
            else count_checked r
        | None => count_checked r
        end
  end.

Definition check_directory (stop_at : option nat) (e : env)
    (item : string * list string * list string)
    (r : thread incremental_vars) : thread incremental_vars :=
  let '(root, dirs, files) := item in     (* [dirs[:] = ...] is [keep_dir] in [os_walk] *)
  for_break stop_at (check_file e root) files r.

Definition check_drive (stop_at : option nat) (e : env)
    (drive : fs_node)
    (r : thread incremental_vars) : thread incremental_vars :=
  walk_break stop_at (check_directory stop_at e)
            (os_walk keep_dir (dirname drive) drive) r.

Definition incremental_update (stop_at : option nat) (e : env)
    (drives : list fs_node) (r : thread self) : thread self :=
  match db_manager (vars r) with
  | None => r                                             (* return *)
  | Some db =>
      let index := index (vars r) in
      let r := emit (progress CheckingForChanges) r in
      let indexed_paths := DatabaseManager.get_indexed_paths db in
      let r := for_break stop_at (check_drive stop_at e) drives
                 (set_vars (Incremental index db indexed_paths ∅ [] [] 0) r) in
      let v := vars r in
      let '(db, r) :=
        match new_files v with
        | [] => (iu_db v, r)
        | _ :: _ =>
            let '(db, r) := save e (new_files v) (iu_db v) r in
            (db, emit (progress (AddedNewFiles (length (new_files v)))) r)
        end in
      let '(db, r) :=
        match updated_files v with
        | [] => (db, r)
        | _ :: _ =>
            let '(db, r) := save e (updated_files v) db r in
            (db, emit (progress (UpdatedFiles (length (updated_files v)))) r)
        end in
      let r := act (RemoveDeletedFiles (existing_paths v)) r in
      let db := DatabaseManager.remove_deleted_files (existing_paths v) db in
      let '(b, r) := should_stop stop_at r in
      let r := if b then r
               else emit (indexing_complete (length (iu_index v))) r in
      set_vars (Self (iu_index v) (Some db)) r
  end.

(** *** [run] *)

Definition close (r : thread self) : thread self :=
  set_vars (Self (index (vars r)) None) r.

Definition run (stop_at : option nat) (e : env) (force_full_index : bool)
    (database : DatabaseManager.t) (drives : list fs_node)
    : thread self :=
  let r := start tt in
  let go_full (r : thread unit) :=
    full_index stop_at e drives [] database (act (Call full_index_method) r) in
  if negb force_full_index then
    let r := emit (progress LoadingCachedIndex) r in
    let cached_files := DatabaseManager.load_file_index database in
    if (1000 <? length cached_files)%nat then
      let r := emit (progress (LoadedFromCache (length cached_files))) r in
      let r := emit (files_indexed (length cached_files)) r in
      let r := act (SingleShot 500 incremental_update_method) r in
      close (set_vars (Self cached_files (Some database)) r)
    else close (go_full r)
  else close (go_full r).
End SystemIndexerThread.

(* ===================================================================== *)
(** ** Regular expressions, as far as [normalize_filename] uses them      *)
(* ===================================================================== *)

Inductive char_class : Type :=
  | Space                 (* [\s] *)
  | Digit                 (* [\d] *)
  | Lit (c : ascii).      (* a literal character, under [re.IGNORECASE] *)

Inductive item : Type :=
  | One (c : char_class)
  | Star (c : char_class)     (* greedy [*] *)
  | Plus (c : char_class)     (* greedy [+] *)
  | End.                      (* [$] *)

Definition is_space (x : ascii) : bool :=
  let n := nat_of_ascii x in
  ((9 <=? n)%nat && (n <=? 13)%nat) || ((28 <=? n)%nat && (n <=? 32)%nat).

Definition is_digit (x : ascii) : bool :=
  let n := nat_of_ascii x in (48 <=? n)%nat && (n <=? 57)%nat.

Definition in_class (c : char_class) (x : ascii) : bool :=
  match c with
  | Space => is_space x
  | Digit => is_digit x
  | Lit l => Ascii.eqb (ascii_lower x) (ascii_lower l)
  end.

(** [$] without [re.MULTILINE]: at the end of the string, or just before
    a newline that ends the string. *)
Definition at_end (s : list ascii) : bool :=
  match s with
  | [] => true
  | [x] => Ascii.eqb x "010"%char
  | _ => false
  end.

(** A greedy repetition followed by the rest of the pattern [k]: take one
    more character if that leads to a match, give it back otherwise. *)
Fixpoint match_star (c : char_class) (k : list ascii -> option nat)
    (s : list ascii) : option nat :=
  match s with
  | x :: s' =>
      if in_class c x then
        match match_star c k s' with
        | Some n => Some (S n)
        | None => k s
        end
      else k s
  | [] => k []
  end.

(** The backtracking matcher: the length of the match of [p] that starts
    at the head of [s], if there is one. *)
Fixpoint match_here (p : list item) (s : list ascii) : option nat :=
  match p with
  | [] => Some 0%nat
  | One c :: p' =>
      match s with
      | x :: s' => if in_class c x then S <$> match_here p' s' else None
      | [] => None
      end
  | Star c :: p' => match_star c (match_here p') s
  | Plus c :: p' =>
      match s with
      | x :: s' => if in_class c x then S <$> match_star c (match_here p') s' else None
      | [] => None
      end
  | End :: p' => if at_end s then match_here p' s else None
  end.

(** [re.sub(p, '', s)]: scanning from the left, every non-overlapping
    match is removed; [skip] is the number of characters of the current
    match still to remove. *)
Fixpoint re_sub_from (p : list item) (skip : nat) (s : list ascii) : list ascii :=
  match s with
  | [] => []
  | x :: s' =>
      match skip with
      | S k => re_sub_from p k s'
      | O =>
          match match_here p s with
          | Some (S n) => re_sub_from p n s'
          | _ => x :: re_sub_from p 0 s'
          end
      end
  end.

Definition re_sub (p : list item) (s : list ascii) : list ascii := re_sub_from p 0 s.

Definition lit (s : string) : list item := map (fun c => One (Lit c)) (chars s).

(** What a pattern matches, without reference to the matcher: [derives p
    w rest] when [p] matches the word [w] in front of [rest]. *)
Inductive derives : list item -> list ascii -> list ascii -> Prop :=
  | derives_nil rest : derives [] [] rest
  | derives_one c x p w rest :
      in_class c x = true -> derives p w rest ->
      derives (One c :: p) (x :: w) rest
  | derives_star c u p w rest :
      Forall (fun x => in_class c x = true) u -> derives p w rest ->
      derives (Star c :: p) (u ++ w) rest
  | derives_plus c x u p w rest :
      in_class c x = true -> Forall (fun x => in_class c x = true) u ->
      derives p w rest ->
      derives (Plus c :: p) (x :: u ++ w) rest
  | derives_end p w rest :
      at_end (w ++ rest) = true -> derives p w rest ->
      derives (End :: p) w rest.

(** [b] is [a] without the match of [p] that starts leftmost in [a]; or
    [b] is [a], when [p] matches nowhere in [a]. *)
Definition strips (p : list item) (a b : list ascii) : Prop :=
  (exists pre w rest,
      a = pre ++ w ++ rest /\ derives p w rest /\ b = pre ++ rest /\
      forall pre' w' rest',
        a = pre' ++ w' ++ rest' -> derives p w' rest' ->
        (length pre <= length pre')%nat) \/
  ((forall pre w rest, a = pre ++ w ++ rest -> ~ derives p w rest) /\ b = a).

(** One [strips] per pattern, in order. *)
Inductive strip_chain : list (list item) -> list ascii -> list ascii -> Prop :=
  | strip_chain_nil a : strip_chain [] a a
  | strip_chain_cons p ps a b c :
      strips p a b -> strip_chain ps b c -> strip_chain (p :: ps) a c.

(** The least number of characters that a pattern matches. *)
Fixpoint min_length (p : list item) : nat :=
  match p with
  | [] => 0
  | (One _ | Plus _) :: p' => S (min_length p')
  | (Star _ | End) :: p' => min_length p'
  end.

(* ===================================================================== *)
(** ** Dictionaries in insertion order                                    *)
(* ===================================================================== *)

(** [d[k].append(x)] on a [defaultdict(list)]. *)
Fixpoint dict_append {K V} (eqb : K -> K -> bool) (k : K) (x : V)
    (d : list (K * list V)) : list (K * list V) :=
  match d with
  | [] => [(k, [x])]
  | (k', xs) :: d' =>
      if eqb k' k then (k', xs ++ [x]) :: d'
      else (k', xs) :: dict_append eqb k x d'
  end.

(** [d[k] = v] *)
Fixpoint dict_set {K V} (eqb : K -> K -> bool) (k : K) (v : V)
    (d : list (K * V)) : list (K * V) :=
  match d with
  | [] => [(k, v)]
  | (k', v') :: d' =>
      if eqb k' k then (k', v) :: d'
      else (k', v') :: dict_set eqb k v d'
  end.

Definition hidden_filter (d : string) : bool := negb (startswith d ".").

(* ===================================================================== *)
(** ** FastDuplicateScannerThread                                         *)
(* ===================================================================== *)

Module FastDuplicateScannerThread.
(** The patterns of [normalize_filename], in order. *)
Definition patterns : list (list item) :=
  [ [Star Space] ++ lit "(" ++ [Plus Digit] ++ lit ")" ++ [End];   (* \s*\(\d+\)$ *)
    [Star Space] ++ lit "-" ++ [Star Space] ++ lit "Copy" ++ [End];  (* \s*-\s*Copy$ *)
    [Star Space] ++ lit "Copy" ++ [End];                           (* \s*Copy$ *)
    lit "_copy" ++ [End];                                          (* _copy$ *)
    [Star Space] ++ lit "-" ++ [Star Space] ++ [Plus Digit] ++ [End];  (* \s*-\s*\d+$ *)
    lit "_" ++ [Plus Digit] ++ [End] ].                            (* _\d+$ *)

(** [case_sensitive] is [sys.platform != 'win32'].  The classes [\s] and
    [\d], the letters that [re.IGNORECASE] identifies and [str.lower] are
    those of the ASCII range: this is the method on the file names that
    [ascii_only] accepts, and every general statement about it below is
    made for such names. *)
Definition normalize_filename (case_sensitive : bool) (filename : string) : string :=
  let '(name, ext) := splitext filename in
  let name := str (foldl (fun name pattern => re_sub pattern name) (chars name) patterns) in
  if negb case_sensitive then lower name +:+ lower ext else name +:+ ext.

Record locals : Type := Locals {
  file_map : list (string * option Z * list DuplicateFile.t);
  total_scanned : nat
}.

Definition key_eqb (k1 k2 : string * option Z) : bool :=
  String.eqb k1.1 k2.1 &&
  match k1.2, k2.2 with
  | Some a, Some b => a =? b
  | None, None => true
  | _, _ => false
  end.

Definition scan_file (case_sensitive use_size_filter : bool) (e : env)
    (root filename : string) (r : thread locals) : flow locals :=
  let filepath := os_path_join root filename in
  let r := act (OsStat filepath) r in
  match os_stat e filepath with
  | None => Continue r                                    (* continue *)
  | Some st =>
      let normalized := normalize_filename case_sensitive filename in
      let file_entry := DuplicateFile.mk filename filepath st.1 st.2 None in
      let key := if use_size_filter then (normalized, Some st.1)
                 else (normalized, None) in
      let v := vars r in
      let total_scanned := S (total_scanned v) in
      let r := set_vars (Locals (dict_append key_eqb key file_entry (file_map v))
                                total_scanned) r in
      Continue (if (total_scanned mod 100 =? 0)%nat
                then emit (files_scanned total_scanned) r else r)
  end.

Definition scan_directory (stop_at : option nat) (case_sensitive use_size_filter : bool)
    (e : env) (item : string * list string * list string)
    (r : thread locals) : flow locals :=
  let '(root, dirs, files) := item in
  for_return stop_at (scan_file case_sensitive use_size_filter e root) files r.

(** Step 2: the groups of more than one file, under the first component
    of their key. *)
Definition filter_duplicates (file_map : list (string * option Z * list DuplicateFile.t))
    : list (string * list DuplicateFile.t) :=
  foldl (fun duplicates '(key, files) =>
           if (1 <? length files)%nat
           then dict_set String.eqb key.1 files duplicates
           else duplicates)
        [] file_map.

Definition run (stop_at : option nat) (case_sensitive use_size_filter : bool)
    (e : env) (root_folder : fs_node) : thread locals :=
  let r := emit (progress ScanningFiles) (start (Locals [] 0)) in
  match walk_return stop_at (scan_directory stop_at case_sensitive use_size_filter e)
          (os_walk hidden_filter (dirname root_folder) root_folder) r with
  | Return r => r
  | Continue r =>
      let duplicates := filter_duplicates (file_map (vars r)) in
      let '(b, r) := should_stop stop_at r in
      if b then r
      else emit (scan_complete duplicates)
                (emit (files_scanned (total_scanned (vars r))) r)
  end.
End FastDuplicateScannerThread.

(* ===================================================================== *)
(** ** DeepDuplicateScannerThread                                         *)
(* ===================================================================== *)

Module DeepDuplicateScannerThread.
Record locals : Type := Locals {
  size_map : list (Z * list string);
  total_scanned : nat;
  hash_map : list (string * list DuplicateFile.t);
  hashed_count : nat
}.

(** [os.path.basename] ([posixpath]). *)
Definition basename (p : string) : string :=
  str (drop (Z.to_nat (rfind "/"%char (chars p) + 1)) (chars p)).

Definition size_file (e : env) (root filename : string)
    (r : thread locals) : flow locals :=
  let filepath := os_path_join root filename in
  let r := act (OsStat filepath) r in
  match os_stat e filepath with
  | None => Continue r                                    (* continue *)
  | Some st =>
      let v := vars r in
      let size_map := if 0 <? st.1
                      then dict_append Z.eqb st.1 filepath (size_map v)
                      else size_map v in
      let total_scanned := S (total_scanned v) in
      let r := set_vars (Locals size_map total_scanned (hash_map v) (hashed_count v)) r in
      Continue (if (total_scanned mod 100 =? 0)%nat
                then emit (files_scanned total_scanned) r else r)
  end.

Definition size_directory (stop_at : option nat) (e : env)
    (item : string * list string * list string)
    (r : thread locals) : flow locals :=
  let '(root, dirs, files) := item in
  for_return stop_at (size_file e root) files r.

(** [[path for paths in size_map.values() if len(paths) > 1 for path in paths]] *)
Definition files_to_hash (size_map : list (Z * list string)) : list string :=
  concat (map snd (filter (fun kv => (1 <? length kv.2)%nat) size_map)).

Definition hash_one (e : env) (to_hash : nat) (filepath : string)
    (r : thread locals) : flow locals :=
  let r := act (HashFile filepath) r in
  match hash_file e filepath with
  | None => Continue r                                    (* except: continue *)
  | Some file_hash =>
      let r := act (OsStat filepath) r in
      match os_stat e filepath with
      | None => Continue r                                (* except: continue *)
      | Some st =>
          let file_entry :=
            DuplicateFile.mk (basename filepath) filepath st.1 st.2 (Some file_hash) in
          let v := vars r in
          let hashed_count := S (hashed_count v) in
          let r := set_vars (Locals (size_map v) (total_scanned v)
                               (dict_append String.eqb file_hash file_entry (hash_map v))
                               hashed_count) r in
          Continue (if (hashed_count mod 10 =? 0)%nat
                    then emit (progress (HashedFiles hashed_count to_hash)) r else r)
      end
  end.

Definition run (stop_at : option nat) (e : env) (root_folder : fs_node)
    : thread locals :=
  let r := emit (progress ScanningFilesBySize) (start (Locals [] 0 [] 0)) in
  match walk_return stop_at (size_directory stop_at e)
          (os_walk hidden_filter (dirname root_folder) root_folder) r with
  | Return r => r
  | Continue r =>
      let to_hash := files_to_hash (size_map (vars r)) in
      let r := emit (progress (HashingPotentialDuplicates (length to_hash))) r in
      match for_return stop_at (hash_one e (length to_hash)) to_hash r with
      | Return r => r
      | Continue r =>
          let duplicates :=
            filter (fun kv => (1 <? length kv.2)%nat) (hash_map (vars r)) in
          let '(b, r) := should_stop stop_at r in
          if b then r else emit (scan_complete duplicates) r
      end
  end.
End DeepDuplicateScannerThread.

(** A path is deleted by an attempt when it exists, is writable and its
    removal succeeds. *)
Definition deletable (disk : gmap string file_mode) (p : string) : bool :=
  match disk !! p with
  | Some m => writable m && removable m
  | None => false
  end.

(** The effect of one attempt on the disk and the counters. *)
Definition try_delete (v : FileDeletionThread.locals) (p : string)
    : FileDeletionThread.locals :=
  if deletable (FileDeletionThread.files_on_disk v) p
  then FileDeletionThread.Locals
         (delete p (FileDeletionThread.files_on_disk v))
         (S (FileDeletionThread.deleted_count v))
         (FileDeletionThread.failed_count v)
  else FileDeletionThread.failed v.

(* ===================================================================== *)
(** ** Reading a log                                                      *)
(* ===================================================================== *)

(** A file is visited: it is stat'ed or hashed. *)
Definition is_visit (a : action) : bool :=
  match a with
  | OsStat _ | HashFile _ => true
  | _ => false
  end.

(** A scan announces its completion. *)
Definition is_completion (a : action) : bool :=
  match a with
  | Emit (indexing_complete _) | Emit (scan_complete _) => true
  | _ => false
  end.

(** The flag has been seen set. *)
Definition stopped (l : list action) : Prop := ReadStop true ∈ l.

(** From the first read that sees the flag set, no file is visited and
    completion is not announced. *)
Definition quiet_after_stop (l : list action) : Prop :=
  forall l1 l2, l = l1 ++ ReadStop true :: l2 ->
    Forall (fun a => is_visit a = false /\ is_completion a = false) l2.

(** A visit [a] that follows the log [l1] starts right after a read that
    saw the flag clear; the stat of a file that was just hashed belongs
    to the visit of that file. *)
Definition guarded_at (l1 : list action) (a : action) : Prop :=
  (exists l0, l1 = l0 ++ [ReadStop false]) \/
  (exists l0 p, l1 = l0 ++ [ReadStop false; HashFile p] /\ a = OsStat p).

(** Between two reads of the flag at most one file is visited. *)
Definition visits_guarded (l : list action) : Prop :=
  forall l1 a l2, l = l1 ++ a :: l2 -> is_visit a = true -> guarded_at l1 a.

(** What every scan maintains: its log has the two properties above, and
    once the flag has been seen set it stays set. *)
Definition coop {L} (stop_at : option nat) (r : thread L) : Prop :=
  visits_guarded (log r) /\ quiet_after_stop (log r) /\
  (stopped (log r) -> flag stop_at (reads r) = true).

(** The state right after a read that saw the flag clear. *)
Definition fresh {L} (r : thread L) : Prop :=
  (exists l0, log r = l0 ++ [ReadStop false]) /\ ~ stopped (log r).

Definition thread_of {L} (f : flow L) : thread L :=
  match f with Continue r => r | Return r => r end.

Definition is_listing (a : action) : bool :=
  match a with Scandir _ => true | _ => false end.

(** Every listing of a directory by [os.walk] is directly followed by a
    read of the flag: the head of the loop over the directories reads it
    before anything is done with the directory. *)
Definition listings_checked (l : list action) : Prop :=
  forall l1 root l2, l = l1 ++ Scandir root :: l2 ->
    exists b l3, l2 = ReadStop b :: l3.

(** After a read that sees the flag set, at most [n] directories are
    listed. *)
Definition listings_after_stop (n : nat) (l : list action) : Prop :=
  forall l1 l2, l = l1 ++ ReadStop true :: l2 ->
    (length (filter is_listing l2) <= n)%nat.

(** A read that sees the flag set is the last thing that the thread
    does. *)
Definition ends_at_stop (l : list action) : Prop :=
  forall l1 l2, l = l1 ++ ReadStop true :: l2 -> l2 = [].

(** What the loops of a scan that [break] maintain: once a read has seen
    the flag set every later read sees it set, every listing is checked,
    and at most [n] directories were listed after the stop. *)
Definition winding {L} (stop_at : option nat) (n : nat) (r : thread L) : Prop :=
  (stopped (log r) -> flag stop_at (reads r) = true) /\
  listings_checked (log r) /\
  listings_after_stop n (log r).

(** What the loops of a scan that [return] maintain: every listing is
    checked, a loop goes on only while no read has seen the flag set,
    and the read that sees it set ends the scan. *)
Definition ending {L} (f : flow L) : Prop :=
  listings_checked (log (thread_of f)) /\
  match f with
  | Continue r => ~ stopped (log r)
  | Return r => ends_at_stop (log r)
  end.

(** A store of [n] rows, for the threshold of [run]. *)
Definition numbered_path (i : nat) : string := "/data/f" +:+ pretty i.

Definition cache_of_size (n : nat) : DatabaseManager.t :=
  list_to_map
    (map (fun i => (numbered_path i, DatabaseManager.Row (pretty i) "" 1 0%Q false 0%Q))
         (seq 0 n)).

(** The record of a file carries what [os.stat] answers for its path. *)
Definition recorded (e : env) (f : FileEntry.t) : Prop :=
  os_stat e (FileEntry.path f) = Some (FileEntry.size f, FileEntry.modified f).

Definition cached_info (row : DatabaseManager.row) : Z * Q :=
  (DatabaseManager.size row, DatabaseManager.modified row).

(** What the walk of [incremental_update] maintains, for a store [db0]
    at its start: the store is not written; the paths collected are the
    paths stat'ed; the new records are of paths absent from the store,
    the updated ones of cached paths that changed; and every path
    stat'ed with success that is new, or cached and changed, has its
    record. *)
Definition walk_inv (e : env) (db0 : DatabaseManager.t)
    (r : thread SystemIndexerThread.incremental_vars) : Prop :=
  let v := vars r in
  SystemIndexerThread.iu_db v = db0 /\
  SystemIndexerThread.indexed_paths v = dom db0 /\
  (forall p, p ∈ SystemIndexerThread.existing_paths v <-> OsStat p ∈ log r) /\
  (forall batch, SaveFileIndex batch ∉ log r) /\
  (forall f, f ∈ SystemIndexerThread.new_files v ->
     db0 !! FileEntry.path f = None /\ recorded e f /\
     FileEntry.path f ∈ SystemIndexerThread.existing_paths v) /\
  (forall f, f ∈ SystemIndexerThread.updated_files v ->
     (exists row, db0 !! FileEntry.path f = Some row /\
        SystemIndexerThread.changed (FileEntry.size f, FileEntry.modified f)
          (cached_info row) = true) /\
     recorded e f /\ FileEntry.path f ∈ SystemIndexerThread.existing_paths v) /\
  (forall p st, p ∈ SystemIndexerThread.existing_paths v -> os_stat e p = Some st ->
     (db0 !! p = None ->
        exists f, f ∈ SystemIndexerThread.new_files v /\ FileEntry.path f = p) /\
     (forall row, db0 !! p = Some row ->
        SystemIndexerThread.changed st (cached_info row) = true ->
        exists f, f ∈ SystemIndexerThread.updated_files v /\ FileEntry.path f = p)).

(** A record is handed to [save_file_index]. *)
Definition persisted (l : list action) (f : FileEntry.t) : Prop :=
  exists batch, SaveFileIndex batch ∈ l /\ f ∈ batch.

(** The size differs from the cached one, or the modification time
    differs from the cached one by more than one second. *)
Definition differs (st : Z * Q) (row : DatabaseManager.row) : Prop :=
  st.1 <> DatabaseManager.size row \/
  (1 < Qabs (st.2 - DatabaseManager.modified row))%Q.

(** The row holds the size and the modification time [st]. *)
Definition holds (row : DatabaseManager.row) (st : Z * Q) : Prop :=
  DatabaseManager.size row = st.1 /\ DatabaseManager.modified row = st.2.

(** What the walk of [incremental_update] maintains about the index in
    memory, [index0] at its start: the new records are in it; every path
    of [index0] still has an entry; and an updated path that had an entry
    has one that carries what [os.stat] answers. *)
Definition index_inv (e : env) (index0 : list FileEntry.t)
    (r : thread SystemIndexerThread.incremental_vars) : Prop :=
  let v := vars r in
  (forall f, f ∈ SystemIndexerThread.new_files v -> f ∈ SystemIndexerThread.iu_index v) /\
  (forall g, g ∈ index0 ->
     exists g', g' ∈ SystemIndexerThread.iu_index v /\
                FileEntry.path g' = FileEntry.path g) /\
  (forall f, f ∈ SystemIndexerThread.updated_files v ->
     (exists g, g ∈ index0 /\ FileEntry.path g = FileEntry.path f) ->
     exists g, g ∈ SystemIndexerThread.iu_index v /\
               FileEntry.path g = FileEntry.path f /\ recorded e g).

(** A small machine: one drive with three names, of which [c.txt]
    cannot be stat'ed, and a store that knows [a.txt] with another size
    and [b.txt] as it is. *)
Definition example_env : env :=
  Env (fun p => if String.eqb p "/a.txt" then Some (5, 10%Q)
                else if String.eqb p "/b.txt" then Some (7, 20%Q)
                else None)
      (fun p => None)
      (fun _ => 99%Q).

Definition example_drive : fs_node := Folder "/" [] ["a.txt"; "b.txt"; "c.txt"].

Definition example_index : list FileEntry.t :=
  [FileEntry.mk "a.txt" "/a.txt" ".txt" 4 10%Q false;
   FileEntry.mk "b.txt" "/b.txt" ".txt" 7 20%Q false].

Definition example_store : DatabaseManager.t :=
  <["/a.txt" := DatabaseManager.Row "a.txt" ".txt" 4 10%Q false 0%Q]>
    (<["/b.txt" := DatabaseManager.Row "b.txt" ".txt" 7 20%Q false 0%Q]> ∅).

(** Every member of every list of a dictionary, with its key. *)
Definition dict_Forall {K V} (P : K -> V -> Prop) (d : list (K * list V)) : Prop :=
  forall k xs y, (k, xs) ∈ d -> y ∈ xs -> P k y.

(** A path is in the bucket of its size: it was stat'ed with that size,
    which is positive. *)
Definition sized (e : env) (s : Z) (q : string) : Prop :=
  0 < s /\ exists m, os_stat e q = Some (s, m).

(** A member of a hash group: it carries the key of its group, which is
    the digest of its content, it was chosen for hashing, and it carries
    what [os.stat] answers for its path. *)
Definition hashed (e : env) (to_hash : list string) (h : string)
    (f : DuplicateFile.t) : Prop :=
  DuplicateFile.hash f = Some h /\
  hash_file e (DuplicateFile.path f) = Some h /\
  DuplicateFile.path f ∈ to_hash /\
  os_stat e (DuplicateFile.path f)
  = Some (DuplicateFile.size f, DuplicateFile.modified f).

(** What phase 1 of the deep scan maintains. *)
Definition sizing_inv (e : env) (r : thread DeepDuplicateScannerThread.locals) : Prop :=
  (forall a, a ∈ log r ->
     (forall p, a <> HashFile p) /\ (forall d, a <> Emit (scan_complete d))) /\
  DeepDuplicateScannerThread.hash_map (vars r) = [] /\
  dict_Forall (sized e) (DeepDuplicateScannerThread.size_map (vars r)).

(** What phase 2 of the deep scan maintains, for the buckets [size_map]
    of phase 1. *)
Definition hashing_inv (e : env) (size_map : list (Z * list string))
    (r : thread DeepDuplicateScannerThread.locals) : Prop :=
  let to_hash := DeepDuplicateScannerThread.files_to_hash size_map in
  DeepDuplicateScannerThread.size_map (vars r) = size_map /\
  (forall a, a ∈ log r ->
     (forall p, a = HashFile p -> p ∈ to_hash) /\
     (forall d, a <> Emit (scan_complete d))) /\
  dict_Forall (hashed e to_hash) (DeepDuplicateScannerThread.hash_map (vars r)).

(** The batches that a log carries in [results_ready]. *)
Definition batches (l : list action) : list (list FileEntry.t) :=
  omap (fun a => match a with Emit (results_ready b) => Some b | _ => None end) l.

(** From the first read that sees the flag set, the thread only reads the
    flag. *)
Definition halted_after_stop (l : list action) : Prop :=
  forall l1 l2, l = l1 ++ ReadStop true :: l2 ->
    Forall (fun a => a = ReadStop true) l2.

Definition halting {L} (stop_at : option nat) (r : thread L) : Prop :=
  halted_after_stop (log r) /\ (stopped (log r) -> flag stop_at (reads r) = true).

(** What the loop of a search has done after the records [xs]: the
    batches emitted and the results being collected are the matches
    among [xs], fewer than 100 are being collected, and the batches are
    full. *)
Definition search_matches (self : FileSearchThread.t) (e : FileEntry.t) : bool :=
  str_in (FileSearchThread.query self) (lower (FileEntry.name e))
  && (String.eqb (FileSearchThread.folder_filter self) ""
      || str_in (FileSearchThread.folder_filter self) (lower (FileEntry.path e))).

Definition batched (self : FileSearchThread.t) (xs : list FileEntry.t)
    (r : thread (list FileEntry.t)) : Prop :=
  concat (batches (log r)) ++ vars r
    = filter (fun e => search_matches self e = true) xs /\
  (length (vars r) < 100)%nat /\
  Forall (fun b => length b = 100%nat) (batches (log r)).

(** What one iteration of the deletion loop adds to the log, on a disk
    where the file has not been touched yet: the read of the flag and,
    when the file exists and is writable, its removal and the progress
    signal. *)
Definition attempt_log (disk : gmap string file_mode) (total : nat)
    (item : nat * DuplicateFile.t) : list action :=
  ReadStop false ::
  match disk !! DuplicateFile.path item.2 with
  | Some m =>
      if writable m
      then [OsRemove (DuplicateFile.path item.2);
            Emit (deletion_progress (item.1 + 1) total)]
      else []
  | None => []
  end.

(** The batches that a log hands to [save_file_index], in order. *)
Definition saved_batches (l : list action) : list (list FileEntry.t) :=
  omap (fun a => match a with SaveFileIndex b => Some b | _ => None end) l.

(** The paths that a log stats, in order. *)
Definition stats (l : list action) : list string :=
  omap (fun a => match a with OsStat p => Some p | _ => None end) l.

(** A row of the store carries the size and the time of a record. *)
Definition stored (db : DatabaseManager.t) (f : FileEntry.t) : Prop :=
  exists row, db !! FileEntry.path f = Some row /\
              holds row (FileEntry.size f, FileEntry.modified f).

(** The files of a directory that [os.walk] yields, each with the
    directory. *)
Definition files_in (item : string * list string * list string)
    : list (string * string) :=
  (fun filename => (item.1.1, filename)) <$> item.2.

(** The files that the walk of a drive comes to, in the order of the
    walk, and those of all the drives. *)
Definition walked_in (drive : fs_node) : list (string * string) :=
  concat (files_in <$> os_walk SystemIndexerThread.keep_dir (dirname drive) drive).

Definition walked (drives : list fs_node) : list (string * string) :=
  concat (walked_in <$> drives).

(** The record that the indexer makes of a walked file, when [os.stat]
    succeeds. *)
Definition entry_of (e : env) (file : string * string) : option FileEntry.t :=
  SystemIndexerThread.new_entry file.2 (os_path_join file.1 file.2)
    <$> os_stat e (os_path_join file.1 file.2).

(** A record as the indexer makes it. *)
Definition indexed_record (e : env) (f : FileEntry.t) : Prop :=
  recorded e f /\ FileEntry.is_dir f = false /\
  FileEntry.extension f = lower (splitext (FileEntry.name f)).2.

(** What the loops of [full_index] maintain, for an index [index0] and a
    log [l0] at the start: the records added are the batches saved
    followed by the batch being collected, which is not full; the saved
    batches are full; and the store has a row for every saved record. *)
Definition full_index_inv (e : env) (index0 : list FileEntry.t) (l0 : list action)
    (r : thread SystemIndexerThread.full_index_vars) : Prop :=
  let v := vars r in
  exists bs,
    SystemIndexerThread.fi_index v
      = index0 ++ concat bs ++ SystemIndexerThread.batch v /\
    saved_batches (log r) = saved_batches l0 ++ bs /\
    (length (SystemIndexerThread.batch v) < SystemIndexerThread.batch_size)%nat /\
    Forall (fun b => length b = SystemIndexerThread.batch_size) bs /\
    SystemIndexerThread.total_files v
      = length (concat bs ++ SystemIndexerThread.batch v) /\
    Forall (indexed_record e) (concat bs ++ SystemIndexerThread.batch v) /\
    Forall (stored (SystemIndexerThread.fi_db v)) (concat bs).

(** [file_at node names filename]: the directory [node] can be listed,
    [names] are the names of sub-directories of the tree that lead from
    it, one inside the other, to a directory that can be listed, and
    [filename] is one of the files that this directory holds. *)
Inductive file_at : fs_node -> list string -> string -> Prop :=
  | file_here name subdirs files filename :
      filename ∈ files ->
      file_at (Folder name subdirs files) [] filename
  | file_below name subdirs files sub names filename :
      sub ∈ subdirs ->
      file_at sub names filename ->
      file_at (Folder name subdirs files) (dirname sub :: names) filename.

(** A path that the walk of one of the drives can come to: that of a
    file of the tree of the drive, in a directory that is reached from
    the drive through sub-directories none of which has a name that
    starts with a dot or is excluded.  The path is made as the walk
    makes it, with [os.path.join] from the drive down. *)
Definition reachable (drives : list fs_node) (p : string) : Prop :=
  exists drive names filename,
    drive ∈ drives /\
    file_at drive names filename /\
    Forall (fun d => startswith d "." = false /\
                     d ∉ SystemIndexerThread.excluded_dirs) names /\
    p = os_path_join (foldl os_path_join (dirname drive) names) filename.

(** A drive with a directory that the indexer leaves out. *)
Definition example_project : fs_node :=
  Folder "/data"
    [Folder ".git" [] ["config"]; Folder "src" [] ["main.py"]]
    ["a.txt"].

(** The paths that a thread has stat'ed are among those of the log [l0]
    or can be come to by the walk. *)
Definition within {L} (drives : list fs_node) (l0 : list action) (r : thread L)
    : Prop :=
  forall p, p ∈ stats (log r) -> p ∈ stats l0 \/ reachable drives p.

(** The file names on which [str.lower], [re.IGNORECASE] and the classes
    [\s] and [\d] of Python agree with those of the model: every
    character is below 128. *)
Definition ascii_only (s : string) : bool :=
  forallb (fun c => (nat_of_ascii c <? 128)%nat) (chars s).

(** The class of the last character that a pattern of the form
    [... c $] or [... c+ $] consumes. *)
Fixpoint last_class (p : list item) : option char_class :=
  match p with
  | [] => None
  | [One c; End] | [Plus c; End] => Some c
  | _ :: p' => last_class p'
  end.

(** A character at which one of the patterns of [normalize_filename] can
    end: a closing parenthesis, the last letter of "copy" in either case,
    a digit; or the newline in front of which [$] matches. *)
Definition copy_marker_end (c : ascii) : bool :=
  Ascii.eqb c ")" || Ascii.eqb c "y" || Ascii.eqb c "Y" || is_digit c
  || Ascii.eqb c "010".

(** [d.get(k)] *)
Fixpoint dict_get {K V} (eqb : K -> K -> bool) (k : K) (d : list (K * V))
    : option V :=
  match d with
  | [] => None
  | (k', v) :: d' => if eqb k' k then Some v else dict_get eqb k d'
  end.

(** The dictionary that a loop builds with [d[key(x)].append(x)] over
    the elements [xs]. *)
Definition grouped {K X} (eqb : K -> K -> bool) (key : X -> K) (xs : list X)
    : list (K * list X) :=
  foldl (fun d x => dict_append eqb (key x) x d) [] xs.

(** The files that the walk of a duplicate scan comes to, each with its
    directory, in the order of the walk; and their paths. *)
Definition scanned (root_folder : fs_node) : list (string * string) :=
  concat (files_in <$> os_walk hidden_filter (dirname root_folder) root_folder).

Definition scanned_paths (root_folder : fs_node) : list string :=
  (fun file => os_path_join file.1 file.2) <$> scanned root_folder.

(** The record that a fast scan makes of a walked file, when [os.stat]
    succeeds, and the key under which it files the record. *)
Definition duplicate_of (e : env) (file : string * string) : option DuplicateFile.t :=
  (fun st : Z * Q =>
     DuplicateFile.mk file.2 (os_path_join file.1 file.2) st.1 st.2 None)
  <$> os_stat e (os_path_join file.1 file.2).

Definition fast_key (case_sensitive use_size_filter : bool) (f : DuplicateFile.t)
    : string * option Z :=
  (FastDuplicateScannerThread.normalize_filename case_sensitive (DuplicateFile.name f),
   if use_size_filter then Some (DuplicateFile.size f) else None).

(** One file of the walk, on the local variables of the fast scan. *)
Definition fast_step (case_sensitive use_size_filter : bool) (e : env)
    (v : FastDuplicateScannerThread.locals) (file : string * string)
    : FastDuplicateScannerThread.locals :=
  match duplicate_of e file with
  | Some f =>
      FastDuplicateScannerThread.Locals
        (dict_append FastDuplicateScannerThread.key_eqb
           (fast_key case_sensitive use_size_filter f) f
           (FastDuplicateScannerThread.file_map v))
        (S (FastDuplicateScannerThread.total_scanned v))
  | None => v
  end.

(** The size that [os.stat] answers for a path, 0 when it fails. *)
Definition size_of (e : env) (p : string) : Z :=
  match os_stat e p with
  | Some st => st.1
  | None => 0
  end.

(** The record that a deep scan makes of a path it hashes, when both
    [hash_file] and [os.stat] succeed. *)
Definition hashed_record (e : env) (p : string) : option DuplicateFile.t :=
  match hash_file e p, os_stat e p with
  | Some h, Some st =>
      Some (DuplicateFile.mk (DeepDuplicateScannerThread.basename p) p
              st.1 st.2 (Some h))
  | _, _ => None
  end.

Definition digest (f : DuplicateFile.t) : string :=
  default "" (DuplicateFile.hash f).

(** One file of the walk, and one path to hash, on the local variables
    of the deep scan. *)
Definition size_step (e : env) (v : DeepDuplicateScannerThread.locals)
    (file : string * string) : DeepDuplicateScannerThread.locals :=
  let p := os_path_join file.1 file.2 in
  match os_stat e p with
  | Some st =>
      DeepDuplicateScannerThread.Locals
        (if 0 <? st.1
         then dict_append Z.eqb st.1 p (DeepDuplicateScannerThread.size_map v)
         else DeepDuplicateScannerThread.size_map v)
        (S (DeepDuplicateScannerThread.total_scanned v))
        (DeepDuplicateScannerThread.hash_map v)
        (DeepDuplicateScannerThread.hashed_count v)
  | None => v
  end.

Definition hash_step (e : env) (v : DeepDuplicateScannerThread.locals)
    (p : string) : DeepDuplicateScannerThread.locals :=
  match hashed_record e p with
  | Some f =>
      DeepDuplicateScannerThread.Locals
        (DeepDuplicateScannerThread.size_map v)
        (DeepDuplicateScannerThread.total_scanned v)
        (dict_append String.eqb (digest f) f (DeepDuplicateScannerThread.hash_map v))
        (S (DeepDuplicateScannerThread.hashed_count v))
  | None => v
  end.

(** The paths of the files that the walk of the drives comes to. *)
Definition walked_paths (drives : list fs_node) : list string :=
  (fun file => os_path_join file.1 file.2) <$> walked drives.

(* ===================================================================== *)
(** ** FileExplorerTab: searching                                         *)
(* ===================================================================== *)

(** [str.strip()] on the ASCII range. *)
Fixpoint lstrip_chars (s : list ascii) : list ascii :=
  match s with
  | x :: s' => if is_space x then lstrip_chars s' else s
  | [] => []
  end.

Definition strip (s : string) : string :=
  str (rev (lstrip_chars (rev (lstrip_chars (chars s))))).

Module FileExplorerTab.
(** The index of the tab and the rows of its table
    ([self.file_model.files]). *)
Record t : Type := mk {
  file_index : list FileEntry.t;
  files : list FileEntry.t
}.

(** [perform_search], for the text of the search box: the tab afterwards
    and the search thread it starts, if any. *)
Definition perform_search (text : string) (tab : t)
    : t * option FileSearchThread.t :=
  let query := strip text in
  if String.eqb query "" then (mk (file_index tab) [], None)           (* return *)
  else
    match file_index tab with
    | [] => (tab, None)                                                (* return *)
    | _ :: _ => (tab, Some (FileSearchThread.init (file_index tab) query ""))
    end.

Definition on_search_results (results : list FileEntry.t) (tab : t) : t :=
  let current_files := files tab ++ results in
  mk (file_index tab) current_files.

Definition on_search_complete (total : nat) (tab : t) : t := tab.     (* pass *)

(** The slots connected to the signals of the search thread. *)
Definition deliver (tab : t) (a : action) : t :=
  match a with
  | Emit (results_ready results) => on_search_results results tab
  | Emit (search_complete total) => on_search_complete total tab
  | _ => tab
  end.
End FileExplorerTab.

(* ===================================================================== *)
(** ** ThemeManager                                                       *)
(* ===================================================================== *)

Module ThemeManager.
Definition THEMES : gmap string (gmap string string) :=
  list_to_map
    [ ("light", list_to_map
        [ ("background", "#f4f6fb"); ("foreground", "#1f2937");
          ("button_bg", "#6366f1"); ("button_fg", "#ffffff");
          ("button_hover", "#4f46e5"); ("input_border", "#c7cbd6");
          ("group_border", "#d1d5db"); ("selection", "#818cf8") ]);
      ("dark", list_to_map
        [ ("background", "#1f2933"); ("foreground", "#f9fafb");
          ("button_bg", "#3b82f6"); ("button_fg", "#ffffff");
          ("button_hover", "#2563eb"); ("input_border", "#374151");
          ("group_border", "#4b5563"); ("selection", "#60a5fa") ]);
      ("blue", list_to_map
        [ ("background", "#0f172a"); ("foreground", "#e5e7eb");
          ("button_bg", "#38bdf8"); ("button_fg", "#0f172a");
          ("button_hover", "#0ea5e9"); ("input_border", "#334155");
          ("group_border", "#475569"); ("selection", "#38bdf8") ]);
      ("custom", list_to_map
        [ ("background", "#ffffff"); ("foreground", "#000000");
          ("button_bg", "#3498db"); ("button_fg", "#ffffff");
          ("button_hover", "#2980b9"); ("input_border", "#bdc3c7");
          ("group_border", "#cccccc"); ("selection", "#3498db") ]) ].

Record t : Type := mk {
  current_theme : string;
  custom_colors : gmap string string
}.

(** [__init__]: [self.custom_colors = self.THEMES['custom'].copy()] *)
Definition init : t := mk "light" (default ∅ (THEMES !! "custom")).

Definition set_theme (theme_name : string) (self : t) : t :=
  if bool_decide (theme_name ∈ dom THEMES)
  then mk theme_name (custom_colors self)
  else self.

Definition set_custom_color (element color : string) (self : t) : t :=
  if bool_decide (element ∈ dom (custom_colors self))
  then mk (current_theme self) (<[element := color]> (custom_colors self))
  else self.

Definition get_custom_colors (self : t) : gmap string string := custom_colors self.

(** [colors.items()] is the list of the pairs, in the order of the
    dictionary. *)
Definition load_custom_colors (colors : list (string * string)) (self : t) : t :=
  foldl (fun self '(key, value) =>
           if bool_decide (key ∈ dom (custom_colors self))
           then mk (current_theme self) (<[key := value]> (custom_colors self))
           else self)
        self colors.

(** The colours that [get_stylesheet] puts into the style sheet, in the
    order of their first use; [None] when one of the look-ups
    [theme[...]] raises [KeyError]. *)
Definition get_stylesheet (self : t) : option (list string) :=
  let theme :=
    if String.eqb (current_theme self) "custom" then custom_colors self
    else default (default ∅ (THEMES !! "light")) (THEMES !! current_theme self) in
  mapM (fun key => theme !! key)
       ["background"; "foreground"; "group_border"; "button_bg"; "button_fg";
        "button_hover"; "input_border"; "selection"].

(** What the settings dialog can do to a theme manager. *)
Inductive call : Type :=
  | SetTheme (theme_name : string)
  | SetCustomColor (element color : string)
  | LoadCustomColors (colors : list (string * string)).

Definition apply (self : t) (c : call) : t :=
  match c with
  | SetTheme theme_name => set_theme theme_name self
  | SetCustomColor element color => set_custom_color element color self
  | LoadCustomColors colors => load_custom_colors colors self
  end.
End ThemeManager.

(* ===================================================================== *)
(** ** FileOrganizerThread                                                *)
(* ===================================================================== *)

Module FileOrganizerThread.
(** What the thread does, in order: the reads of the flag, the calls of
    [shutil.move] and [shutil.copy2] with their outcome ([false] when
    the call raises), and the signals. *)
Inductive event : Type :=
  | ReadStop (b : bool)
  | Move (source_file dest_file : string) (done : bool)
  | Copy2 (source_file dest_file : string) (done : bool)
  | StatusMessage                                (* "Scanning for files..." *)
  | ErrorOccurred                                (* "Error scanning: ..." *)
  | Progress (current total : nat)
  | OperationComplete (processed_count failed_count : nat).

(** The thread with what it sees of the file system: the tree under
    [source_path] as [os.walk] lists it; what [os.listdir(source_path)]
    returns, each name with the answer of [os.path.isfile] ([None] when
    the listing raises); and whether a transfer between two paths is
    permitted. *)
Record t : Type := mk {
  source_path : string;
  dest_path : string;
  extensions : gset string;
  scan_subfolders : bool;
  move_files : bool;
  tree : fs_node;
  listing : option (list (string * bool));
  permitted : string -> string -> bool
}.

(** The state of a run: the paths that exist on the disk are part of it. *)
Record state : Type := State {
  reads : nat;
  log : list event;
  disk : gset string;
  processed_count : nat;
  failed_count : nat
}.

Definition start (disk : gset string) : state := State 0 [] disk 0 0.

Definition record (ev : event) (s : state) : state :=
  State (reads s) (log s ++ [ev]) (disk s) (processed_count s) (failed_count s).

Definition should_stop (stop_at : option nat) (s : state) : bool * state :=
  let b := flag stop_at (reads s) in
  (b, State (S (reads s)) (log s ++ [ReadStop b]) (disk s)
            (processed_count s) (failed_count s)).

Definition selected (self : t) (filename : string) : bool :=
  let ext := lower (splitext filename).2 in
  bool_decide (ext ∈ extensions self).

(** The walk of the sub-folders; [None] is [return]. *)
Fixpoint scan_tree (stop_at : option nat) (self : t)
    (items : list (string * list string * list string))
    (files_to_process : list string) (s : state) : state * option (list string) :=
  match items with
  | [] => (s, Some files_to_process)
  | (root, dirs, files) :: items' =>
      let '(b, s) := should_stop stop_at s in
      if b then (s, None)
      else scan_tree stop_at self items'
             (files_to_process ++ map (os_path_join root) (filter (selected self) files))
             s
  end.

(** The loop over [os.listdir(self.source_path)]. *)
Fixpoint scan_listing (stop_at : option nat) (self : t)
    (items : list (string * bool))
    (files_to_process : list string) (s : state) : state * option (list string) :=
  match items with
  | [] => (s, Some files_to_process)
  | (item, isfile) :: items' =>
      let '(b, s) := should_stop stop_at s in
      if b then (s, None)
      else
        let filepath := os_path_join (source_path self) item in
        scan_listing stop_at self items'
          (if isfile && selected self item
           then files_to_process ++ [filepath] else files_to_process)
          s
  end.

(** [f"{base_name}_{counter}{ext}"] *)
Definition numbered (base_name : string) (counter : nat) (ext : string) : string :=
  base_name +:+ "_" +:+ pretty counter +:+ ext.

(** [while os.path.exists(dest_file): ...]: the loop probes one path per
    round; [fuel] bounds the rounds, and [None] is a loop that has not
    ended within them. *)
Fixpoint free_name (fuel : nat) (disk : gset string)
    (dest_path base_name ext : string) (counter : nat) (dest_file : string)
    : option string :=
  match fuel with
  | O => None
  | S fuel' =>
      if bool_decide (dest_file ∈ disk) then
        let new_name := numbered base_name counter ext in
        free_name fuel' disk dest_path base_name ext (S counter)
                  (os_path_join dest_path new_name)
      else Some dest_file
  end.

(** The rounds that the loop needs at most on a disk. *)
Definition rounds (disk : gset string) : nat := S (S (size disk)).

(** One iteration of the loop over [enumerate(files_to_process)]. *)
Definition transfer (self : t) (total_files : nat) (item : nat * string)
    (s : state) : state :=
  let '(i, source_file) := item in
  let filename := DeepDuplicateScannerThread.basename source_file in
  let dest_file := os_path_join (dest_path self) filename in
  let '(base_name, ext) := splitext filename in
  match free_name (rounds (disk s)) (disk s) (dest_path self) base_name ext 1 dest_file with
  | None => s                                         (* the loop has not ended *)
  | Some dest_file =>
      let done := bool_decide (source_file ∈ disk s)
                  && permitted self source_file dest_file in
      let ev := if move_files self then Move source_file dest_file done
                else Copy2 source_file dest_file done in
      if done then
        let disk' :=
          {[dest_file]} ∪ (if move_files self then disk s ∖ {[source_file]}
                           else disk s) in
        State (reads s) (log s ++ [ev; Progress (i + 1) total_files]) disk'
              (S (processed_count s)) (failed_count s)
      else                                            (* except Exception *)
        State (reads s) (log s ++ [ev]) (disk s)
              (processed_count s) (S (failed_count s))
  end.

Fixpoint transfer_all (stop_at : option nat) (self : t) (total_files : nat)
    (items : list (nat * string)) (s : state) : state :=
  match items with
  | [] => s
  | item :: items' =>
      let '(b, s) := should_stop stop_at s in
      if b then s                                     (* break *)
      else transfer_all stop_at self total_files items'
                        (transfer self total_files item s)
  end.

Definition run (stop_at : option nat) (self : t) (disk : gset string) : state :=
  let s := record StatusMessage (start disk) in
  let scan :=
    if scan_subfolders self
    then scan_tree stop_at self
           (os_walk (fun _ => true) (source_path self) (tree self)) [] s
    else match listing self with
         | Some items => scan_listing stop_at self items [] s
         | None => (record ErrorOccurred s, None)     (* except: ... return *)
         end in
  match scan with
  | (s, None) => s                                    (* return *)
  | (s, Some files_to_process) =>
      let total_files := length files_to_process in
      let s := transfer_all stop_at self total_files (enumerate files_to_process) s in
      record (OperationComplete (processed_count s) (failed_count s)) s
  end.
End FileOrganizerThread.

(** The disk after the transfers of a log, from the disk [disk] before
    them; [None] when one of them has a destination that exists. *)
Fixpoint replay (disk : gset string) (l : list FileOrganizerThread.event)
    : option (gset string) :=
  match l with
  | [] => Some disk
  | FileOrganizerThread.Move source_file dest_file done :: l' =>
      if bool_decide (dest_file ∈ disk) then None
      else replay (if done then {[dest_file]} ∪ disk ∖ {[source_file]} else disk) l'
  | FileOrganizerThread.Copy2 source_file dest_file done :: l' =>
      if bool_decide (dest_file ∈ disk) then None
      else replay (if done then {[dest_file]} ∪ disk else disk) l'
  | _ :: l' => replay disk l'
  end.

(** The paths that the naming loop tries after the first one. *)
Definition candidate (dest_path base_name ext : string) (counter : nat) : string :=
  os_path_join dest_path (FileOrganizerThread.numbered base_name counter ext).

Definition is_progress (ev : FileOrganizerThread.event) : bool :=
  match ev with FileOrganizerThread.Progress _ _ => true | _ => false end.

Definition is_transfer (ev : FileOrganizerThread.event) : bool :=
  match ev with
  | FileOrganizerThread.Move _ _ _ | FileOrganizerThread.Copy2 _ _ _ => true
  | _ => false
  end.

(** What a run of the organizer maintains, from the disk [disk0]: no
    transfer had a destination that existed, and the disk is the one
    that the transfers make of [disk0]; a path that has left the disk
    was moved; and the counters count the transfers that were made (each
    with its progress signal) and those that raised. *)
Definition organizing (self : FileOrganizerThread.t) (disk0 : gset string)
    (s : FileOrganizerThread.state) : Prop :=
  replay disk0 (FileOrganizerThread.log s) = Some (FileOrganizerThread.disk s) /\
  (forall p, p ∈ disk0 ->
     p ∈ FileOrganizerThread.disk s \/
     FileOrganizerThread.move_files self = true /\
     exists dest_file,
       FileOrganizerThread.Move p dest_file true ∈ FileOrganizerThread.log s) /\
  FileOrganizerThread.processed_count s
  = length (filter is_progress (FileOrganizerThread.log s)) /\
  (FileOrganizerThread.processed_count s + FileOrganizerThread.failed_count s
   = length (filter is_transfer (FileOrganizerThread.log s)))%nat.

(** The files that the scan of the organizer selects, in order. *)
Definition to_process (self : FileOrganizerThread.t) : option (list string) :=
  if FileOrganizerThread.scan_subfolders self then
    Some (concat
            ((fun item : string * list string * list string =>
                map (os_path_join item.1.1)
                    (filter (FileOrganizerThread.selected self) item.2))
             <$> os_walk (fun _ => true) (FileOrganizerThread.source_path self)
                         (FileOrganizerThread.tree self)))
  else
    match FileOrganizerThread.listing self with
    | Some items =>
        Some (omap (fun item : string * bool =>
                      if item.2 && FileOrganizerThread.selected self item.1
                      then Some (os_path_join (FileOrganizerThread.source_path self)
                                              item.1)
                      else None) items)
    | None => None
    end.

(** The outcome and the source of a transfer; the transfers that were
    made and those that raised; and the call that the mode of the thread
    asks for. *)
Definition transfer_outcome (ev : FileOrganizerThread.event) : option bool :=
  match ev with
  | FileOrganizerThread.Move _ _ done | FileOrganizerThread.Copy2 _ _ done => Some done
  | _ => None
  end.

Definition transfer_source (ev : FileOrganizerThread.event) : option string :=
  match ev with
  | FileOrganizerThread.Move source_file _ _
  | FileOrganizerThread.Copy2 source_file _ _ => Some source_file
  | _ => None
  end.

Definition is_made (ev : FileOrganizerThread.event) : bool :=
  match transfer_outcome ev with Some true => true | _ => false end.

Definition is_raised (ev : FileOrganizerThread.event) : bool :=
  match transfer_outcome ev with Some false => true | _ => false end.

Definition in_mode (self : FileOrganizerThread.t) (ev : FileOrganizerThread.event)
    : bool :=
  match ev with
  | FileOrganizerThread.Move _ _ _ => FileOrganizerThread.move_files self
  | FileOrganizerThread.Copy2 _ _ _ => negb (FileOrganizerThread.move_files self)
  | _ => true
  end.

(** The transfers and the progress signals of a log, in order, are the
    transfers, each one that was made directly followed by the signal
    that carries its position (from 1) among the transfers and the
    total; there is no other progress signal. *)
Definition announced (total : nat) (l : list FileOrganizerThread.event) : Prop :=
  filter (fun ev => is_transfer ev || is_progress ev) l
  = concat (imap (fun i ev =>
                    ev :: if is_made ev
                          then [FileOrganizerThread.Progress (i + 1) total] else [])
                 (filter is_transfer l)).

(** What the counters and the log of the organizer are after the files
    [tried]: the counters count the transfers by their outcome, the
    progress signals are those of the transfers that were made, and the
    transfers are those of [tried], one for each in order, by the call
    of the mode. *)
Definition reporting (self : FileOrganizerThread.t) (total : nat)
    (tried : list string) (s : FileOrganizerThread.state) : Prop :=
  FileOrganizerThread.processed_count s
  = length (filter is_made (FileOrganizerThread.log s)) /\
  FileOrganizerThread.failed_count s
  = length (filter is_raised (FileOrganizerThread.log s)) /\
  announced total (FileOrganizerThread.log s) /\
  omap transfer_source (FileOrganizerThread.log s) = tried /\
  Forall (in_mode self) (FileOrganizerThread.log s).

(** What the walk of an incremental update maintains when it meets
    nothing new and nothing changed: the index and the store are those
    of the start, no record is collected and nothing is saved. *)
Definition settled (index0 : list FileEntry.t) (db0 : DatabaseManager.t)
    (r : thread SystemIndexerThread.incremental_vars) : Prop :=
  let v := vars r in
  SystemIndexerThread.iu_index v = index0 /\
  SystemIndexerThread.iu_db v = db0 /\
  SystemIndexerThread.indexed_paths v = dom db0 /\
  SystemIndexerThread.new_files v = [] /\
  SystemIndexerThread.updated_files v = [] /\
  forall batch, SaveFileIndex batch ∉ log r.

(* ===================================================================== *)
(** * Properties                                                          *)
(* ===================================================================== *)

(** ** Duplicate groups *)

Lemma sum_insert_desc x l : sum (insert_desc x l) = x + sum l.
Proof.
  induction l as [|y l IH]; simpl; [done|].
  destruct (x <? y); simpl; [rewrite IH|]; lia.
Qed.

Lemma sum_sorted_reverse l : sum (sorted_reverse l) = sum l.
Proof.
  induction l as [|x l IH]; simpl; [done|].
  by rewrite sum_insert_desc, IH.
Qed.

Lemma length_insert_desc x l : length (insert_desc x l) = S (length l).
Proof.
  induction l as [|y l IH]; simpl; [done|].
  destruct (x <? y); simpl; by rewrite ?IH.
Qed.

Lemma length_sorted_reverse l : length (sorted_reverse l) = length l.
Proof.
  induction l as [|x l IH]; simpl; [done|].
  by rewrite length_insert_desc, IH.
Qed.

(** The head of the descending sort is the maximum. *)
Definition head_or (d : Z) (l : list Z) : Z :=
  match l with [] => d | x :: _ => x end.

Lemma head_insert_desc x l :
  head_or x (insert_desc x l) = Z.max x (head_or x l).
Proof.
  destruct l as [|y l]; simpl; [lia|].
  destruct (Z.ltb_spec x y); simpl; lia.
Qed.

Lemma head_or_irrel d d' l : l <> [] -> head_or d l = head_or d' l.
Proof. by destruct l. Qed.

Lemma insert_desc_nonempty x l : insert_desc x l <> [].
Proof. destruct l as [|y l]; simpl; [done|]. by destruct (x <? y). Qed.

Lemma head_sorted_reverse x l :
  head_or 0 (sorted_reverse (x :: l)) = maximum (x :: l).
Proof.
  revert x. induction l as [|y l IH]; intros x; [done|].
  change (sorted_reverse (x :: y :: l))
    with (insert_desc x (sorted_reverse (y :: l))).
  rewrite (head_or_irrel 0 x) by apply insert_desc_nonempty.
  rewrite head_insert_desc.
  rewrite (head_or_irrel x 0) by (simpl; apply insert_desc_nonempty).
  rewrite IH. simpl. clear IH.
  revert x y. induction l as [|z l IHl]; intros x y; simpl; [lia|].
  specialize (IHl x z) as H1. specialize (IHl y z) as H2.
  simpl in *. lia.
Qed.

Lemma sum_drop1 l : sum (drop 1 l) = sum l - head_or 0 l.
Proof. destruct l as [|x l]; simpl; [done|]. rewrite drop_0. lia. Qed.

(** C5. [wasted_space] of a group with at least two members is the sum of
    the member sizes without the largest one, that is [total_size] minus
    the maximum member size; it is 0 for a group of at most one member;
    a group of sizes 100, 100, 300 gives 200. *)
Theorem wasted_space_all_but_largest :
  (forall g : DuplicateGroup.t,
      DuplicateGroup.wasted_space g =
      if decide (2 <= length (DuplicateGroup.files g))%nat
      then DuplicateGroup.total_size g
           - maximum (map DuplicateFile.size (DuplicateGroup.files g))
      else 0) /\
  (forall k n1 p1 m1 h1 n2 p2 m2 h2 n3 p3 m3 h3,
      DuplicateGroup.wasted_space
        (DuplicateGroup.mk k
           [DuplicateFile.mk n1 p1 100 m1 h1;
            DuplicateFile.mk n2 p2 100 m2 h2;
            DuplicateFile.mk n3 p3 300 m3 h3]) = 200).
Proof.
  split; [|done].
  intros [k fs]. unfold DuplicateGroup.wasted_space, DuplicateGroup.total_size.
  simpl. destruct fs as [|f1 [|f2 fs]]; [done..|].
  case_decide; [|simpl in *; lia].
  change (length (f1 :: f2 :: fs) <=? 1)%nat with false. cbv iota.
  rewrite sum_drop1, sum_sorted_reverse.
  change (map DuplicateFile.size (f1 :: f2 :: fs))
    with (DuplicateFile.size f1 :: map DuplicateFile.size (f2 :: fs)).
  by rewrite head_sorted_reverse.
Qed.

(** ** Loops when the flag is never set *)

Lemma should_stop_None {L} (r : thread L) :
  should_stop None r = (false, Run (S (reads r)) (log r ++ [ReadStop false]) (vars r)).
Proof. done. Qed.

Lemma for_break_None {X L} (body : X -> thread L -> thread L) xs r :
  for_break None body xs r
  = foldl (fun r x => body x (should_stop None r).2) r xs.
Proof. revert r. induction xs as [|x xs IH]; intros r; simpl; [done|]. apply IH. Qed.

(** ** Search *)

(** C1. At an index of one record whose name contains the query and whose
    path does not contain the folder filter, the batches carry no record
    but [search_complete] carries 1: the total is counted on the name
    alone, while the specified predicate holds of no record. *)
Theorem search_total_ignores_folder_filter :
  let e := FileEntry.mk "a.txt" "/docs/a.txt" ".txt" 1 0%Q false in
  log (FileSearchThread.run None (FileSearchThread.init [e] "a" "music"))
  = [ReadStop false; ReadStop false; Emit (search_complete 1)]
  /\ length (filter (search_predicate "a" "music") [e]) = 0%nat.
Proof. split; vm_compute; reflexivity. Qed.

(** With the flag never set, the total of [search_complete] is the
    number of records whose name contains the query; it is the number of
    records that satisfy the search predicate when no folder filter is
    given. *)
Lemma search_total_counts_names index query folder_filter :
  last (log (FileSearchThread.run None (FileSearchThread.init index query folder_filter)))
  = Some (Emit (search_complete
                  (length (filter (search_predicate query "") index)))).
Proof.
  unfold FileSearchThread.run. set (r := for_break _ _ _ _).
  set (r' := match vars r with [] => r | _ :: _ => _ end).
  rewrite should_stop_None. cbn [emit act log]. rewrite last_snoc.
  do 3 f_equal. clear r r'. cbn [FileSearchThread.init FileSearchThread.query
    FileSearchThread.index]. f_equal.
  apply list_filter_iff. intros x. unfold search_predicate.
  cbn [String.eqb orb]. by rewrite andb_true_r.
Qed.

(** ** The matcher and what a pattern matches *)

Lemma match_star_sound c p k s n :
  (forall s n, k s = Some n ->
     (n <= length s)%nat /\ derives p (take n s) (drop n s)) ->
  match_star c k s = Some n ->
  (n <= length s)%nat /\ derives (Star c :: p) (take n s) (drop n s).
Proof.
  intros Hk. assert (Hbase : forall s n, k s = Some n ->
    (n <= length s)%nat /\ derives (Star c :: p) (take n s) (drop n s)).
  { intros s' n' H. destruct (Hk s' n' H) as [Hn Hd]. split; [done|].
    by apply (derives_star c [] p). }
  revert n. induction s as [|x s IH]; intros n; simpl; [apply Hbase|].
  destruct (in_class c x) eqn:Hx; [|apply (Hbase (x :: s))].
  destruct (match_star c k s) as [m|] eqn:Hm; [|apply (Hbase (x :: s))].
  intros [= <-]. destruct (IH m eq_refl) as [Hle Hd]. split; [simpl; lia|].
  simpl. inversion Hd as [| |c' u p' w rest Hu Hw Ep Ew Er| |]; subst.
  apply (derives_star c (x :: u) p); [by constructor|done].
Qed.

Lemma match_here_sound p s n :
  match_here p s = Some n ->
  (n <= length s)%nat /\ derives p (take n s) (drop n s).
Proof.
  revert s n. induction p as [|[c|c|c|] p IH]; intros s n; simpl.
  - intros [= <-]. split; [lia|]. rewrite take_0. constructor.
  - destruct s as [|x s]; [done|]. destruct (in_class c x) eqn:Hx; [|done].
    destruct (match_here p s) as [m|] eqn:Hm; [|done]. intros [= <-].
    destruct (IH s m Hm) as [Hle Hd]. split; [simpl; lia|]. by constructor.
  - apply match_star_sound, IH.
  - destruct s as [|x s]; [done|]. destruct (in_class c x) eqn:Hx; [|done].
    destruct (match_star c (match_here p) s) as [m|] eqn:Hm; [|done]. intros [= <-].
    destruct (match_star_sound c p _ s m IH Hm) as [Hle Hd]. split; [simpl; lia|].
    simpl. inversion Hd as [| |c' u p' w rest Hu Hw Ep Ew Er| |]; subst.
    by constructor.
  - destruct (at_end s) eqn:He; [|done]. intros Hm.
    destruct (IH s n Hm) as [Hle Hd]. split; [done|].
    constructor; [|done]. by rewrite take_drop.
Qed.

Lemma match_star_continue c k s n :
  k s = Some n -> is_Some (match_star c k s).
Proof.
  intros Hk. destruct s as [|x s]; simpl; [eauto|].
  destruct (in_class c x); [|eauto]. destruct (match_star c k s); eauto.
Qed.

Lemma match_here_complete p w rest :
  derives p w rest -> is_Some (match_here p (w ++ rest)).
Proof.
  induction 1 as [rest|c x p w rest Hx Hd IH|c u p w rest Hu Hd IH
                  |c x u p w rest Hx Hu Hd IH|p w rest He Hd IH]; simpl.
  - eauto.
  - rewrite Hx. destruct IH as [n ->]. simpl. eauto.
  - rewrite <- app_assoc. induction Hu as [|y u Hy Hu IHu]; simpl.
    + destruct IH as [n Hn]. by apply (match_star_continue c _ _ n).
    + rewrite Hy. destruct IHu as [m ->]. eauto.
  - rewrite Hx, <- app_assoc.
    assert (Hs : is_Some (match_star c (match_here p) (u ++ w ++ rest))).
    { induction Hu as [|y u Hy Hu IHu]; simpl.
      - destruct IH as [n Hn]. by apply (match_star_continue c _ _ n).
      - rewrite Hy. destruct IHu as [m ->]. eauto. }
    destruct Hs as [m ->]. simpl. eauto.
  - by rewrite He.
Qed.

Lemma derives_min_length p w rest :
  derives p w rest -> (min_length p <= length w)%nat.
Proof.
  induction 1; simpl; rewrite ?length_app; simpl; lia.
Qed.

Lemma derives_anchored p w rest :
  derives p w rest -> last p = Some End -> at_end rest = true.
Proof.
  induction 1 as [rest|c x p w rest Hx Hd IH|c u p w rest Hu Hd IH
                  |c x u p w rest Hx Hu Hd IH|p w rest He Hd IH]; intros Hl.
  - done.
  - destruct p; [done|]. by apply IH.
  - destruct p; [done|]. by apply IH.
  - destruct p; [done|]. by apply IH.
  - destruct p; [|by apply IH]. by inversion Hd; subst.
Qed.

Lemma at_end_cases s : at_end s = true -> s = [] \/ s = ["010"%char].
Proof.
  destruct s as [|x [|y s]]; simpl; [by left| |done].
  intros H. apply Ascii.eqb_eq in H. right. by subst.
Qed.

Lemma re_sub_from_drop p n s : re_sub_from p n s = re_sub p (drop n s).
Proof.
  revert n. induction s as [|x s IH]; intros [|n]; simpl; done.
Qed.

(** [re.sub] removes the leftmost match, provided that [p] matches no
    empty word and matches nothing in what a match leaves behind it. *)
Lemma re_sub_leftmost p :
  (forall w rest, derives p w rest -> w <> [] /\ re_sub p rest = rest) ->
  forall s, strips p s (re_sub p s).
Proof.
  intros Hp.
  assert (Hhead : forall s, match_here p s = None ->
            forall w rest, s = w ++ rest -> ~ derives p w rest).
  { intros s Hn w rest -> Hd. apply match_here_complete in Hd as [n Hd]. congruence. }
  induction s as [|x s IH].
  { right. split; [|done]. intros pre w rest E Hd.
    destruct (Hp w rest Hd) as [Hw _]. destruct pre, w; done. }
  unfold re_sub. cbn [re_sub_from].
  destruct (match_here p (x :: s)) as [[|n]|] eqn:Hm.
  - apply match_here_sound in Hm as [_ Hd]. rewrite take_0 in Hd.
    by destruct (Hp _ _ Hd) as [Hw _].
  - apply match_here_sound in Hm as [Hle Hd].
    destruct (Hp _ _ Hd) as [_ Hrest]. left.
    exists [], (take (S n) (x :: s)), (drop (S n) (x :: s)).
    split; [by rewrite take_drop|]. split; [done|]. split.
    + rewrite re_sub_from_drop. exact Hrest.
    + intros. simpl. lia.
  - fold (re_sub p s). destruct IH as [(pre & w & rest & E & Hd & Eb & Hleft) | [Hno Eb]].
    + left. exists (x :: pre), w, rest. split; [by rewrite E|]. split; [done|].
      split; [by rewrite Eb|]. intros pre' w' rest' E' Hd'.
      destruct pre' as [|y pre'].
      * by destruct (Hhead _ Hm w' rest' E' Hd').
      * injection E' as -> E'. simpl. apply le_n_S. by apply (Hleft pre' w' rest').
    + right. split; [|by rewrite Eb]. intros pre' w' rest' E' Hd'.
      destruct pre' as [|y pre'].
      * by destruct (Hhead _ Hm w' rest' E' Hd').
      * injection E' as -> E'. by apply (Hno pre' w' rest').
Qed.

(** Each stage of [normalize_filename] removes the leftmost match of its
    pattern, if there is one. *)
Lemma re_sub_patterns p s :
  p ∈ FastDuplicateScannerThread.patterns -> strips p s (re_sub p s).
Proof.
  intros Hin. apply re_sub_leftmost. intros w rest Hd.
  assert (Hmin : (1 <= min_length p)%nat /\ last p = Some End /\
                 re_sub p ["010"%char] = ["010"%char]).
  { unfold FastDuplicateScannerThread.patterns in Hin.
    repeat (apply elem_of_cons in Hin as [->|Hin];
            [split; [vm_compute; lia|split; vm_compute; reflexivity]|]).
    by apply elem_of_nil in Hin. }
  destruct Hmin as (Hmin & Hlast & Hnl). split.
  - apply derives_min_length in Hd. destruct w; [simpl in Hd; lia|done].
  - destruct (at_end_cases rest (derives_anchored p w rest Hd Hlast)) as [-> | ->]; done.
Qed.

Lemma foldl_re_sub_chain ps s :
  (forall p, p ∈ ps -> p ∈ FastDuplicateScannerThread.patterns) ->
  strip_chain ps s (foldl (fun name pattern => re_sub pattern name) s ps).
Proof.
  revert s. induction ps as [|p ps IH]; intros s Hps; simpl; [constructor|].
  apply (strip_chain_cons p ps s (re_sub p s)).
  - apply re_sub_patterns, Hps, list_elem_of_here.
  - apply IH. intros q Hq. by apply Hps, list_elem_of_further.
Qed.

(** [normalize_filename] is the cascade of the six removals on the part
    of the name before the extension, lower-cased with the extension
    where case is not kept. *)
Lemma normalize_filename_cascade case_sensitive filename :
  exists stripped,
    strip_chain FastDuplicateScannerThread.patterns
                (chars (splitext filename).1) stripped /\
    FastDuplicateScannerThread.normalize_filename case_sensitive filename
    = if case_sensitive then str stripped +:+ (splitext filename).2
      else lower (str stripped) +:+ lower (splitext filename).2.
Proof.
  unfold FastDuplicateScannerThread.normalize_filename.
  destruct (splitext filename) as [name ext]. cbn [fst snd].
  eexists. split; [by apply foldl_re_sub_chain|]. by destruct case_sensitive.
Qed.

(** ** Normalisation of file names *)

(** C2. With case kept, [normalize_filename] turns ["report_copy.txt"]
    into ["report_.txt"] and the docstring's own ["file_copy.txt"] into
    ["file_.txt"]: the third pattern, [\s*Copy$] under [re.IGNORECASE],
    matches the bare "copy" before [_copy$] is tried.  For the same
    reason ["photocopy.txt"], which ends in none of the listed suffixes,
    becomes ["photo.txt"].  The other names of the specification are
    normalised as it says. *)
Theorem normalize_filename_underscore_copy :
  FastDuplicateScannerThread.normalize_filename true "report_copy.txt" = "report_.txt" /\
  FastDuplicateScannerThread.normalize_filename true "file_copy.txt" = "file_.txt" /\
  FastDuplicateScannerThread.normalize_filename true "photocopy.txt" = "photo.txt" /\
  FastDuplicateScannerThread.normalize_filename true "report.txt" = "report.txt" /\
  FastDuplicateScannerThread.normalize_filename true "report (1).txt" = "report.txt" /\
  FastDuplicateScannerThread.normalize_filename true "report - Copy.txt" = "report.txt" /\
  FastDuplicateScannerThread.normalize_filename true "report2.txt" = "report2.txt".
Proof. repeat split; vm_compute; reflexivity. Qed.

(** ** Deletion *)

Section Deletion.
Import FileDeletionThread.

Lemma vars_attempt total i file (r : thread locals) :
  vars (attempt total (i, file) r) = try_delete (vars r) (DuplicateFile.path file).
Proof.
  unfold attempt, try_delete, deletable.
  destruct (files_on_disk (vars r) !! DuplicateFile.path file) as [[w rm]|]; [|done].
  by destruct w, rm.
Qed.

Lemma vars_loop total (items : list (nat * DuplicateFile.t)) (r : thread locals) :
  vars (for_break None (attempt total) items r)
  = foldl try_delete (vars r) (map (fun it => DuplicateFile.path it.2) items).
Proof.
  revert r. induction items as [|[i f] items IH]; intros r; [done|].
  cbn [for_break map]. rewrite should_stop_None, IH, vars_attempt. done.
Qed.

Lemma enumerate_paths_from {X} (g : X -> string) (xs : list X) (f : nat -> nat) :
  map (fun it : nat * X => g it.2) (imap (fun i x => (f i, x)) xs) = map g xs.
Proof.
  revert f. induction xs as [|x xs IH]; intros f; [done|].
  simpl. f_equal. apply (IH (f ∘ S)).
Qed.

Lemma enumerate_paths (files : list DuplicateFile.t) :
  map (fun it : nat * DuplicateFile.t => DuplicateFile.path it.2) (enumerate files)
  = map DuplicateFile.path files.
Proof. apply (enumerate_paths_from DuplicateFile.path files id). Qed.

Lemma deletable_delete_ne disk p q :
  p <> q -> deletable (delete p disk) q = deletable disk q.
Proof. intros Hne. unfold deletable. by rewrite lookup_delete_ne. Qed.

Lemma deletable_delete_eq disk p : deletable (delete p disk) p = false.
Proof. unfold deletable. by rewrite lookup_delete_eq. Qed.

Lemma deletable_Some disk p : deletable disk p = true -> is_Some (disk !! p).
Proof. unfold deletable. destruct (disk !! p); [eauto|done]. Qed.

(** What a batch does to the disk and to the two counters. *)
Lemma foldl_try_delete ps v :
  let v' := foldl try_delete v ps in
  (deleted_count v' + failed_count v'
     = deleted_count v + failed_count v + length ps)%nat /\
  (deleted_count v' + size (files_on_disk v')
     = deleted_count v + size (files_on_disk v))%nat /\
  (forall p m, files_on_disk v' !! p = Some m -> files_on_disk v !! p = Some m) /\
  (forall p, is_Some (files_on_disk v !! p) /\ files_on_disk v' !! p = None
             <-> p ∈ ps /\ deletable (files_on_disk v) p = true).
Proof.
  revert v. induction ps as [|q ps IH]; intros v; simpl.
  { split; [lia|]. split; [lia|]. split; [done|].
    intros p. split.
    - intros [[m Hm] Hn]. congruence.
    - intros [H _]. by apply elem_of_nil in H. }
  destruct (IH (try_delete v q)) as (Hsum & Hsize & Hsub & Hiff). clear IH.
  unfold try_delete in *.
  destruct (deletable (files_on_disk v) q) eqn:Hq; simpl in *.
  - destruct (deletable_Some _ _ Hq) as [mq Hmq].
    split; [lia|]. split; [|split].
    + rewrite Hsize. rewrite map_size_delete, Hmq.
      assert (size (files_on_disk v) <> 0)%nat.
      { intros H0. apply map_size_empty_inv in H0. rewrite H0 in Hmq. done. }
      lia.
    + intros p m Hp. apply Hsub in Hp.
      apply lookup_delete_Some in Hp. tauto.
    + intros p. split.
      * intros [Hs Hn]. destruct (decide (p = q)) as [->|Hne].
        { split; [apply list_elem_of_here|done]. }
        destruct (proj1 (Hiff p)) as [Hin Hd].
        { split; [by rewrite lookup_delete_ne|done]. }
        split; [by apply list_elem_of_further|].
        by rewrite deletable_delete_ne in Hd.
      * intros [Hin Hd]. split; [by apply deletable_Some|].
        destruct (decide (p = q)) as [->|Hne].
        { match goal with |- ?m !! q = None => destruct (m !! q) as [x|] eqn:E end;
            [|done].
          apply Hsub in E. by rewrite lookup_delete_eq in E. }
        apply (Hiff p). split.
        -- apply elem_of_cons in Hin as [->|Hin]; done.
        -- by rewrite deletable_delete_ne.
  - split; [lia|]. split; [lia|]. split; [done|].
    intros p. split.
    + intros [Hs Hn]. destruct (proj1 (Hiff p) (conj Hs Hn)) as [Hin Hd].
      split; [by apply list_elem_of_further|done].
    + intros [Hin Hd]. apply (Hiff p). split; [|done].
      apply elem_of_cons in Hin as [->|Hin]; [congruence|done].
Qed.
End Deletion.

(** C7. A batch that runs to completion ends with
    [deletion_complete(deleted_count, failed_count)]; every file of the
    batch is counted once, as deleted or as failed; the number counted as
    deleted is the number of files that left the disk; no other file is
    touched; and a path leaves the disk exactly when it is in the batch,
    exists, is writable and its removal succeeds.  A batch of one missing
    path and one deletable path reports (1, 1), in either order. *)
Theorem deletion_batch_report :
  forall (files : list DuplicateFile.t) (disk : gmap string file_mode),
    let r := FileDeletionThread.run None files disk in
    let v := vars r in
    last (log r)
      = Some (Emit (deletion_complete (FileDeletionThread.deleted_count v)
                                      (FileDeletionThread.failed_count v))) /\
    (FileDeletionThread.deleted_count v + FileDeletionThread.failed_count v
       = length files)%nat /\
    (FileDeletionThread.deleted_count v + size (FileDeletionThread.files_on_disk v)
       = size disk)%nat /\
    (forall p m, FileDeletionThread.files_on_disk v !! p = Some m -> disk !! p = Some m) /\
    (forall p, is_Some (disk !! p) /\ FileDeletionThread.files_on_disk v !! p = None
               <-> p ∈ map DuplicateFile.path files /\ deletable disk p = true) /\
    (forall gone ok,
        disk !! DuplicateFile.path gone = None ->
        deletable disk (DuplicateFile.path ok) = true ->
        files = [gone; ok] \/ files = [ok; gone] ->
        FileDeletionThread.deleted_count v = 1%nat /\
        FileDeletionThread.failed_count v = 1%nat).
Proof.
  intros files disk r v.
  assert (Hv : v = foldl try_delete (FileDeletionThread.Locals disk 0 0)
                     (map DuplicateFile.path files)).
  { subst v r. unfold FileDeletionThread.run.
    rewrite should_stop_None. cbn [emit act vars].
    by rewrite vars_loop, enumerate_paths. }
  split.
  { subst v r. unfold FileDeletionThread.run.
    rewrite should_stop_None. cbn [emit act log vars]. apply last_snoc. }
  destruct (foldl_try_delete (map DuplicateFile.path files)
              (FileDeletionThread.Locals disk 0 0)) as (Hsum & Hsize & Hsub & Hiff).
  rewrite <- Hv in Hsum, Hsize, Hsub, Hiff. simpl in Hsum, Hsize, Hsub, Hiff.
  rewrite length_map in Hsum.
  split; [done|]. split; [done|]. split; [done|]. split; [done|].
  intros gone ok Hgone Hok Hfiles. rewrite Hv.
  assert (Hg : deletable disk (DuplicateFile.path gone) = false)
    by (unfold deletable; by rewrite Hgone).
  assert (Hne : DuplicateFile.path ok <> DuplicateFile.path gone)
    by (intros E; rewrite E in Hok; congruence).
  destruct Hfiles as [-> | ->]; simpl; unfold try_delete; simpl.
  - rewrite Hg. simpl. rewrite Hok. done.
  - rewrite Hok. simpl. rewrite deletable_delete_ne, Hg by done. done.
Qed.

Lemma deletion_batch_report_witness :
  let gone := DuplicateFile.mk "old.txt" "/tmp/old.txt" 10 0%Q None in
  let ok := DuplicateFile.mk "copy.txt" "/tmp/copy.txt" 10 0%Q None in
  let disk : gmap string file_mode := {[ "/tmp/copy.txt" := FileMode true true ]} in
  let v := vars (FileDeletionThread.run None [gone; ok] disk) in
  FileDeletionThread.deleted_count v = 1%nat /\
  FileDeletionThread.failed_count v = 1%nat.
Proof.
  intros gone ok disk v.
  destruct (deletion_batch_report [gone; ok] disk) as (_ & _ & _ & _ & _ & H).
  apply (H gone ok); [reflexivity | reflexivity | left; reflexivity].
Defined.

(** C8. A file that no longer exists, or that is not writable, is counted
    as failed and the loop goes on to the next file before
    [progress.emit(i + 1, total)]: a batch of one such file emits no
    progress signal at all, where one carrying (1, 1) is specified; a
    file whose removal raises does get its signal. *)
Theorem deletion_progress_skipped_on_precheck_failure :
  let f := DuplicateFile.mk "a.txt" "/tmp/a.txt" 10 0%Q None in
  log (FileDeletionThread.run None [f] ∅)
    = [ReadStop false; ReadStop false; Emit (deletion_complete 0 1)] /\
  log (FileDeletionThread.run None [f] {[ "/tmp/a.txt" := FileMode false true ]})
    = [ReadStop false; ReadStop false; Emit (deletion_complete 0 1)] /\
  log (FileDeletionThread.run None [f] {[ "/tmp/a.txt" := FileMode true false ]})
    = [ReadStop false; OsRemove "/tmp/a.txt"; Emit (deletion_progress 1 1);
       ReadStop false; Emit (deletion_complete 0 1)].
Proof. repeat split. Qed.

(** ** Cooperative cancellation *)

Lemma snoc_eq_app_cons {A} (l l1 l2 : list A) (a b : A) :
  l ++ [a] = l1 ++ b :: l2 ->
  (l2 = [] /\ l = l1 /\ a = b) \/
  (exists l2', l2 = l2' ++ [a] /\ l = l1 ++ b :: l2').
Proof.
  destruct l2 as [|c l2 _] using rev_ind; intros H.
  - left. apply app_inj_tail in H as [-> ->]. done.
  - right. exists l2.
    rewrite app_comm_cons, app_assoc in H.
    apply app_inj_tail in H as [-> ->]. done.
Qed.

Lemma length_filter_snoc {A} (P : A -> bool) (l : list A) (x : A) :
  length (filter P (l ++ [x]))
  = (length (filter P l) + if P x then 1 else 0)%nat.
Proof.
  rewrite filter_app, length_app. f_equal.
  destruct (P x) eqn:E.
  - rewrite filter_cons_True, filter_nil; [done|]. by rewrite E.
  - rewrite filter_cons_False, filter_nil; [done|]. rewrite E. by intros [].
Qed.

Lemma app_two {A} (l : list A) (a b : A) : l ++ [a; b] = (l ++ [a]) ++ [b].
Proof. by rewrite <- app_assoc. Qed.

Lemma flag_mono stop_at n : flag stop_at n = true -> flag stop_at (S n) = true.
Proof.
  unfold flag. destruct stop_at as [k|]; [|done].
  rewrite !Nat.leb_le. lia.
Qed.

Section Cooperative.
Context {L : Type} (stop_at : option nat).
Local Abbreviation coop := (coop stop_at).

Lemma coop_start (v : L) : coop (start v).
Proof.
  split; [|split].
  - intros l1 a l2 H. by destruct l1.
  - intros l1 l2 H. by destruct l1.
  - intros H. by apply elem_of_nil in H.
Qed.

Lemma stopped_snoc l a : stopped (l ++ [a]) <-> stopped l \/ a = ReadStop true.
Proof.
  unfold stopped. rewrite elem_of_app, list_elem_of_singleton.
  split; (intros [H|H]; [by left|by right]).
Qed.

Lemma visits_guarded_snoc l a :
  visits_guarded l -> (is_visit a = true -> guarded_at l a) ->
  visits_guarded (l ++ [a]).
Proof.
  intros Hl Ha l1 b l2 Heq Hb.
  apply snoc_eq_app_cons in Heq as [(-> & -> & ->) | (l2' & -> & ->)].
  - by apply Ha.
  - by apply (Hl l1 b l2').
Qed.

Lemma quiet_snoc l a :
  quiet_after_stop l ->
  (stopped l -> is_visit a = false /\ is_completion a = false) ->
  quiet_after_stop (l ++ [a]).
Proof.
  intros Hl Ha l1 l2 Heq.
  apply snoc_eq_app_cons in Heq as [(-> & -> & E) | (l2' & -> & ->)].
  - constructor.
  - apply Forall_app. split; [by apply (Hl l1 l2')|].
    constructor; [|constructor]. apply Ha.
    unfold stopped. rewrite elem_of_app. right. apply list_elem_of_here.
Qed.

(** An action that is neither a visit, a completion nor a read. *)
Lemma coop_act (a : action) (r : thread L) :
  coop r -> is_visit a = false -> is_completion a = false ->
  (forall b, a <> ReadStop b) ->
  coop (act a r).
Proof.
  intros (Hg & Hq & Hs) Hv Hc Hr. split; [|split]; simpl.
  - apply visits_guarded_snoc; [done|congruence].
  - apply quiet_snoc; done.
  - intros H. apply stopped_snoc in H as [H|H]; [by apply Hs|by apply Hr in H].
Qed.

(** Any action but a visit or a read, while the flag has not been seen set. *)
Lemma coop_act_running (a : action) (r : thread L) :
  coop r -> ~ stopped (log r) -> is_visit a = false ->
  (forall b, a <> ReadStop b) ->
  coop (act a r) /\ ~ stopped (log (act a r)).
Proof.
  intros (Hg & Hq & Hs) Hn Hv Hr.
  assert (Hn' : ~ stopped (log (act a r))).
  { simpl. rewrite stopped_snoc. intros [H|H]; [done|by apply Hr in H]. }
  split; [|done]. split; [|split]; simpl.
  - apply visits_guarded_snoc; [done|congruence].
  - apply quiet_snoc; done.
  - done.
Qed.

(** A visit right after a read that saw the flag clear. *)
Lemma coop_visit (a : action) (r : thread L) :
  coop r -> fresh r -> is_visit a = true ->
  coop (act a r) /\ ~ stopped (log (act a r)).
Proof.
  intros (Hg & Hq & Hs) [[l0 Hl0] Hn] Hv.
  assert (Hn' : ~ stopped (log (act a r))).
  { simpl. rewrite stopped_snoc. intros [H|H]; [done|]. by subst a. }
  split; [|done]. split; [|split]; simpl.
  - apply visits_guarded_snoc; [done|]. intros _. left. eauto.
  - apply quiet_snoc; done.
  - done.
Qed.

(** The stat that follows the hash of the same file. *)
Lemma coop_hash_stat (p : string) (r : thread L) :
  coop r -> fresh r ->
  coop (act (OsStat p) (act (HashFile p) r)) /\
  ~ stopped (log (act (OsStat p) (act (HashFile p) r))).
Proof.
  intros Hc Hf. destruct (coop_visit (HashFile p) r Hc Hf eq_refl) as [Hc1 Hn1].
  destruct Hc1 as (Hg & Hq & Hs). destruct Hf as [[l0 Hl0] Hn].
  assert (Hn' : ~ stopped (log (act (OsStat p) (act (HashFile p) r)))).
  { simpl. rewrite stopped_snoc. intros [H|H]; [done|done]. }
  split; [|done]. split; [|split].
  - apply visits_guarded_snoc; [done|]. intros _. right. exists l0, p.
    split; [|done]. simpl. rewrite Hl0. by rewrite <- app_assoc.
  - apply quiet_snoc; done.
  - done.
Qed.

Lemma coop_should_stop (r : thread L) :
  coop r ->
  coop (should_stop stop_at r).2 /\
  ((should_stop stop_at r).1 = false -> fresh (should_stop stop_at r).2).
Proof.
  intros (Hg & Hq & Hs). unfold should_stop. simpl. split.
  - split; [|split]; simpl.
    + apply visits_guarded_snoc; [done|]. done.
    + apply quiet_snoc; done.
    + intros H. apply stopped_snoc in H as [H|H].
      * by apply flag_mono, Hs.
      * apply flag_mono. congruence.
  - intros Hb. split; simpl.
    + exists (log r). by rewrite Hb.
    + rewrite stopped_snoc. intros [H|H].
      * apply Hs in H. congruence.
      * congruence.
Qed.

Lemma coop_for_break {X} (body : X -> thread L -> thread L) xs r :
  (forall x r, coop r -> fresh r -> coop (body x r)) ->
  coop r -> coop (for_break stop_at body xs r).
Proof.
  intros Hbody. revert r. induction xs as [|x xs IH]; intros r Hr; [done|].
  cbn [for_break]. destruct (coop_should_stop r Hr) as [H1 H2].
  destruct (should_stop stop_at r) as [b r1]. simpl in *.
  destruct b; [done|]. apply IH, Hbody; auto.
Qed.

Lemma coop_for_return {X} (body : X -> thread L -> flow L) xs r :
  (forall x r, coop r -> fresh r -> coop (thread_of (body x r))) ->
  coop r -> coop (thread_of (for_return stop_at body xs r)).
Proof.
  intros Hbody. revert r. induction xs as [|x xs IH]; intros r Hr; [done|].
  cbn [for_return]. destruct (coop_should_stop r Hr) as [H1 H2].
  destruct (should_stop stop_at r) as [b r1]. simpl in *.
  destruct b; [done|].
  specialize (Hbody x r1 H1 (H2 eq_refl)).
  destruct (body x r1) as [r2|r2]; simpl in *; [by apply IH|done].
Qed.

Lemma coop_scandir (root : string) (r : thread L) :
  coop r -> coop (act (Scandir root) r).
Proof. intros H. by apply coop_act. Qed.

Lemma coop_walk_break body items (r : thread L) :
  (forall x (r : thread L), coop r -> fresh r -> coop (body x r)) ->
  coop r -> coop (walk_break stop_at body items r).
Proof.
  intros Hbody. revert r. induction items as [|x xs IH]; intros r Hr; [done|].
  cbn [walk_break].
  destruct (coop_should_stop _ (coop_scandir x.1.1 r Hr)) as [H1 H2].
  destruct (should_stop stop_at (act (Scandir x.1.1) r)) as [b r1]. simpl in *.
  destruct b; [done|]. apply IH, Hbody; auto.
Qed.

Lemma coop_walk_return body items (r : thread L) :
  (forall x (r : thread L), coop r -> fresh r -> coop (thread_of (body x r))) ->
  coop r -> coop (thread_of (walk_return stop_at body items r)).
Proof.
  intros Hbody. revert r. induction items as [|x xs IH]; intros r Hr; [done|].
  cbn [walk_return].
  destruct (coop_should_stop _ (coop_scandir x.1.1 r Hr)) as [H1 H2].
  destruct (should_stop stop_at (act (Scandir x.1.1) r)) as [b r1]. simpl in *.
  destruct b; [done|].
  specialize (Hbody x r1 H1 (H2 eq_refl)).
  destruct (body x r1) as [r2|r2]; simpl in *; [by apply IH|done].
Qed.

(** The last read and the announcement of completion. *)
Lemma coop_complete (s : signal) (r : thread L) :
  coop r ->
  let '(b, r1) := should_stop stop_at r in
  coop (if b then r1 else emit s r1).
Proof.
  intros Hr. destruct (coop_should_stop r Hr) as [H1 H2].
  destruct (should_stop stop_at r) as [b r1]. simpl in *.
  destruct b; [done|].
  destruct (H2 eq_refl) as [_ Hn].
  apply coop_act_running; done.
Qed.
End Cooperative.

Lemma coop_set_vars {L L'} stop_at (v : L') (r : thread L) :
  coop stop_at r -> coop stop_at (set_vars v r).
Proof. done. Qed.

Section Scans.
Context (stop_at : option nat) (e : env).

Ltac harmless := apply coop_act; [ | done | done | done ].

Lemma coop_index_file root filename r :
  coop stop_at r -> fresh r ->
  coop stop_at (SystemIndexerThread.index_file e root filename r).
Proof.
  intros Hc Hf. unfold SystemIndexerThread.index_file.
  destruct (coop_visit stop_at (OsStat (os_path_join root filename)) r Hc Hf eq_refl)
    as [Hc1 _].
  destruct (os_stat e (os_path_join root filename)) as [st|]; [|done].
  case_match; [|done].
  unfold SystemIndexerThread.save. cbn [emit]. harmless.
  apply coop_set_vars. by harmless.
Qed.

Lemma coop_index_drive drive r :
  coop stop_at r -> coop stop_at (SystemIndexerThread.index_drive stop_at e drive r).
Proof.
  intros Hc. unfold SystemIndexerThread.index_drive.
  apply coop_walk_break; [|by harmless].
  intros [[root dirs] files] r1 Hc1 _. unfold SystemIndexerThread.index_directory.
  apply coop_for_break; [|done]. intros. by apply coop_index_file.
Qed.

Lemma coop_full_index drives index db (r : thread unit) :
  coop stop_at r ->
  coop stop_at (SystemIndexerThread.full_index stop_at e drives index db r).
Proof.
  intros Hc. unfold SystemIndexerThread.full_index.
  set (r1 := for_break _ _ _ _).
  assert (Hc1 : coop stop_at r1).
  { apply coop_for_break; [|done]. intros. by apply coop_index_drive. }
  set (saved := match SystemIndexerThread.batch (vars r1) with
                | [] => _ | _ :: _ => _ end).
  assert (Hc2 : coop stop_at saved.2).
  { subst saved. destruct (SystemIndexerThread.batch (vars r1)); [done|].
    unfold SystemIndexerThread.save. simpl. by harmless. }
  destruct saved as [db' r2]. simpl in Hc2.
  pose proof (coop_complete stop_at
    (indexing_complete (SystemIndexerThread.total_files (vars r1))) r2 Hc2) as Hc3.
  destruct (should_stop stop_at r2) as [b r3]. by apply coop_set_vars.
Qed.

Lemma coop_run force_full_index database drives :
  coop stop_at (SystemIndexerThread.run stop_at e force_full_index database drives).
Proof.
  unfold SystemIndexerThread.run, SystemIndexerThread.close.
  pose proof (coop_start stop_at tt) as H0.
  destruct force_full_index; cbn [negb].
  - apply coop_set_vars, coop_full_index. by harmless.
  - case_match.
    + do 2 apply coop_set_vars. do 3 harmless. by harmless.
    + apply coop_set_vars, coop_full_index. harmless. by harmless.
Qed.

Lemma coop_fast_scan case_sensitive use_size_filter root_folder :
  coop stop_at
    (FastDuplicateScannerThread.run stop_at case_sensitive use_size_filter e root_folder).
Proof.
  unfold FastDuplicateScannerThread.run.
  set (r0 := emit _ _).
  assert (H0 : coop stop_at r0) by (subst r0; harmless; apply coop_start).
  set (f := walk_return _ _ _ _).
  assert (Hf : coop stop_at (thread_of f)).
  { apply coop_walk_return; [|done].
    intros [[root dirs] files] r1 Hc1 _.
    unfold FastDuplicateScannerThread.scan_directory.
    apply coop_for_return; [|done].
    intros filename r2 Hc2 Hf2. unfold FastDuplicateScannerThread.scan_file.
    destruct (coop_visit stop_at (OsStat (os_path_join root filename)) r2 Hc2 Hf2 eq_refl)
      as [Hc3 _].
    destruct (os_stat e (os_path_join root filename)) as [st|]; [|done].
    cbn [thread_of]. case_match; [harmless|]; by apply coop_set_vars. }
  destruct f as [r1|r1]; simpl in Hf; [|done].
  destruct (coop_should_stop stop_at r1 Hf) as [H1 H2].
  destruct (should_stop stop_at r1) as [b r2]. simpl in *.
  destruct b; [done|]. destruct (H2 eq_refl) as [_ Hn].
  destruct (coop_act_running stop_at
              (Emit (files_scanned (FastDuplicateScannerThread.total_scanned (vars r2))))
              r2 H1 Hn eq_refl ltac:(done)) as [H3 Hn3].
  by apply coop_act_running.
Qed.

Lemma coop_deep_scan root_folder :
  coop stop_at (DeepDuplicateScannerThread.run stop_at e root_folder).
Proof.
  unfold DeepDuplicateScannerThread.run.
  set (r0 := emit _ _).
  assert (H0 : coop stop_at r0) by (subst r0; harmless; apply coop_start).
  set (f := walk_return _ _ _ r0).
  assert (Hf : coop stop_at (thread_of f)).
  { apply coop_walk_return; [|done].
    intros [[root dirs] files] r1 Hc1 _.
    unfold DeepDuplicateScannerThread.size_directory.
    apply coop_for_return; [|done].
    intros filename r2 Hc2 Hf2. unfold DeepDuplicateScannerThread.size_file.
    destruct (coop_visit stop_at (OsStat (os_path_join root filename)) r2 Hc2 Hf2 eq_refl)
      as [Hc3 _].
    destruct (os_stat e (os_path_join root filename)) as [st|]; [|done].
    cbn [thread_of]. case_match; [harmless|]; by apply coop_set_vars. }
  destruct f as [r1|r1]; simpl in Hf; [|done].
  set (to_hash := DeepDuplicateScannerThread.files_to_hash _).
  set (g := for_return _ _ _ _).
  assert (Hg : coop stop_at (thread_of g)).
  { apply coop_for_return; [|by harmless].
    intros filepath r2 Hc2 Hf2. unfold DeepDuplicateScannerThread.hash_one.
    destruct (coop_visit stop_at (HashFile filepath) r2 Hc2 Hf2 eq_refl) as [Hc3 _].
    destruct (hash_file e filepath) as [h|]; [|done].
    destruct (coop_hash_stat stop_at filepath r2 Hc2 Hf2) as [Hc4 _].
    destruct (os_stat e filepath) as [st|]; [|done].
    cbn [thread_of]. case_match; [harmless|]; by apply coop_set_vars. }
  destruct g as [r2|r2]; simpl in Hg; [|done].
  pose proof (coop_complete stop_at
    (scan_complete (filter (fun kv => (1 <? length kv.2)%nat)
                      (DeepDuplicateScannerThread.hash_map (vars r2)))) r2 Hg) as Hc.
  by destruct (should_stop stop_at r2) as [b r3].
Qed.
End Scans.

(** *** The walk of the directories *)

Lemma listings_checked_snoc l a :
  is_listing a = false -> listings_checked l -> listings_checked (l ++ [a]).
Proof.
  intros Ha Hl l1 root l2 E.
  apply snoc_eq_app_cons in E as [(_ & _ & ->)|(l2' & -> & E)]; [done|].
  destruct (Hl _ _ _ E) as (b & l3 & ->). by exists b, (l3 ++ [a]).
Qed.

Lemma listings_checked_listing l root b :
  listings_checked l -> listings_checked (l ++ [Scandir root; ReadStop b]).
Proof.
  intros Hl l1 root' l2 E. rewrite app_two in E.
  apply snoc_eq_app_cons in E as [(_ & _ & [=])|(l2' & -> & E)].
  apply snoc_eq_app_cons in E as [(-> & _ & _)|(l2'' & -> & E)].
  - by exists b, [].
  - destruct (Hl _ _ _ E) as (b' & l3 & ->).
    by exists b', ((l3 ++ [Scandir root]) ++ [ReadStop b]).
Qed.

Lemma listings_after_stop_snoc n l a :
  is_listing a = false -> listings_after_stop n l -> listings_after_stop n (l ++ [a]).
Proof.
  intros Ha Hl l1 l2 E.
  apply snoc_eq_app_cons in E as [(-> & _ & _)|(l2' & -> & E)]; [simpl; lia|].
  rewrite length_filter_snoc, Ha. specialize (Hl _ _ E). lia.
Qed.

Lemma listings_after_stop_running n l : ~ stopped l -> listings_after_stop n l.
Proof.
  intros Hn l1 l2 E. destruct Hn. unfold stopped. rewrite E.
  apply elem_of_app. right. apply list_elem_of_here.
Qed.

Lemma listings_after_stop_listing l root b :
  listings_after_stop 0 l ->
  listings_after_stop 1 (l ++ [Scandir root; ReadStop b]).
Proof.
  intros Hl l1 l2 E. rewrite app_two in E.
  apply snoc_eq_app_cons in E as [(-> & _ & _)|(l2' & -> & E)]; [simpl; lia|].
  apply snoc_eq_app_cons in E as [(_ & _ & [=])|(l2'' & -> & E)].
  rewrite !length_filter_snoc. cbn. specialize (Hl _ _ E). lia.
Qed.

Lemma ends_at_stop_running l : ~ stopped l -> ends_at_stop l.
Proof.
  intros Hn l1 l2 E. destruct Hn. unfold stopped. rewrite E.
  apply elem_of_app. right. apply list_elem_of_here.
Qed.

Lemma ends_at_stop_read l : ~ stopped l -> ends_at_stop (l ++ [ReadStop true]).
Proof.
  intros Hn l1 l2 E.
  apply snoc_eq_app_cons in E as [(-> & _ & _)|(l2' & -> & E)]; [done|].
  destruct Hn. unfold stopped. rewrite E.
  apply elem_of_app. right. apply list_elem_of_here.
Qed.

Lemma running_snoc l a : a <> ReadStop true -> ~ stopped l -> ~ stopped (l ++ [a]).
Proof.
  intros Ha Hn Hs. apply elem_of_app in Hs as [Hs|Hs]; [done|].
  by apply list_elem_of_singleton in Hs.
Qed.

Section Winding.
Context {L : Type} (stop_at : option nat).

Lemma winding_mono n m (r : thread L) :
  (n <= m)%nat -> winding stop_at n r -> winding stop_at m r.
Proof.
  intros Hle (H1 & H2 & H3). split; [done|]. split; [done|].
  intros l1 l2 E. specialize (H3 _ _ E). lia.
Qed.

Lemma winding_act n a (r : thread L) :
  is_listing a = false -> a <> ReadStop true ->
  winding stop_at n r -> winding stop_at n (act a r).
Proof.
  intros Ha Hr (H1 & H2 & H3). unfold act. cbn [log reads]. split; [|split].
  - intros Hs. apply H1. apply elem_of_app in Hs as [Hs|Hs]; [done|].
    by apply list_elem_of_singleton in Hs.
  - by apply listings_checked_snoc.
  - by apply listings_after_stop_snoc.
Qed.

Lemma winding_should_stop n (r : thread L) :
  winding stop_at n r -> winding stop_at n (should_stop stop_at r).2.
Proof.
  intros (H1 & H2 & H3). unfold should_stop. cbn [snd log reads]. split; [|split].
  - intros Hs. apply flag_mono. apply elem_of_app in Hs as [Hs|Hs]; [by apply H1|].
    apply list_elem_of_singleton in Hs. by injection Hs as <-.
  - by apply listings_checked_snoc.
  - by apply listings_after_stop_snoc.
Qed.

Lemma winding_running n (r : thread L) :
  listings_checked (log r) -> ~ stopped (log r) -> winding stop_at n r.
Proof.
  intros Hl Hn. split; [done|]. split; [done|]. by apply listings_after_stop_running.
Qed.

(** The head of the loop over the directories: the listing and the read
    that follows it. *)
Lemma winding_listing root (r : thread L) :
  winding stop_at 0 r ->
  winding stop_at 1 (should_stop stop_at (act (Scandir root) r)).2.
Proof.
  intros (H1 & H2 & H3). unfold should_stop, act. cbn [snd log reads].
  rewrite <- app_assoc. cbn [app]. split; [|split].
  - intros Hs. apply flag_mono. apply elem_of_app in Hs as [Hs|Hs]; [by apply H1|].
    apply elem_of_cons in Hs as [Hs|Hs]; [done|].
    apply list_elem_of_singleton in Hs. by injection Hs as <-.
  - by apply listings_checked_listing.
  - by apply listings_after_stop_listing.
Qed.

Lemma winding_listing_running root (r : thread L) :
  listings_checked (log r) -> ~ stopped (log r) ->
  winding stop_at 0 (should_stop stop_at (act (Scandir root) r)).2.
Proof.
  intros H2 Hn. unfold should_stop, act. cbn [snd log reads].
  rewrite <- app_assoc. cbn [app]. split; [|split].
  - intros Hs. apply flag_mono. apply elem_of_app in Hs as [Hs|Hs]; [done|].
    apply elem_of_cons in Hs as [Hs|Hs]; [done|].
    apply list_elem_of_singleton in Hs. by injection Hs as <-.
  - by apply listings_checked_listing.
  - intros l1 l2 E. rewrite app_two in E.
    apply snoc_eq_app_cons in E as [(-> & _ & _)|(l2' & -> & E)]; [simpl; lia|].
    apply snoc_eq_app_cons in E as [(_ & _ & [=])|(l2'' & -> & E)].
    destruct Hn. unfold stopped. rewrite E.
    apply elem_of_app. right. apply list_elem_of_here.
Qed.

(** A loop over files that does not list anything keeps what it finds. *)
Lemma winding_for_break {X} n (body : X -> thread L -> thread L) xs r :
  (forall x r, winding stop_at n r -> winding stop_at n (body x r)) ->
  winding stop_at n r -> winding stop_at n (for_break stop_at body xs r).
Proof.
  intros Hbody. revert r. induction xs as [|x xs IH]; intros r Hr; [done|].
  cbn [for_break]. pose proof (winding_should_stop n r Hr) as H1.
  destruct (should_stop stop_at r) as [b r1]. cbn [snd] in H1.
  destruct b; [done|]. by apply IH, Hbody.
Qed.

(** The loop over the directories of a drive: once the flag is seen set
    it lists at most the directory that [os.walk] has to list to yield
    the next triple, and ends at the read that follows. *)
Lemma winding_walk_break body items (r : thread L) :
  (forall item r, winding stop_at 0 r -> winding stop_at 0 (body item r)) ->
  winding stop_at 0 r -> winding stop_at 1 (walk_break stop_at body items r).
Proof.
  intros Hbody. revert r. induction items as [|item items IH]; intros r Hr.
  { by apply (winding_mono 0 1); [lia|]. }
  cbn [walk_break]. pose proof (winding_listing item.1.1 r Hr) as H1.
  assert (H0 : flag stop_at (reads r) = false ->
               winding stop_at 0 (should_stop stop_at (act (Scandir item.1.1) r)).2).
  { intros Hf. apply winding_listing_running; [apply Hr|].
    intros Hs. destruct Hr as (Hr & _). rewrite (Hr Hs) in Hf. done. }
  unfold should_stop, act in *. cbn [fst snd reads log vars] in *.
  destruct (flag stop_at (reads r)); [done|]. by apply IH, Hbody, H0.
Qed.

(** The loop over the drives: a drive is walked only after a read that
    saw the flag clear. *)
Lemma winding_drives {X} (body : X -> thread L -> thread L) xs r :
  (forall x r, winding stop_at 0 r -> winding stop_at 1 (body x r)) ->
  winding stop_at 1 r -> winding stop_at 1 (for_break stop_at body xs r).
Proof.
  intros Hbody. revert r. induction xs as [|x xs IH]; intros r Hr; [done|].
  cbn [for_break]. pose proof (winding_should_stop 1 r Hr) as H1.
  unfold should_stop in *. cbn [snd] in H1.
  destruct (flag stop_at (reads r)) eqn:Hf; [done|].
  apply IH, Hbody. destruct H1 as (_ & H2 & _).
  apply winding_running; [done|]. cbn [log].
  apply running_snoc; [done|]. intros Hs. destruct Hr as (Hr & _).
  rewrite (Hr Hs) in Hf. done.
Qed.

Lemma ending_act a (r : thread L) :
  is_listing a = false -> a <> ReadStop true ->
  ending (Continue r) -> ending (Continue (act a r)).
Proof.
  intros Ha Hr [H1 H2]. split; cbn [thread_of act log] in *.
  - by apply listings_checked_snoc.
  - by apply running_snoc.
Qed.

Lemma ending_for_return {X} (body : X -> thread L -> flow L) xs r :
  (forall x r, ending (Continue r) -> ending (body x r)) ->
  ending (Continue r) -> ending (for_return stop_at body xs r).
Proof.
  intros Hbody. revert r. induction xs as [|x xs IH]; intros r Hr; [done|].
  cbn [for_return should_stop]. destruct Hr as [H1 H2]. cbn [thread_of] in H1.
  destruct (flag stop_at (reads r)).
  - split; cbn [thread_of log].
    + by apply listings_checked_snoc.
    + by apply ends_at_stop_read.
  - set (r1 := Run _ _ _).
    assert (Hr1 : ending (Continue r1)).
    { split; cbn [thread_of log]; [by apply listings_checked_snoc|].
      by apply running_snoc. }
    specialize (Hbody x r1 Hr1). destruct (body x r1) as [r2|r2]; [by apply IH|done].
Qed.

Lemma ending_walk_return body items (r : thread L) :
  (forall item r, ending (Continue r) -> ending (body item r)) ->
  ending (Continue r) -> ending (walk_return stop_at body items r).
Proof.
  intros Hbody. revert r. induction items as [|item items IH]; intros r Hr; [done|].
  cbn [walk_return should_stop act reads log vars]. destruct Hr as [H1 H2].
  cbn [thread_of] in H1. rewrite <- app_assoc. cbn [app].
  destruct (flag stop_at (reads r)).
  - split; cbn [thread_of log].
    + by apply listings_checked_listing.
    + rewrite app_two. apply ends_at_stop_read. by apply running_snoc.
  - set (r1 := Run _ _ _).
    assert (Hr1 : ending (Continue r1)).
    { subst r1. split; cbn [thread_of log]; [by apply listings_checked_listing|].
      rewrite app_two. by do 2 (apply running_snoc; [done|]). }
    specialize (Hbody item r1 Hr1).
    destruct (body item r1) as [r2|r2]; [by apply IH|done].
Qed.

(** The last read of a scan, before its completion signal. *)
Lemma ending_last (r : thread L) :
  ending (Continue r) ->
  let r1 := (should_stop stop_at r).2 in
  listings_checked (log r1) /\
  if (should_stop stop_at r).1 then ends_at_stop (log r1) else ~ stopped (log r1).
Proof.
  intros [H1 H2]. unfold should_stop. cbn [fst snd log thread_of] in *.
  split; [by apply listings_checked_snoc|].
  destruct (flag stop_at (reads r)); [by apply ends_at_stop_read|].
  by apply running_snoc.
Qed.
End Winding.

Lemma winding_set_vars {L L'} stop_at n (v : L') (r : thread L) :
  winding stop_at n r -> winding stop_at n (set_vars v r).
Proof. done. Qed.

Lemma ending_set_vars {L L'} (v : L') (r : thread L) :
  ending (Continue r) -> ending (Continue (set_vars v r)).
Proof. done. Qed.

Section WalkOfScans.
Context (stop_at : option nat) (e : env).

Ltac quiet := apply winding_act; [done|done|].

Lemma winding_index_file n root filename r :
  winding stop_at n r ->
  winding stop_at n (SystemIndexerThread.index_file e root filename r).
Proof.
  intros Hr. unfold SystemIndexerThread.index_file.
  destruct (os_stat e (os_path_join root filename)) as [st|]; [|by quiet].
  case_match; [|by apply winding_set_vars; quiet].
  unfold SystemIndexerThread.save. cbn [emit]. quiet.
  apply winding_set_vars. quiet. by quiet.
Qed.

Lemma winding_index_drive drive r :
  winding stop_at 0 r ->
  winding stop_at 1 (SystemIndexerThread.index_drive stop_at e drive r).
Proof.
  intros Hr. unfold SystemIndexerThread.index_drive.
  apply winding_walk_break; [|by quiet].
  intros [[root dirs] files] r1 Hr1. unfold SystemIndexerThread.index_directory.
  apply winding_for_break; [|done]. intros. by apply winding_index_file.
Qed.

Lemma winding_full_index drives index db (r : thread unit) :
  winding stop_at 1 r ->
  winding stop_at 1 (SystemIndexerThread.full_index stop_at e drives index db r).
Proof.
  intros Hr. unfold SystemIndexerThread.full_index.
  set (r1 := for_break _ _ _ _).
  assert (Hr1 : winding stop_at 1 r1).
  { apply winding_drives; [|done]. intros. by apply winding_index_drive. }
  set (saved := match SystemIndexerThread.batch (vars r1) with
                | [] => _ | _ :: _ => _ end).
  assert (Hr2 : winding stop_at 1 saved.2).
  { subst saved. destruct (SystemIndexerThread.batch (vars r1)); [done|].
    unfold SystemIndexerThread.save. simpl. by quiet. }
  destruct saved as [db' r2]. simpl in Hr2.
  pose proof (winding_should_stop stop_at 1 r2 Hr2) as Hr3.
  destruct (should_stop stop_at r2) as [b r3]. cbn [snd] in Hr3.
  apply winding_set_vars. destruct b; [done|]. by quiet.
Qed.

Lemma winding_run force_full_index database drives :
  winding stop_at 1
    (SystemIndexerThread.run stop_at e force_full_index database drives).
Proof.
  unfold SystemIndexerThread.run, SystemIndexerThread.close.
  assert (H0 : winding stop_at 1 (start tt)).
  { apply winding_running.
    - intros l1 root l2 E. by destruct l1.
    - by intros H%elem_of_nil. }
  destruct force_full_index; cbn [negb].
  - apply winding_set_vars, winding_full_index. by quiet.
  - case_match.
    + do 2 apply winding_set_vars. do 3 quiet. by quiet.
    + apply winding_set_vars, winding_full_index. quiet. by quiet.
Qed.

Ltac calm := apply ending_act; [done|done|].

Lemma ended_fast_scan case_sensitive use_size_filter root_folder :
  let l := log (FastDuplicateScannerThread.run stop_at case_sensitive
                  use_size_filter e root_folder) in
  listings_checked l /\ ends_at_stop l.
Proof.
  unfold FastDuplicateScannerThread.run.
  set (r0 := emit _ _).
  assert (H0 : ending (Continue r0)).
  { subst r0. calm. split.
    - intros l1 root l2 E. by destruct l1.
    - by intros H%elem_of_nil. }
  set (f := walk_return _ _ _ _).
  assert (Hf : ending f).
  { apply ending_walk_return; [|done].
    intros [[root dirs] files] r1 Hr1.
    unfold FastDuplicateScannerThread.scan_directory.
    apply ending_for_return; [|done].
    intros filename r2 Hr2. unfold FastDuplicateScannerThread.scan_file.
    destruct (os_stat e (os_path_join root filename)) as [st|]; [|by calm].
    case_match; [calm|]; apply ending_set_vars; by calm. }
  destruct f as [r1|r1]; [|done].
  pose proof (ending_last stop_at r1 Hf) as Hl.
  destruct (should_stop stop_at r1) as [b r2]. cbn [fst snd] in Hl.
  destruct b; [done|]. destruct Hl as [Hl1 Hl2]. cbn [emit act log].
  split.
  - by do 2 (apply listings_checked_snoc; [done|]).
  - apply ends_at_stop_running. by do 2 (apply running_snoc; [done|]).
Qed.

Lemma ended_deep_scan root_folder :
  let l := log (DeepDuplicateScannerThread.run stop_at e root_folder) in
  listings_checked l /\ ends_at_stop l.
Proof.
  unfold DeepDuplicateScannerThread.run.
  set (r0 := emit _ _).
  assert (H0 : ending (Continue r0)).
  { subst r0. calm. split.
    - intros l1 root l2 E. by destruct l1.
    - by intros H%elem_of_nil. }
  set (f := walk_return _ _ _ r0).
  assert (Hf : ending f).
  { apply ending_walk_return; [|done].
    intros [[root dirs] files] r1 Hr1.
    unfold DeepDuplicateScannerThread.size_directory.
    apply ending_for_return; [|done].
    intros filename r2 Hr2. unfold DeepDuplicateScannerThread.size_file.
    destruct (os_stat e (os_path_join root filename)) as [st|]; [|by calm].
    case_match; [calm|]; apply ending_set_vars; by calm. }
  destruct f as [r1|r1]; [|done].
  set (to_hash := DeepDuplicateScannerThread.files_to_hash _).
  set (g := for_return _ _ _ _).
  assert (Hg : ending g).
  { apply ending_for_return; [|by calm].
    intros filepath r2 Hr2. unfold DeepDuplicateScannerThread.hash_one.
    destruct (hash_file e filepath) as [h|]; [|by calm].
    destruct (os_stat e filepath) as [st|]; [|by calm; calm].
    case_match; [calm|]; apply ending_set_vars; calm; by calm. }
  destruct g as [r2|r2]; [|done].
  pose proof (ending_last stop_at r2 Hg) as Hl.
  destruct (should_stop stop_at r2) as [b r3]. cbn [fst snd] in Hl.
  destruct b; [done|]. destruct Hl as [Hl1 Hl2]. cbn [emit act log].
  split.
  - by apply listings_checked_snoc.
  - apply ends_at_stop_running. by apply running_snoc.
Qed.
End WalkOfScans.


(** A full index stopped at its fourth read of the flag, while it goes
    through the files of the root: one file is stat'ed, [os.walk] lists
    the next directory, the batch collected so far is saved and nothing
    is announced. *)
Example full_index_stopped :
  log (SystemIndexerThread.full_index (Some 3%nat) example_env
         [Folder "/" [Folder "docs" [] ["c.txt"]] ["a.txt"; "b.txt"]] [] ∅ (start tt))
  = [ReadStop false; Emit (progress (IndexingDrive "/")); Scandir "/";
     ReadStop false; ReadStop false; OsStat "/a.txt"; ReadStop true;
     Scandir "/docs"; ReadStop true;
     SaveFileIndex [FileEntry.mk "a.txt" "/a.txt" ".txt" 5 10%Q false];
     ReadStop true].
Proof. vm_compute. reflexivity. Qed.

(** ** The indexer's choice between a full and an incremental scan *)

Lemma for_break_ind {X L} stop_at (P : thread L -> Prop)
    (body : X -> thread L -> thread L) xs r :
  (forall r, P r -> P (should_stop stop_at r).2) ->
  (forall x r, x ∈ xs -> P r -> P (body x r)) ->
  P r -> P (for_break stop_at body xs r).
Proof.
  intros Hstop. revert r. induction xs as [|x xs IH]; intros r Hbody Hr; [done|].
  cbn [for_break]. specialize (Hstop r Hr).
  destruct (should_stop stop_at r) as [b r1]. simpl in Hstop.
  destruct b; [done|]. apply IH.
  - intros y r' Hy. apply Hbody. by apply list_elem_of_further.
  - apply Hbody; [apply list_elem_of_here|done].
Qed.

Lemma for_return_ind {X L} stop_at (P : thread L -> Prop)
    (body : X -> thread L -> flow L) xs r :
  (forall r, P r -> P (should_stop stop_at r).2) ->
  (forall x r, x ∈ xs -> P r -> P (thread_of (body x r))) ->
  P r -> P (thread_of (for_return stop_at body xs r)).
Proof.
  intros Hstop. revert r. induction xs as [|x xs IH]; intros r Hbody Hr; [done|].
  cbn [for_return]. specialize (Hstop r Hr).
  destruct (should_stop stop_at r) as [b r1]. simpl in Hstop.
  destruct b; [done|].
  assert (H2 : P (thread_of (body x r1))) by (apply Hbody; [apply list_elem_of_here|done]).
  destruct (body x r1) as [r2|r2]; [|done]. apply IH; [|done].
  intros y r' Hy. apply Hbody. by apply list_elem_of_further.
Qed.

Lemma walk_break_ind {L} stop_at (P : thread L -> Prop) body items r :
  (forall r, P r -> P (should_stop stop_at r).2) ->
  (forall root r, P r -> P (act (Scandir root) r)) ->
  (forall x r, x ∈ items -> P r -> P (body x r)) ->
  P r -> P (walk_break stop_at body items r).
Proof.
  intros Hstop Hscan. revert r. induction items as [|x xs IH]; intros r Hbody Hr; [done|].
  cbn [walk_break]. specialize (Hstop _ (Hscan x.1.1 r Hr)).
  destruct (should_stop stop_at (act (Scandir x.1.1) r)) as [b r1]. simpl in Hstop.
  destruct b; [done|]. apply IH.
  - intros y r' Hy. apply Hbody. by apply list_elem_of_further.
  - apply Hbody; [apply list_elem_of_here|done].
Qed.

Lemma walk_return_ind {L} stop_at (P : thread L -> Prop) body items r :
  (forall r, P r -> P (should_stop stop_at r).2) ->
  (forall root r, P r -> P (act (Scandir root) r)) ->
  (forall x r, x ∈ items -> P r -> P (thread_of (body x r))) ->
  P r -> P (thread_of (walk_return stop_at body items r)).
Proof.
  intros Hstop Hscan. revert r. induction items as [|x xs IH]; intros r Hbody Hr; [done|].
  cbn [walk_return]. specialize (Hstop _ (Hscan x.1.1 r Hr)).
  destruct (should_stop stop_at (act (Scandir x.1.1) r)) as [b r1]. simpl in Hstop.
  destruct b; [done|].
  assert (H2 : P (thread_of (body x r1))) by (apply Hbody; [apply list_elem_of_here|done]).
  destruct (body x r1) as [r2|r2]; [|done]. apply IH; [|done].
  intros y r' Hy. apply Hbody. by apply list_elem_of_further.
Qed.

Lemma elem_of_log_act {L} (a b : action) (r : thread L) :
  a ∈ log (act b r) <-> a ∈ log r \/ a = b.
Proof. simpl. rewrite elem_of_app, list_elem_of_singleton. done. Qed.

Lemma elem_of_log_should_stop {L} stop_at (a : action) (r : thread L) :
  a ∈ log (should_stop stop_at r).2 <-> a ∈ log r \/ a = ReadStop (flag stop_at (reads r)).
Proof. simpl. rewrite elem_of_app, list_elem_of_singleton. done. Qed.

(** [full_index] only adds to the log. *)
Lemma full_index_keeps_log stop_at e drives index db (r : thread unit) a :
  a ∈ log r -> a ∈ log (SystemIndexerThread.full_index stop_at e drives index db r).
Proof.
  intros Ha. unfold SystemIndexerThread.full_index.
  set (r1 := for_break _ _ _ _).
  assert (H1 : a ∈ log r1).
  { apply (for_break_ind stop_at (fun r => a ∈ log r)); [| |done].
    - intros r' H. apply elem_of_log_should_stop. by left.
    - intros drive r' _ H. unfold SystemIndexerThread.index_drive.
      apply (walk_break_ind stop_at (fun r => a ∈ log r)).
      + intros r'' H'. apply elem_of_log_should_stop. by left.
      + intros root r'' H'. apply elem_of_log_act. by left.
      + intros [[root dirs] files] r'' _ H'. unfold SystemIndexerThread.index_directory.
        apply (for_break_ind stop_at (fun r => a ∈ log r)); [| |done].
        * intros r3 H3. apply elem_of_log_should_stop. by left.
        * intros filename r3 _ H3. unfold SystemIndexerThread.index_file.
          assert (H4 : a ∈ log (act (OsStat (os_path_join root filename)) r3))
            by (apply elem_of_log_act; by left).
          destruct (os_stat e (os_path_join root filename)); [|done].
          case_match; [|done]. unfold SystemIndexerThread.save.
          apply elem_of_log_act. left. simpl. apply elem_of_app. by left.
      + apply elem_of_log_act. by left. }
  set (saved := match SystemIndexerThread.batch (vars r1) with
                | [] => _ | _ :: _ => _ end).
  assert (H2 : a ∈ log saved.2).
  { subst saved. destruct (SystemIndexerThread.batch (vars r1)); [done|].
    apply elem_of_log_act. by left. }
  destruct saved as [db' r2]. simpl in H2.
  assert (H3 : a ∈ log (should_stop stop_at r2).2)
    by (apply elem_of_log_should_stop; by left).
  destruct (should_stop stop_at r2) as [b r3]. simpl in *.
  destruct b; [done|]. apply elem_of_app. by left.
Qed.

(** C4. Without an explicit request for a full index, [run] calls
    [full_index] exactly when the cached index has at most 1000 entries,
    and then it is that full scan; when it has more than 1000, [run]
    publishes the cached entries ([files_indexed] with their number),
    takes them as its index, schedules [incremental_update] with
    [QTimer.singleShot] and does nothing else. *)
Theorem run_full_scan_iff_cache_at_most_1000 :
  forall (stop_at : option nat) (e : env) (database : DatabaseManager.t)
         (drives : list fs_node),
    let cached_files := DatabaseManager.load_file_index database in
    let r := SystemIndexerThread.run stop_at e false database drives in
    (Call full_index_method ∈ log r <-> (length cached_files <= 1000)%nat) /\
    ((length cached_files <= 1000)%nat ->
       r = SystemIndexerThread.close
             (SystemIndexerThread.full_index stop_at e drives [] database
                (act (Call full_index_method)
                     (emit (progress LoadingCachedIndex) (start tt))))) /\
    ((1000 < length cached_files)%nat ->
       log r = [Emit (progress LoadingCachedIndex);
                Emit (progress (LoadedFromCache (length cached_files)));
                Emit (files_indexed (length cached_files));
                SingleShot 500 incremental_update_method] /\
       SystemIndexerThread.index (vars r) = cached_files).
Proof.
  intros stop_at e database drives cached_files r.
  assert (Hfull : (length cached_files <= 1000)%nat ->
    r = SystemIndexerThread.close
          (SystemIndexerThread.full_index stop_at e drives [] database
             (act (Call full_index_method)
                  (emit (progress LoadingCachedIndex) (start tt))))).
  { intros Hle. subst r. unfold SystemIndexerThread.run. cbn [negb].
    fold cached_files.
    destruct (Nat.ltb_spec 1000 (length cached_files)); [lia|done]. }
  assert (Hcache : (1000 < length cached_files)%nat ->
    log r = [Emit (progress LoadingCachedIndex);
             Emit (progress (LoadedFromCache (length cached_files)));
             Emit (files_indexed (length cached_files));
             SingleShot 500 incremental_update_method] /\
    SystemIndexerThread.index (vars r) = cached_files).
  { intros Hlt. subst r. unfold SystemIndexerThread.run. cbn [negb].
    fold cached_files.
    destruct (Nat.ltb_spec 1000 (length cached_files)); [done|lia]. }
  split; [|done]. split.
  - intros Hin. destruct (Nat.le_gt_cases (length cached_files) 1000) as [|Hlt]; [done|].
    destruct (Hcache Hlt) as [Hlog _]. rewrite Hlog in Hin.
    repeat (apply elem_of_cons in Hin as [Hin|Hin]; [done|]).
    by apply elem_of_nil in Hin.
  - intros Hle. rewrite (Hfull Hle). cbn [SystemIndexerThread.close set_vars log].
    apply full_index_keeps_log, elem_of_log_act. by right.
Qed.

Lemma run_full_scan_iff_cache_at_most_1000_witness :
  let e := Env (fun _ => None) (fun _ => None) (fun _ => 0%Q) in
  SystemIndexerThread.run None e false ∅ []
  = SystemIndexerThread.close
      (SystemIndexerThread.full_index None e [] [] ∅
         (act (Call full_index_method) (emit (progress LoadingCachedIndex) (start tt)))).
Proof.
  intros e.
  destruct (run_full_scan_iff_cache_at_most_1000 None e ∅ []) as (_ & H & _).
  apply H. vm_compute. lia.
Defined.

Lemma append_inj_l (s a b : string) : s +:+ a = s +:+ b -> a = b.
Proof. induction s as [|c s IH]; simpl; [done|]. intros [= H]. by apply IH. Qed.

Lemma length_cache_of_size n :
  length (DatabaseManager.load_file_index (cache_of_size n)) = n.
Proof.
  unfold DatabaseManager.load_file_index, cache_of_size.
  rewrite length_map, length_map_to_list, map_size_list_to_map.
  - by rewrite length_map, length_seq.
  - rewrite <- list_fmap_compose. apply NoDup_fmap_2; [|apply NoDup_seq].
    intros i j H. simpl in H. unfold numbered_path in H.
    apply append_inj_l in H. by apply (inj pretty) in H.
Qed.

(** C4, as stated, fails at a cache of exactly 1000 entries: [run] calls
    [full_index] (here on a machine without drives, where the scan
    completes at once) instead of serving the cache. *)
Lemma run_with_1000_cached_entries_scans_fully :
  let e := Env (fun _ => None) (fun _ => None) (fun _ => 0%Q) in
  length (DatabaseManager.load_file_index (cache_of_size 1000)) = 1000%nat /\
  log (SystemIndexerThread.run None e false (cache_of_size 1000) [])
  = [Emit (progress LoadingCachedIndex); Call full_index_method;
     ReadStop false; Emit (indexing_complete 0)].
Proof.
  intros e. split; [apply length_cache_of_size|].
  unfold SystemIndexerThread.run. cbn [negb].
  rewrite length_cache_of_size. reflexivity.
Qed.

(** ** The store *)

Lemma save_file_index_snoc t files f db :
  DatabaseManager.save_file_index t (files ++ [f]) db
  = <[FileEntry.path f := DatabaseManager.row_of t f]>
      (DatabaseManager.save_file_index t files db).
Proof. unfold DatabaseManager.save_file_index. by rewrite foldl_app. Qed.

Lemma save_file_index_other t files db p :
  (forall f, f ∈ files -> FileEntry.path f <> p) ->
  DatabaseManager.save_file_index t files db !! p = db !! p.
Proof.
  induction files as [|g files IH] using rev_ind; intros Hne; [done|].
  rewrite save_file_index_snoc, lookup_insert_ne.
  - apply IH. intros f Hf. apply Hne, elem_of_app. by left.
  - apply Hne, elem_of_app. right. apply list_elem_of_here.
Qed.

Lemma save_file_index_saved t files db f :
  f ∈ files ->
  exists f', f' ∈ files /\ FileEntry.path f' = FileEntry.path f /\
    DatabaseManager.save_file_index t files db !! FileEntry.path f
    = Some (DatabaseManager.row_of t f').
Proof.
  induction files as [|g files IH] using rev_ind; intros Hf.
  { by apply elem_of_nil in Hf. }
  rewrite save_file_index_snoc.
  destruct (decide (FileEntry.path g = FileEntry.path f)) as [E|Hne].
  - exists g. split; [apply elem_of_app; right; apply list_elem_of_here|].
    split; [done|]. by rewrite <- E, lookup_insert_eq.
  - apply elem_of_app in Hf as [Hf|Hf].
    + destruct (IH Hf) as (f' & Hf' & Hp & Hl). exists f'.
      split; [apply elem_of_app; by left|]. split; [done|].
      by rewrite lookup_insert_ne.
    + apply list_elem_of_singleton in Hf. by subst g.
Qed.

Lemma remove_deleted_files_lookup existing db p :
  DatabaseManager.remove_deleted_files existing db !! p
  = if decide (p ∈ existing) then db !! p else None.
Proof.
  unfold DatabaseManager.remove_deleted_files.
  destruct (decide (p ∈ existing)) as [Hin|Hnin].
  - apply lookup_foldr_delete_not_elem_of. rewrite elem_of_elements. set_solver.
  - destruct (db !! p) as [row|] eqn:E.
    + apply lookup_foldr_delete. rewrite elem_of_elements.
      apply elem_of_difference. split; [|done]. apply elem_of_dom. eauto.
    + rewrite lookup_foldr_delete_not_elem_of; [done|].
      rewrite elem_of_elements, elem_of_difference, elem_of_dom, E.
      intros [[x Hx] _]. done.
Qed.

Lemma get_file_info_lookup p (db : DatabaseManager.t) :
  DatabaseManager.get_file_info p db = cached_info <$> db !! p.
Proof. unfold DatabaseManager.get_file_info. by destruct (db !! p). Qed.

(** ** The walk of the incremental update *)

Section IncrementalWalk.
Import SystemIndexerThread.
Context (stop_at : option nat) (e : env) (db0 : DatabaseManager.t).

Local Abbreviation inv := (walk_inv e db0).

(** The invariant looks at the log only for its stats and saves. *)
Lemma walk_inv_log (r r' : thread incremental_vars) :
  vars r' = vars r ->
  (forall p, OsStat p ∈ log r' <-> OsStat p ∈ log r) ->
  (forall batch, SaveFileIndex batch ∈ log r' -> SaveFileIndex batch ∈ log r) ->
  inv r -> inv r'.
Proof.
  intros Hv Hs Hb (H1 & H2 & H3 & H4 & H5 & H6 & H7).
  unfold walk_inv. rewrite Hv.
  split; [done|]. split; [done|]. split; [|split; [|done]].
  - intros p. by rewrite Hs.
  - intros batch H. by apply Hb, H4 in H.
Qed.

Lemma walk_inv_should_stop r : inv r -> inv (should_stop stop_at r).2.
Proof.
  apply walk_inv_log; [done| |].
  - intros p. rewrite elem_of_log_should_stop. naive_solver.
  - intros batch. rewrite elem_of_log_should_stop. naive_solver.
Qed.

Lemma walk_inv_emit s r : inv r -> inv (emit s r).
Proof.
  apply walk_inv_log; [done| |].
  - intros p. unfold emit. rewrite elem_of_log_act. naive_solver.
  - intros batch. unfold emit. rewrite elem_of_log_act. naive_solver.
Qed.

(** The invariant does not look at the index or at the counter. *)
Lemma walk_inv_count_checked r : inv r -> inv (count_checked r).
Proof.
  intros H. unfold count_checked.
  match goal with |- inv (if ?c then _ else _) => destruct c end;
    [apply walk_inv_emit|]; exact H.
Qed.

(** One more path is stat'ed, and the lists of records grow by records
    of that path only. *)
Lemma walk_inv_visit (r r' : thread incremental_vars) filepath :
  inv r ->
  log r' = log r ++ [OsStat filepath] ->
  iu_db (vars r') = db0 ->
  indexed_paths (vars r') = dom db0 ->
  existing_paths (vars r') = {[filepath]} ∪ existing_paths (vars r) ->
  (forall f, f ∈ new_files (vars r) -> f ∈ new_files (vars r')) ->
  (forall f, f ∈ updated_files (vars r) -> f ∈ updated_files (vars r')) ->
  (forall f, f ∈ new_files (vars r') -> f ∈ new_files (vars r) \/
     (db0 !! FileEntry.path f = None /\ recorded e f /\ FileEntry.path f = filepath)) ->
  (forall f, f ∈ updated_files (vars r') -> f ∈ updated_files (vars r) \/
     ((exists row, db0 !! FileEntry.path f = Some row /\
         changed (FileEntry.size f, FileEntry.modified f) (cached_info row) = true) /\
      recorded e f /\ FileEntry.path f = filepath)) ->
  (forall st, os_stat e filepath = Some st ->
     (db0 !! filepath = None ->
        exists f, f ∈ new_files (vars r') /\ FileEntry.path f = filepath) /\
     (forall row, db0 !! filepath = Some row ->
        changed st (cached_info row) = true ->
        exists f, f ∈ updated_files (vars r') /\ FileEntry.path f = filepath)) ->
  inv r'.
Proof.
  intros (H1 & H2 & H3 & H4 & H5 & H6 & H7) Hlog Hdb Hip Hex Hnew Hupd Hnew' Hupd' Hcov.
  unfold walk_inv. rewrite Hlog, Hex.
  split; [done|]. split; [done|]. split; [|split; [|split; [|split]]].
  - intros p. rewrite elem_of_union, elem_of_singleton, elem_of_app,
      list_elem_of_singleton, H3. split; intros [H|H].
    + right. by rewrite H.
    + by left.
    + by right.
    + left. by injection H.
  - intros batch H. apply elem_of_app in H as [H|H]; [by apply H4 in H|].
    by apply list_elem_of_singleton in H.
  - intros f Hf. destruct (Hnew' f Hf) as [Hold|(Hn & Hr & Hp)].
    + destruct (H5 f Hold) as (Hn & Hr & Hx). repeat split; try done.
      apply elem_of_union. by right.
    + repeat split; try done. apply elem_of_union. left. by apply elem_of_singleton.
  - intros f Hf. destruct (Hupd' f Hf) as [Hold|(Hn & Hr & Hp)].
    + destruct (H6 f Hold) as (Hn & Hr & Hx). repeat split; try done.
      apply elem_of_union. by right.
    + repeat split; try done. apply elem_of_union. left. by apply elem_of_singleton.
  - intros p st Hp Hst. apply elem_of_union in Hp as [Hp|Hp].
    + apply elem_of_singleton in Hp. subst p. apply (Hcov st Hst).
    + destruct (H7 p st Hp Hst) as [Ha Hb]. split.
      * intros Hn. destruct (Ha Hn) as (f & Hf & Hfp). eauto.
      * intros row Hrow Hch. destruct (Hb row Hrow Hch) as (f & Hf & Hfp). eauto.
Qed.

Lemma recorded_new_entry filename filepath st :
  os_stat e filepath = Some st -> recorded e (new_entry filename filepath st).
Proof. intros H. unfold recorded, new_entry. simpl. by destruct st. Qed.

Lemma walk_inv_check_file root filename r :
  inv r -> inv (check_file e root filename r).
Proof.
  intros Hinv. pose proof Hinv as (H1 & H2 & H3 & H4 & H5 & H6 & H7).
  unfold check_file. set (filepath := os_path_join root filename).
  cbn [vars set_vars act].
  destruct (os_stat e filepath) as [st|] eqn:Hst.
  2:{ apply (walk_inv_visit r _ filepath); auto. intros st' Hst'. congruence. }
  rewrite H2.
  destruct (decide (filepath ∈ dom db0)) as [Hin|Hnin].
  - rewrite bool_decide_eq_true_2 by done. cbn [negb].
    apply elem_of_dom in Hin as [row Hrow].
    rewrite get_file_info_lookup, H1, Hrow. cbn [fmap option_fmap option_map].
    destruct (changed st (cached_info row)) eqn:Hch.
    + apply walk_inv_count_checked.
      apply (walk_inv_visit r _ filepath); cbn [vars set_vars new_files updated_files]; auto.
      * intros f Hf. apply elem_of_app. by left.
      * intros f Hf. apply elem_of_app in Hf as [Hf|Hf]; [by left|].
        apply list_elem_of_singleton in Hf. subst f. right.
        split; [|split; [by apply recorded_new_entry|done]].
        exists row. split; [done|]. simpl. by destruct st.
      * intros st' Hst'. split; [congruence|]. intros row' _ _.
        exists (new_entry filename filepath st). split; [|done].
        apply elem_of_app. right. apply list_elem_of_here.
    + apply walk_inv_count_checked.
      apply (walk_inv_visit r _ filepath); cbn [vars set_vars new_files updated_files]; auto.
      intros st' Hst'. split; [congruence|]. intros row' Hrow' Hch'.
      congruence.
  - rewrite bool_decide_eq_false_2 by done. cbn [negb].
    apply not_elem_of_dom in Hnin.
    apply walk_inv_count_checked.
    apply (walk_inv_visit r _ filepath); cbn [vars set_vars new_files updated_files]; auto.
    + intros f Hf. apply elem_of_app. by left.
    + intros f Hf. apply elem_of_app in Hf as [Hf|Hf]; [by left|].
      apply list_elem_of_singleton in Hf. subst f. right.
      split; [done|]. split; [by apply recorded_new_entry|done].
    + intros st' Hst'. split; [|congruence]. intros _.
      exists (new_entry filename filepath st). split; [|done].
      apply elem_of_app. right. apply list_elem_of_here.
Qed.

(** *** The index in memory *)

Lemma elem_of_replace_first_other filepath entry index g :
  g ∈ index -> FileEntry.path g <> filepath ->
  g ∈ replace_first filepath entry index.
Proof.
  intros Hg Hne. induction index as [|f index IH]; simpl; [done|].
  destruct (String.eqb_spec (FileEntry.path f) filepath) as [E|E].
  - apply elem_of_cons in Hg as [->|Hg]; [done|]. by apply list_elem_of_further.
  - apply elem_of_cons in Hg as [->|Hg]; [apply list_elem_of_here|].
    by apply list_elem_of_further, IH.
Qed.

Lemma elem_of_replace_first_hit filepath entry index g :
  g ∈ index -> FileEntry.path g = filepath ->
  entry ∈ replace_first filepath entry index.
Proof.
  intros Hg Hp. induction index as [|f index IH]; simpl; [by apply elem_of_nil in Hg|].
  destruct (String.eqb_spec (FileEntry.path f) filepath) as [E|E].
  - apply list_elem_of_here.
  - apply elem_of_cons in Hg as [->|Hg]; [done|].
    by apply list_elem_of_further, IH.
Qed.

Section IndexInMemory.
Context (index0 : list FileEntry.t).

Lemma index_inv_vars (r r' : thread incremental_vars) :
  iu_index (vars r') = iu_index (vars r) ->
  new_files (vars r') = new_files (vars r) ->
  updated_files (vars r') = updated_files (vars r) ->
  index_inv e index0 r -> index_inv e index0 r'.
Proof. unfold index_inv. by intros -> -> ->. Qed.

Lemma index_inv_count_checked r :
  index_inv e index0 r -> index_inv e index0 (count_checked r).
Proof.
  intros H. unfold count_checked.
  match goal with |- index_inv _ _ (if ?c then _ else _) => destruct c end; exact H.
Qed.

Lemma index_inv_check_file root filename r :
  inv r -> index_inv e index0 r -> index_inv e index0 (check_file e root filename r).
Proof.
  intros (H1 & H2 & _ & _ & H5 & _) (Ha & Hc & Hb).
  unfold check_file. set (filepath := os_path_join root filename).
  cbn [vars set_vars act].
  destruct (os_stat e filepath) as [st|] eqn:Hst; [|done].
  rewrite H2.
  destruct (decide (filepath ∈ dom db0)) as [Hin|Hnin].
  - rewrite bool_decide_eq_true_2 by done. cbn [negb].
    apply elem_of_dom in Hin as [row Hrow].
    rewrite get_file_info_lookup, H1, Hrow. cbn [fmap option_fmap option_map].
    destruct (changed st (cached_info row)) eqn:Hch;
      apply index_inv_count_checked; [|done].
    set (entry := new_entry filename filepath st).
    assert (Hentry : recorded e entry) by (by apply recorded_new_entry).
    split; [|split]; cbn [vars set_vars iu_index new_files updated_files].
    + intros f Hf. apply elem_of_replace_first_other; [by apply Ha|].
      intros E. destruct (H5 f Hf) as (Hn & _). rewrite E in Hn. congruence.
    + intros g Hg. destruct (Hc g Hg) as (g' & Hg' & Hp).
      destruct (decide (FileEntry.path g' = filepath)) as [E|E].
      * exists entry. split; [by apply (elem_of_replace_first_hit _ _ _ g')|].
        by rewrite <- Hp, E.
      * exists g'. split; [by apply elem_of_replace_first_other|done].
    + intros f Hf Hex. destruct (decide (FileEntry.path f = filepath)) as [E|E].
      * destruct Hex as (g & Hg & Hp). destruct (Hc g Hg) as (g' & Hg' & Hp').
        exists entry. split; [|by rewrite E].
        apply (elem_of_replace_first_hit _ _ _ g'); [done|]. by rewrite Hp', Hp.
      * apply elem_of_app in Hf as [Hf|Hf].
        -- destruct (Hb f Hf Hex) as (g & Hg & Hp & Hr). exists g.
           split; [|done]. apply elem_of_replace_first_other; [done|]. by rewrite Hp.
        -- apply list_elem_of_singleton in Hf. by subst f.
  - rewrite bool_decide_eq_false_2 by done. cbn [negb].
    apply index_inv_count_checked.
    split; [|split]; cbn [vars set_vars iu_index new_files updated_files].
    + intros f Hf. apply elem_of_app. apply elem_of_app in Hf as [Hf|Hf]; [left|by right].
      by apply Ha.
    + intros g Hg. destruct (Hc g Hg) as (g' & Hg' & Hp). exists g'.
      split; [|done]. apply elem_of_app. by left.
    + intros f Hf Hex. destruct (Hb f Hf Hex) as (g & Hg & Hp & Hr). exists g.
      split; [|done]. apply elem_of_app. by left.
Qed.

Lemma scan_inv_check_drive drive r :
  inv r /\ index_inv e index0 r ->
  inv (check_drive stop_at e drive r) /\ index_inv e index0 (check_drive stop_at e drive r).
Proof.
  intros H. unfold check_drive.
  apply (walk_break_ind stop_at (fun r => inv r /\ index_inv e index0 r)); [| | |done].
  - intros r1 [Hw Hi]. split; [by apply walk_inv_should_stop|done].
  - intros root r1 [Hw Hi]. split; [|done]. revert Hw. apply walk_inv_log; [done| |].
    + intros p. rewrite elem_of_log_act. naive_solver.
    + intros batch. rewrite elem_of_log_act. naive_solver.
  - intros [[root dirs] files] r1 _ H1. unfold check_directory.
    apply (for_break_ind stop_at (fun r => inv r /\ index_inv e index0 r)); [| |done].
    + intros r2 [Hw Hi]. split; [by apply walk_inv_should_stop|done].
    + intros filename r2 _ [Hw Hi].
      split; [by apply walk_inv_check_file|by apply index_inv_check_file].
Qed.
End IndexInMemory.

Lemma walk_inv_check_drive drive r :
  inv r -> inv (check_drive stop_at e drive r).
Proof.
  intros H. unfold check_drive.
  apply walk_break_ind; [apply walk_inv_should_stop| | |done].
  { intros root r1. apply walk_inv_log; [done| |].
    - intros p. rewrite elem_of_log_act. naive_solver.
    - intros batch. rewrite elem_of_log_act. naive_solver. }
  intros [[root dirs] files] r1 _ H1. unfold check_directory.
  apply for_break_ind; [apply walk_inv_should_stop| |done].
  intros filename r2 _. apply walk_inv_check_file.
Qed.

Lemma walk_inv_start index (r : thread self) :
  (forall a, a ∈ log r -> is_visit a = false /\ forall b, a <> SaveFileIndex b) ->
  inv (set_vars (Incremental index db0 (DatabaseManager.get_indexed_paths db0) ∅ [] [] 0) r).
Proof.
  intros Hlog. unfold walk_inv. cbn [vars set_vars iu_db indexed_paths existing_paths
                                     new_files updated_files log].
  split; [done|]. split; [done|]. split; [|split; [|split; [|split]]].
  - intros p. split; [by intros H%not_elem_of_empty|].
    intros H. by destruct (Hlog _ H) as [? _].
  - intros batch H. destruct (Hlog _ H) as [_ Hb]. by apply (Hb batch).
  - intros f H. by apply elem_of_nil in H.
  - intros f H. by apply elem_of_nil in H.
  - intros p st H. by apply not_elem_of_empty in H.
Qed.
End IncrementalWalk.

(** ** The incremental update *)

Lemma changed_differs st row :
  SystemIndexerThread.changed st (cached_info row) = true <-> differs st row.
Proof.
  unfold SystemIndexerThread.changed, differs, cached_info. simpl.
  rewrite orb_true_iff, !negb_true_iff, Z.eqb_neq.
  assert (Hq : Qle_bool (Qabs (st.2 - DatabaseManager.modified row)) 1 = false
               <-> (1 < Qabs (st.2 - DatabaseManager.modified row))%Q).
  { rewrite <- not_true_iff_false, Qle_bool_iff. split.
    - apply Qnot_le_lt.
    - apply Qlt_not_le. }
  by rewrite Hq.
Qed.

(** The walk, then the two saves, the pruning and the last read. *)
Lemma incremental_update_outcome stop_at e drives index db :
  let r := SystemIndexerThread.incremental_update stop_at e drives
             (start (SystemIndexerThread.Self index (Some db))) in
  exists (w : thread SystemIndexerThread.incremental_vars) (t1 t2 : Q)
         (tail : list action),
    let v := vars w in
    (walk_inv e db w /\ index_inv e index w) /\
    SystemIndexerThread.db_manager (vars r)
    = Some (DatabaseManager.remove_deleted_files (SystemIndexerThread.existing_paths v)
              (DatabaseManager.save_file_index t2 (SystemIndexerThread.updated_files v)
                 (DatabaseManager.save_file_index t1 (SystemIndexerThread.new_files v) db))) /\
    SystemIndexerThread.index (vars r) = SystemIndexerThread.iu_index v /\
    log r = log w
            ++ match SystemIndexerThread.new_files v with
               | [] => []
               | _ :: _ =>
                   [SaveFileIndex (SystemIndexerThread.new_files v);
                    Emit (progress (AddedNewFiles
                            (length (SystemIndexerThread.new_files v))))]
               end
            ++ match SystemIndexerThread.updated_files v with
               | [] => []
               | _ :: _ =>
                   [SaveFileIndex (SystemIndexerThread.updated_files v);
                    Emit (progress (UpdatedFiles
                            (length (SystemIndexerThread.updated_files v))))]
               end
            ++ RemoveDeletedFiles (SystemIndexerThread.existing_paths v) :: tail /\
    Forall (fun a => is_visit a = false /\ forall b, a <> SaveFileIndex b) tail.
Proof.
  intros r. subst r. unfold SystemIndexerThread.incremental_update.
  cbn [vars start SystemIndexerThread.db_manager SystemIndexerThread.index].
  set (w := for_break stop_at _ drives _).
  assert (Hw : walk_inv e db w /\ index_inv e index w).
  { apply (for_break_ind stop_at (fun r => walk_inv e db r /\ index_inv e index r)).
    - intros r' [Hw Hi]. split; [by apply walk_inv_should_stop|done].
    - intros drive r' _. apply scan_inv_check_drive.
    - split.
      + apply walk_inv_start. intros a Ha. simpl in Ha.
        apply list_elem_of_singleton in Ha as ->. done.
      + split; [|split]; cbn [vars set_vars SystemIndexerThread.iu_index
                               SystemIndexerThread.new_files
                               SystemIndexerThread.updated_files].
        * intros f Hf. by apply elem_of_nil in Hf.
        * intros g Hg. eauto.
        * intros f Hf. by apply elem_of_nil in Hf. }
  assert (H1 : SystemIndexerThread.iu_db (vars w) = db) by apply Hw.
  exists w.
  destruct (SystemIndexerThread.new_files (vars w)) as [|n ns] eqn:En;
    destruct (SystemIndexerThread.updated_files (vars w)) as [|u us] eqn:Eu;
    unfold SystemIndexerThread.save, should_stop;
    cbn [fst snd emit act log vars reads set_vars
         SystemIndexerThread.db_manager SystemIndexerThread.index];
    rewrite ?H1;
    match goal with
    | |- context [flag stop_at ?n] => destruct (flag stop_at n)
    end;
    cbn [fst snd emit act log vars reads set_vars
         SystemIndexerThread.db_manager SystemIndexerThread.index];
    rewrite ?En, ?Eu;
    match goal with
    | |- context [DatabaseManager.save_file_index ?t2 (u :: us)
                    (DatabaseManager.save_file_index ?t1 (n :: ns) _)] =>
        exists t1, t2
    | |- context [DatabaseManager.save_file_index ?t2 (u :: us) _] =>
        exists 0%Q, t2
    | |- context [DatabaseManager.save_file_index ?t1 (n :: ns) _] =>
        exists t1, 0%Q
    | |- _ => exists 0%Q, 0%Q
    end;
    eexists; (split; [exact Hw|]); (split; [reflexivity|]); (split; [reflexivity|]);
    (split; [rewrite <- ?app_assoc; reflexivity|]);
    repeat constructor; done.
Qed.

(** What the log and the store of a finished incremental update say, in
    terms of the variables at the end of the walk. *)
Lemma incremental_update_facts stop_at e drives index db :
  let r := SystemIndexerThread.incremental_update stop_at e drives
             (start (SystemIndexerThread.Self index (Some db))) in
  exists (w : thread SystemIndexerThread.incremental_vars) (t1 t2 : Q),
    let v := vars w in
    walk_inv e db w /\
    index_inv e index w /\
    SystemIndexerThread.index (vars r) = SystemIndexerThread.iu_index v /\
    SystemIndexerThread.db_manager (vars r)
    = Some (DatabaseManager.remove_deleted_files (SystemIndexerThread.existing_paths v)
              (DatabaseManager.save_file_index t2 (SystemIndexerThread.updated_files v)
                 (DatabaseManager.save_file_index t1 (SystemIndexerThread.new_files v) db))) /\
    (forall p, OsStat p ∈ log r <-> p ∈ SystemIndexerThread.existing_paths v) /\
    (forall f, persisted (log r) f
               <-> f ∈ SystemIndexerThread.new_files v \/
                   f ∈ SystemIndexerThread.updated_files v) /\
    RemoveDeletedFiles (SystemIndexerThread.existing_paths v) ∈ log r.
Proof.
  intros r.
  destruct (incremental_update_outcome stop_at e drives index db)
    as (w & t1 & t2 & tail & [Hw Hi] & Hdb & Hidx & Hlog & Htail).
  fold r in Hdb, Hidx, Hlog. exists w, t1, t2. cbn zeta in *.
  pose proof Hw as (_ & _ & H3 & H4 & _).
  rewrite Forall_forall in Htail.
  split; [done|]. split; [done|]. split; [done|]. split; [done|]. split; [|split].
  - intros p. rewrite H3, Hlog, !elem_of_app, elem_of_cons. split; [|by left].
    intros [H|[H|[H|[H|H]]]]; [done| | |done|by apply Htail in H as [? _]].
    + destruct (SystemIndexerThread.new_files (vars w)); [by apply elem_of_nil in H|].
      repeat (apply elem_of_cons in H as [H|H]; [done|]). by apply elem_of_nil in H.
    + destruct (SystemIndexerThread.updated_files (vars w)); [by apply elem_of_nil in H|].
      repeat (apply elem_of_cons in H as [H|H]; [done|]). by apply elem_of_nil in H.
  - intros f. unfold persisted. split.
    + intros (batch & Hb & Hf). rewrite Hlog, !elem_of_app, elem_of_cons in Hb.
      destruct Hb as [H|[H|[H|[H|H]]]];
        [by apply H4 in H| | |done|apply Htail in H as [_ H]; by destruct (H batch)].
      * destruct (SystemIndexerThread.new_files (vars w)) eqn:E;
          [by apply elem_of_nil in H|].
        apply elem_of_cons in H as [H|H]; [injection H as ->; by left|].
        apply elem_of_cons in H as [H|H]; [done|]. by apply elem_of_nil in H.
      * destruct (SystemIndexerThread.updated_files (vars w)) eqn:E;
          [by apply elem_of_nil in H|].
        apply elem_of_cons in H as [H|H]; [injection H as ->; by right|].
        apply elem_of_cons in H as [H|H]; [done|]. by apply elem_of_nil in H.
    + intros [Hf|Hf].
      * exists (SystemIndexerThread.new_files (vars w)). split; [|done].
        rewrite Hlog, !elem_of_app. right. left.
        destruct (SystemIndexerThread.new_files (vars w)); [by apply elem_of_nil in Hf|].
        apply list_elem_of_here.
      * exists (SystemIndexerThread.updated_files (vars w)). split; [|done].
        rewrite Hlog, !elem_of_app. right. right. left.
        destruct (SystemIndexerThread.updated_files (vars w));
          [by apply elem_of_nil in Hf|].
        apply list_elem_of_here.
  - rewrite Hlog, !elem_of_app. right. right. right. apply list_elem_of_here.
Qed.

Lemma recorded_holds e t f p st :
  recorded e f -> FileEntry.path f = p -> os_stat e p = Some st ->
  holds (DatabaseManager.row_of t f) st.
Proof.
  unfold recorded, holds. intros Hr <- Hst. rewrite Hst in Hr.
  injection Hr as ->. done.
Qed.

Lemma save_twice_lookup t1 t2 new upd (db : DatabaseManager.t) p :
  let saved := DatabaseManager.save_file_index t2 upd
                 (DatabaseManager.save_file_index t1 new db) in
  ((exists f, f ∈ upd /\ FileEntry.path f = p) ->
     exists f, f ∈ upd /\ FileEntry.path f = p /\
       saved !! p = Some (DatabaseManager.row_of t2 f)) /\
  ((forall f, f ∈ upd -> FileEntry.path f <> p) ->
     (exists f, f ∈ new /\ FileEntry.path f = p) ->
     exists f, f ∈ new /\ FileEntry.path f = p /\
       saved !! p = Some (DatabaseManager.row_of t1 f)) /\
  ((forall f, f ∈ upd -> FileEntry.path f <> p) ->
   (forall f, f ∈ new -> FileEntry.path f <> p) ->
   saved !! p = db !! p).
Proof.
  intros saved. subst saved. split; [|split].
  - intros (f & Hf & <-).
    destruct (save_file_index_saved t2 upd
                (DatabaseManager.save_file_index t1 new db) f Hf) as (f' & Hf' & Hp & Hl).
    exists f'. by rewrite Hl.
  - intros Hupd (f & Hf & <-). rewrite save_file_index_other by done.
    destruct (save_file_index_saved t1 new db f Hf) as (f' & Hf' & Hp & Hl).
    exists f'. by rewrite Hl.
  - intros Hupd Hnew. by rewrite !save_file_index_other.
Qed.


(** C10. Whether or not it is stopped during the walk, an incremental
    update then saves what it has collected and calls
    [remove_deleted_files] with the paths it has stat'ed and no others.
    The store ends with rows of stat'ed paths only: every path of the
    store that the walk has not reached is deleted from it, even if its
    file still exists.  Of a path that was stat'ed with success the
    store ends with a row of the size and time that [os.stat] answered
    when the path was not in the store or its row differed, and each
    such record was handed to [save_file_index]; otherwise, and when
    [os.stat] failed, the row of the path is as it was.  Every record
    handed to [save_file_index] is in the store at the end. *)
Theorem incremental_update_prunes_unvisited_paths :
  forall (stop_at : option nat) (e : env) (drives : list fs_node)
         (index : list FileEntry.t) (db : DatabaseManager.t),
    let r := SystemIndexerThread.incremental_update stop_at e drives
               (start (SystemIndexerThread.Self index (Some db))) in
    exists db' existing,
      SystemIndexerThread.db_manager (vars r) = Some db' /\
      RemoveDeletedFiles existing ∈ log r /\
      (forall p, p ∈ existing <-> OsStat p ∈ log r) /\
      (forall p, is_Some (db !! p) -> OsStat p ∉ log r -> db' !! p = None) /\
      (forall p, is_Some (db' !! p) -> OsStat p ∈ log r) /\
      (forall p st, OsStat p ∈ log r -> os_stat e p = Some st ->
         (db !! p = None \/ (exists row, db !! p = Some row /\ differs st row) ->
          (exists row', db' !! p = Some row' /\ holds row' st) /\
          (exists f, persisted (log r) f /\ FileEntry.path f = p /\
                     FileEntry.size f = st.1 /\ FileEntry.modified f = st.2)) /\
         (forall row, db !! p = Some row -> ~ differs st row ->
                      db' !! p = Some row)) /\
      (forall p, OsStat p ∈ log r -> os_stat e p = None -> db' !! p = db !! p) /\
      (forall f, persisted (log r) f ->
         exists row, db' !! FileEntry.path f = Some row /\
           DatabaseManager.size row = FileEntry.size f /\
           DatabaseManager.modified row = FileEntry.modified f).
Proof.
  intros stop_at e drives index db r.
  destruct (incremental_update_facts stop_at e drives index db)
    as (w & t1 & t2 & Hw & _ & _ & Hdb & Hstat & Hpers & Hprune).
  fold r in Hdb, Hstat, Hpers, Hprune. cbn zeta in *.
  destruct Hw as (_ & _ & _ & _ & H5 & H6 & H7).
  eexists. exists (SystemIndexerThread.existing_paths (vars w)).
  split; [exact Hdb|]. split; [done|]. split; [by intros p; rewrite Hstat|].
  split; [|split; [|split; [|split]]].
  - intros p _ Hp. rewrite remove_deleted_files_lookup, decide_False; [done|].
    by rewrite <- Hstat.
  - intros p [row Hrow]. rewrite remove_deleted_files_lookup in Hrow.
    apply Hstat. by case_decide.
  - intros p st Hvisit Hst. apply Hstat in Hvisit.
    destruct (H7 p st Hvisit Hst) as [Hnew Hupd].
    destruct (save_twice_lookup t1 t2 (SystemIndexerThread.new_files (vars w))
                (SystemIndexerThread.updated_files (vars w)) db p) as (S1 & S2 & S3).
    cbn zeta in *. rewrite remove_deleted_files_lookup, decide_True by done.
    assert (Hupd_is : forall f row, f ∈ SystemIndexerThread.updated_files (vars w) ->
              FileEntry.path f = p -> db !! p = Some row -> differs st row).
    { intros f row Hf Hp Hrow.
      destruct (H6 f Hf) as ((row' & Hr' & Hch) & Hrec & _).
      rewrite Hp in Hr'. assert (row' = row) as -> by congruence.
      unfold recorded in Hrec. rewrite Hp, Hst in Hrec. injection Hrec as ->.
      by apply changed_differs. }
    split.
    + intros [Hnone|(row & Hrow & Hd)].
      * destruct (Hnew Hnone) as (f & Hf & Hp).
        assert (Hno_upd : forall f, f ∈ SystemIndexerThread.updated_files (vars w) ->
                                    FileEntry.path f <> p).
        { intros g Hg E. destruct (H6 g Hg) as ((row' & Hr' & _) & _).
          rewrite E in Hr'. congruence. }
        destruct (S2 Hno_upd (ex_intro _ f (conj Hf Hp))) as (f' & Hf' & Hp' & Hl).
        destruct (H5 f' Hf') as (_ & Hrec & _). split.
        -- eexists. split; [exact Hl|]. by apply (recorded_holds e t1 f' p).
        -- exists f'. split; [apply Hpers; by left|]. split; [done|].
           unfold recorded in Hrec. rewrite Hp', Hst in Hrec. by injection Hrec as ->.
      * apply changed_differs in Hd.
        destruct (S1 (Hupd row Hrow Hd)) as (f & Hf & Hp & Hl).
        destruct (H6 f Hf) as (_ & Hrec & _). split.
        -- eexists. split; [exact Hl|]. by apply (recorded_holds e t2 f p).
        -- exists f. split; [apply Hpers; by right|]. split; [done|].
           unfold recorded in Hrec. rewrite Hp, Hst in Hrec. by injection Hrec as ->.
    + intros row Hrow Hnd. rewrite S3; [done| |].
      * intros f Hf Hp. by apply Hnd, (Hupd_is f row).
      * intros f Hf Hp. destruct (H5 f Hf) as (Hn & _). rewrite Hp in Hn. congruence.
  - intros p Hvisit Hst. apply Hstat in Hvisit.
    destruct (save_twice_lookup t1 t2 (SystemIndexerThread.new_files (vars w))
                (SystemIndexerThread.updated_files (vars w)) db p) as (_ & _ & S3).
    cbn zeta in *. rewrite remove_deleted_files_lookup, decide_True by done.
    apply S3.
    + intros f Hf Hp. destruct (H6 f Hf) as (_ & Hrec & _).
      unfold recorded in Hrec. rewrite Hp, Hst in Hrec. done.
    + intros f Hf Hp. destruct (H5 f Hf) as (_ & Hrec & _).
      unfold recorded in Hrec. rewrite Hp, Hst in Hrec. done.
  - intros f Hf. apply Hpers in Hf.
    destruct (save_twice_lookup t1 t2 (SystemIndexerThread.new_files (vars w))
                (SystemIndexerThread.updated_files (vars w)) db (FileEntry.path f))
      as (S1 & S2 & _).
    cbn zeta in *.
    assert (Hsame : forall t g, recorded e f -> recorded e g ->
              FileEntry.path g = FileEntry.path f ->
              DatabaseManager.size (DatabaseManager.row_of t g) = FileEntry.size f /\
              DatabaseManager.modified (DatabaseManager.row_of t g) = FileEntry.modified f).
    { intros t g Hrf Hrg Hp. unfold recorded in *. rewrite Hp, Hrf in Hrg.
      injection Hrg as H1 H2. simpl. by rewrite H1, H2. }
    destruct Hf as [Hf|Hf].
    + destruct (H5 f Hf) as (Hnone & Hrec & Hex).
      rewrite remove_deleted_files_lookup, decide_True by done.
      assert (Hno_upd : forall g, g ∈ SystemIndexerThread.updated_files (vars w) ->
                                  FileEntry.path g <> FileEntry.path f).
      { intros g Hg E. destruct (H6 g Hg) as ((row' & Hr' & _) & _).
        rewrite E in Hr'. congruence. }
      destruct (S2 Hno_upd (ex_intro _ f (conj Hf eq_refl))) as (g & Hg & Hp & Hl).
      eexists. split; [exact Hl|]. apply Hsame; [done| |done].
      by destruct (H5 g Hg) as (_ & ? & _).
    + destruct (H6 f Hf) as (_ & Hrec & Hex).
      rewrite remove_deleted_files_lookup, decide_True by done.
      destruct (S1 (ex_intro _ f (conj Hf eq_refl))) as (g & Hg & Hp & Hl).
      eexists. split; [exact Hl|]. apply Hsame; [done| |done].
      by destruct (H6 g Hg) as (_ & ? & _).
Qed.


Lemma incremental_update_prunes_unvisited_paths_witness :
  let r := SystemIndexerThread.incremental_update (Some 3%nat) example_env [example_drive]
             (start (SystemIndexerThread.Self [] (Some example_store))) in
  exists db', SystemIndexerThread.db_manager (vars r) = Some db' /\
    db' !! "/b.txt" = None /\
    os_stat example_env "/b.txt" = Some (7, 20%Q) /\
    exists row', db' !! "/a.txt" = Some row' /\ holds row' (5, 10%Q).
Proof.
  intros r.
  destruct (incremental_update_prunes_unvisited_paths (Some 3%nat) example_env
              [example_drive] [] example_store)
    as (db' & existing & Hdb & _ & _ & H & _ & Hsaved & _).
  exists db'. split; [exact Hdb|]. split; [|split; [reflexivity|]].
  - apply H.
    + exists (DatabaseManager.Row "b.txt" ".txt" 7 20%Q false 0%Q). reflexivity.
    + intros Hin. apply list_elem_of_lookup_1 in Hin as [i Hi].
      vm_compute in Hi.
      do 12 (destruct i as [|i]; [discriminate Hi|]). discriminate Hi.
  - destruct (Hsaved "/a.txt" (5, 10%Q)) as [Hnew _].
    + apply list_elem_of_In. vm_compute. tauto.
    + reflexivity.
    + apply Hnew. right.
      exists (DatabaseManager.Row "a.txt" ".txt" 4 10%Q false 0%Q).
      split; [reflexivity|]. left. simpl. lia.
Defined.

(** ** The deep duplicate scan *)

Lemma dict_Forall_nil {K V} (P : K -> V -> Prop) : dict_Forall P [].
Proof. intros k xs y H. by apply elem_of_nil in H. Qed.

Lemma dict_Forall_append {K V} (P : K -> V -> Prop) (eqb : K -> K -> bool) k x d :
  (forall a b, eqb a b = true -> a = b) ->
  dict_Forall P d -> P k x -> dict_Forall P (dict_append eqb k x d).
Proof.
  intros Heqb Hd Hx. induction d as [|[k' xs'] d IH]; simpl.
  - intros k0 xs y H Hy. apply list_elem_of_singleton in H. injection H as -> ->.
    apply list_elem_of_singleton in Hy. by subst y.
  - assert (Hd' : dict_Forall P d).
    { intros k0 xs y H Hy. apply (Hd k0 xs y); [by apply list_elem_of_further|done]. }
    destruct (eqb k' k) eqn:E.
    + apply Heqb in E. subst k'. intros k0 xs y H Hy.
      apply elem_of_cons in H as [H|H].
      * injection H as -> ->. apply elem_of_app in Hy as [Hy|Hy].
        -- apply (Hd k xs' y); [apply list_elem_of_here|done].
        -- apply list_elem_of_singleton in Hy. by subst y.
      * by apply (Hd' k0 xs y).
    + intros k0 xs y H Hy. apply elem_of_cons in H as [H|H].
      * injection H as -> ->. apply (Hd k' xs' y); [apply list_elem_of_here|done].
      * by apply (IH Hd' k0 xs y).
Qed.

Lemma files_to_hash_bucket size_map p :
  p ∈ DeepDuplicateScannerThread.files_to_hash size_map ->
  exists s paths, (s, paths) ∈ size_map /\ (2 <= length paths)%nat /\ p ∈ paths.
Proof.
  unfold DeepDuplicateScannerThread.files_to_hash.
  rewrite list_elem_of_In, in_concat. intros (paths & Hin & Hp).
  apply list_elem_of_In in Hin. apply list_elem_of_In in Hp.
  apply list_elem_of_fmap in Hin as ([s paths'] & -> & Hin).
  apply list_elem_of_filter in Hin as [Hlen Hin]. simpl in *.
  exists s, paths'. split; [done|]. split; [|done].
  apply Is_true_true in Hlen. apply Nat.ltb_lt in Hlen. lia.
Qed.

Section DeepScan.
Import DeepDuplicateScannerThread.
Context (stop_at : option nat) (e : env).

Lemma sizing_inv_log (r r' : thread locals) a :
  vars r' = vars r -> log r' = log r ++ [a] ->
  (forall p, a <> HashFile p) -> (forall d, a <> Emit (scan_complete d)) ->
  sizing_inv e r -> sizing_inv e r'.
Proof.
  intros Hv Hl Ha1 Ha2 (H1 & H2 & H3). unfold sizing_inv. rewrite Hv, Hl.
  split; [|done]. intros b Hb. apply elem_of_app in Hb as [Hb|Hb]; [by apply H1|].
  apply list_elem_of_singleton in Hb. by subst b.
Qed.

Lemma sizing_inv_emit s r :
  (forall d, s <> scan_complete d) -> sizing_inv e r -> sizing_inv e (emit s r).
Proof.
  intros Hs. apply (sizing_inv_log r _ (Emit s)); [done..|].
  intros d [= E]. by apply (Hs d).
Qed.

Lemma sizing_inv_size_file root filename r :
  sizing_inv e r -> sizing_inv e (thread_of (size_file e root filename r)).
Proof.
  intros Hr. unfold size_file. set (filepath := os_path_join root filename).
  assert (H0 : sizing_inv e (act (OsStat filepath) r))
    by (apply (sizing_inv_log r _ (OsStat filepath)); done).
  destruct (os_stat e filepath) as [[st_size st_mtime]|] eqn:Hst; [|done].
  cbn [thread_of fst snd].
  match goal with
  | |- sizing_inv e (if _ then emit ?s ?r1 else _) =>
      assert (H1 : sizing_inv e r1)
  end.
  { destruct H0 as (H1 & H2 & H3). split; [done|]. split; [done|].
    cbn [vars set_vars act size_map]. destruct (Z.ltb_spec 0 st_size); [|done].
    apply dict_Forall_append; [apply Z.eqb_eq|done|]. split; [done|]. eauto. }
  match goal with |- sizing_inv e (if ?c then _ else _) => destruct c end;
    [|exact H1].
  by apply sizing_inv_emit.
Qed.

Lemma sizing_inv_should_stop r : sizing_inv e r -> sizing_inv e (should_stop stop_at r).2.
Proof. by apply (sizing_inv_log r _ (ReadStop (flag stop_at (reads r)))). Qed.

Lemma hashing_inv_log size_map (r r' : thread locals) a :
  vars r' = vars r -> log r' = log r ++ [a] ->
  (forall p, a = HashFile p -> p ∈ files_to_hash size_map) ->
  (forall d, a <> Emit (scan_complete d)) ->
  hashing_inv e size_map r -> hashing_inv e size_map r'.
Proof.
  intros Hv Hl Ha1 Ha2 (H1 & H2 & H3). unfold hashing_inv. rewrite Hv, Hl.
  split; [done|]. split; [|done].
  intros b Hb. apply elem_of_app in Hb as [Hb|Hb]; [by apply H2|].
  apply list_elem_of_singleton in Hb. by subst b.
Qed.

Lemma hashing_inv_should_stop size_map r :
  hashing_inv e size_map r -> hashing_inv e size_map (should_stop stop_at r).2.
Proof. by apply (hashing_inv_log size_map r _ (ReadStop (flag stop_at (reads r)))). Qed.

Lemma hashing_inv_emit size_map s r :
  (forall d, s <> scan_complete d) ->
  hashing_inv e size_map r -> hashing_inv e size_map (emit s r).
Proof.
  intros Hs. apply (hashing_inv_log size_map r _ (Emit s)); [done..|].
  intros d [= E]. by apply (Hs d).
Qed.

Lemma hashing_inv_hash_one size_map n filepath r :
  filepath ∈ files_to_hash size_map ->
  hashing_inv e size_map r ->
  hashing_inv e size_map (thread_of (hash_one e n filepath r)).
Proof.
  intros Hin Hr. unfold hash_one.
  assert (H0 : hashing_inv e size_map (act (HashFile filepath) r)).
  { apply (hashing_inv_log size_map r _ (HashFile filepath)); [done..| |done|done].
    by intros p [= <-]. }
  destruct (hash_file e filepath) as [file_hash|] eqn:Hh; [|done].
  assert (H1 : hashing_inv e size_map (act (OsStat filepath) (act (HashFile filepath) r)))
    by (apply (hashing_inv_log size_map (act (HashFile filepath) r) _ (OsStat filepath));
        done).
  destruct (os_stat e filepath) as [[st_size st_mtime]|] eqn:Hst; [|done].
  cbn [thread_of fst snd].
  match goal with
  | |- hashing_inv e size_map (if _ then emit ?s ?r1 else _) =>
      assert (H2 : hashing_inv e size_map r1)
  end.
  { destruct H1 as (H1 & H2 & H3). split; [done|]. split; [done|].
    cbn [vars set_vars act hash_map].
    apply dict_Forall_append; [apply String.eqb_eq|done|].
    repeat split; done. }
  match goal with |- hashing_inv e size_map (if ?c then _ else _) => destruct c end;
    [|exact H2].
  by apply hashing_inv_emit.
Qed.
End DeepScan.

(** The buckets and the hash groups behind the log of a deep scan. *)
Lemma deep_scan_outcome stop_at e root_folder :
  let r := DeepDuplicateScannerThread.run stop_at e root_folder in
  exists (size_map : list (Z * list string))
         (hash_map : list (string * list DuplicateFile.t)),
    dict_Forall (sized e) size_map /\
    dict_Forall (hashed e (DeepDuplicateScannerThread.files_to_hash size_map)) hash_map /\
    (forall p, HashFile p ∈ log r ->
       p ∈ DeepDuplicateScannerThread.files_to_hash size_map /\
       DeepDuplicateScannerThread.size_map (vars r) = size_map) /\
    (forall d, Emit (scan_complete d) ∈ log r ->
       d = filter (fun kv => (1 <? length kv.2)%nat) hash_map).
Proof.
  intros r. subst r. unfold DeepDuplicateScannerThread.run.
  set (r0 := emit _ _).
  assert (H0 : sizing_inv e r0).
  { subst r0. apply sizing_inv_emit; [done|].
    split; [|split; [done|apply dict_Forall_nil]].
    intros a Ha. by apply elem_of_nil in Ha. }
  set (f1 := walk_return _ _ _ r0).
  assert (H1 : sizing_inv e (thread_of f1)).
  { apply walk_return_ind; [apply sizing_inv_should_stop| | |done].
    { intros root r1. by apply (sizing_inv_log e r1 _ (Scandir root)). }
    intros [[root dirs] files] r1 _ Hr1.
    unfold DeepDuplicateScannerThread.size_directory.
    apply for_return_ind; [apply sizing_inv_should_stop| |done].
    intros filename r2 _. apply sizing_inv_size_file. }
  destruct f1 as [r1|r1]; simpl in H1.
  2:{ destruct H1 as (Hlog & Hh & Hs).
      exists (DeepDuplicateScannerThread.size_map (vars r1)), [].
      split; [done|]. split; [apply dict_Forall_nil|]. split.
      - intros p Hp. by destruct (Hlog _ Hp) as [H _]; destruct (H p).
      - intros d Hd. by destruct (Hlog _ Hd) as [_ H]; destruct (H d). }
  set (sm := DeepDuplicateScannerThread.size_map (vars r1)).
  set (to_hash := DeepDuplicateScannerThread.files_to_hash sm).
  set (r1' := emit _ r1).
  assert (H1' : hashing_inv e sm r1').
  { destruct H1 as (Hlog & Hh & Hs). subst r1'. apply hashing_inv_emit; [done|].
    split; [done|]. split.
    - intros a Ha. destruct (Hlog _ Ha) as [Hp Hd]. split; [|done].
      intros p ->. by destruct (Hp p).
    - rewrite Hh. apply dict_Forall_nil. }
  set (f2 := for_return _ _ _ r1').
  assert (H2 : hashing_inv e sm (thread_of f2)).
  { apply for_return_ind; [apply hashing_inv_should_stop| |done].
    intros filepath r2 Hin. by apply hashing_inv_hash_one. }
  assert (Hsized : dict_Forall (sized e) sm) by apply H1.
  destruct f2 as [r2|r2]; simpl in H2.
  2:{ destruct H2 as (Hsm & Hlog & Hh).
      exists sm, (DeepDuplicateScannerThread.hash_map (vars r2)).
      split; [done|]. split; [done|]. split.
      - intros p Hp. split; [|done]. by apply (Hlog _ Hp).
      - intros d Hd. by destruct (Hlog _ Hd) as [_ H]; destruct (H d). }
  pose proof (hashing_inv_should_stop stop_at e sm r2 H2) as H3.
  destruct (should_stop stop_at r2) as [b r3] eqn:E3. simpl in H3.
  assert (Hv : vars r3 = vars r2) by (by injection E3 as _ <-).
  rewrite <- Hv.
  destruct H3 as (Hsm & Hlog & Hh).
  exists sm, (DeepDuplicateScannerThread.hash_map (vars r3)).
  split; [done|]. split; [done|].
  destruct b.
  - split.
    + intros p Hp. split; [|done]. by apply (Hlog _ Hp).
    + intros d Hd. by destruct (Hlog _ Hd) as [_ H]; destruct (H d).
  - split.
    + intros p Hp. split; [|done]. apply elem_of_log_act in Hp as [Hp|Hp]; [|done].
      by apply (Hlog _ Hp).
    + intros d Hd. apply elem_of_log_act in Hd as [Hd|Hd].
      * by destruct (Hlog _ Hd) as [_ H]; destruct (H d).
      * by injection Hd.
Qed.

(** C6. In a deep scan, every group handed to [scan_complete] has at
    least two members, each member carries the key of its group as its
    hash and that key is the digest of its content, and no member has
    size 0; and every file that is hashed is in a size bucket of at
    least two paths, all stat'ed with that size. *)
Theorem deep_scan_groups_share_digest :
  forall (stop_at : option nat) (e : env) (root_folder : fs_node),
    let r := DeepDuplicateScannerThread.run stop_at e root_folder in
    (forall duplicates h files,
        Emit (scan_complete duplicates) ∈ log r ->
        (h, files) ∈ duplicates ->
        (2 <= length files)%nat /\
        forall f, f ∈ files ->
          DuplicateFile.hash f = Some h /\
          hash_file e (DuplicateFile.path f) = Some h /\
          0 < DuplicateFile.size f) /\
    (forall p, HashFile p ∈ log r ->
        exists s paths,
          (s, paths) ∈ DeepDuplicateScannerThread.size_map (vars r) /\
          (2 <= length paths)%nat /\ p ∈ paths /\
          forall q, q ∈ paths -> exists m, os_stat e q = Some (s, m)).
Proof.
  intros stop_at e root_folder r.
  destruct (deep_scan_outcome stop_at e root_folder)
    as (sm & hm & Hsized & Hhashed & Hlog & Hdone).
  fold r in Hlog, Hdone. split.
  - intros duplicates h files Hemit Hin. rewrite (Hdone _ Hemit) in Hin.
    apply list_elem_of_filter in Hin as [Hlen Hin]. simpl in Hlen.
    apply Is_true_true, Nat.ltb_lt in Hlen. split; [lia|].
    intros f Hf. destruct (Hhashed h files f Hin Hf) as (Hh & Hd & Hto & Hst).
    split; [done|]. split; [done|].
    destruct (files_to_hash_bucket sm _ Hto) as (s & paths & Hb & _ & Hp).
    destruct (Hsized s paths _ Hb Hp) as (Hpos & m & Hm).
    rewrite Hm in Hst. by injection Hst as <- _.
  - intros p Hp. destruct (Hlog p Hp) as [Hto Hsm]. rewrite Hsm.
    destruct (files_to_hash_bucket sm _ Hto) as (s & paths & Hb & Hlen & Hin).
    exists s, paths. split; [done|]. split; [done|]. split; [done|].
    intros q Hq. by destruct (Hsized s paths q Hb Hq) as (_ & Hm).
Qed.

Lemma deep_scan_groups_share_digest_witness :
  let e := Env (fun p => if String.eqb p "/x.bin" then Some (5, 1%Q)
                         else if String.eqb p "/y.bin" then Some (5, 2%Q)
                         else if String.eqb p "/empty" then Some (0, 3%Q)
                         else None)
               (fun p => Some "d41d") (fun _ => 0%Q) in
  let root := Folder "/" [] ["x.bin"; "y.bin"; "empty"] in
  let x := DuplicateFile.mk "x.bin" "/x.bin" 5 1%Q (Some "d41d") in
  let y := DuplicateFile.mk "y.bin" "/y.bin" 5 2%Q (Some "d41d") in
  (2 <= length [x; y])%nat /\
  forall f, f ∈ [x; y] ->
    DuplicateFile.hash f = Some "d41d" /\
    hash_file e (DuplicateFile.path f) = Some "d41d" /\
    0 < DuplicateFile.size f.
Proof.
  intros e root x y.
  destruct (deep_scan_groups_share_digest None e root) as [H _].
  apply (H [("d41d", [x; y])] "d41d" [x; y]).
  - apply (list_elem_of_lookup_2 _ 17). vm_compute. reflexivity.
  - apply list_elem_of_here.
Defined.


(* ===================================================================== *)
(** * Further properties                                                  *)
(* ===================================================================== *)

(** ** The store, table by table *)

Lemma elem_of_load_file_index (db : DatabaseManager.t) f :
  f ∈ DatabaseManager.load_file_index db
  <-> exists t, db !! FileEntry.path f = Some (DatabaseManager.row_of t f).
Proof.
  unfold DatabaseManager.load_file_index. rewrite list_elem_of_fmap. split.
  - intros ([p [n x s m d t]] & -> & Hin). apply elem_of_map_to_list in Hin.
    exists t. done.
  - intros [t Ht]. apply elem_of_map_to_list in Ht.
    eexists. split; [|exact Ht]. by destruct f.
Qed.

Lemma save_file_index_app t files1 files2 (db : DatabaseManager.t) :
  DatabaseManager.save_file_index t (files1 ++ files2) db
  = DatabaseManager.save_file_index t files2
      (DatabaseManager.save_file_index t files1 db).
Proof. unfold DatabaseManager.save_file_index. apply foldl_app. Qed.

Lemma save_file_index_lookup_Some t files (db : DatabaseManager.t) p row :
  DatabaseManager.save_file_index t files db !! p = Some row ->
  db !! p = Some row \/
  exists f, f ∈ files /\ FileEntry.path f = p /\ row = DatabaseManager.row_of t f.
Proof.
  induction files as [|g files IH] using rev_ind; [by left|].
  rewrite save_file_index_snoc. intros H.
  apply lookup_insert_Some in H as [[<- <-]|[Hne H]].
  - right. exists g. split; [|done]. apply elem_of_app. right. apply list_elem_of_here.
  - destruct (IH H) as [?|(f & Hf & Hp & Hr)]; [by left|].
    right. exists f. split; [|done]. apply elem_of_app. by left.
Qed.

(** X1. A record that is the only one of its path in a batch is read back
    by [load_file_index] as it was saved; and whatever is read back after
    a save was in the batch or was in the store before. *)
Theorem load_file_index_after_save :
  forall (t : Q) (files : list FileEntry.t) (db : DatabaseManager.t) (f : FileEntry.t),
    (f ∈ files ->
     (forall g, g ∈ files -> FileEntry.path g = FileEntry.path f -> g = f) ->
     f ∈ DatabaseManager.load_file_index (DatabaseManager.save_file_index t files db)) /\
    (f ∈ DatabaseManager.load_file_index (DatabaseManager.save_file_index t files db) ->
     f ∈ files \/ f ∈ DatabaseManager.load_file_index db).
Proof.
  intros t files db f. split.
  - intros Hf Huniq. apply elem_of_load_file_index. exists t.
    destruct (save_file_index_saved t files db f Hf) as (f' & Hf' & Hp & Hl).
    by rewrite Hl, (Huniq f' Hf' Hp).
  - intros Hin. apply elem_of_load_file_index in Hin as [t' Hl].
    apply save_file_index_lookup_Some in Hl as [Hl|(g & Hg & Hp & Hr)].
    + right. apply elem_of_load_file_index. eauto.
    + left. destruct f, g. simpl in *. injection Hr as -> -> -> -> -> _.
      by subst.
Qed.

Lemma load_file_index_after_save_witness :
  FileEntry.mk "c.txt" "/c.txt" ".txt" 3 30%Q false
  ∈ DatabaseManager.load_file_index
      (DatabaseManager.save_file_index 99%Q
         [FileEntry.mk "c.txt" "/c.txt" ".txt" 3 30%Q false] example_store).
Proof.
  apply (proj1 (load_file_index_after_save 99%Q
                  [FileEntry.mk "c.txt" "/c.txt" ".txt" 3 30%Q false]
                  example_store _)).
  - apply list_elem_of_here.
  - intros g Hg _. by apply list_elem_of_singleton in Hg.
Defined.

(** X2. The path of every saved record is indexed afterwards, and no
    indexed path is lost by a save. *)
Theorem get_indexed_paths_after_save :
  forall (t : Q) (files : list FileEntry.t) (db : DatabaseManager.t),
    DatabaseManager.get_indexed_paths (DatabaseManager.save_file_index t files db)
    = DatabaseManager.get_indexed_paths db ∪ list_to_set (FileEntry.path <$> files).
Proof.
  intros t files db. unfold DatabaseManager.get_indexed_paths.
  induction files as [|g files IH] using rev_ind.
  - simpl. set_solver.
  - rewrite save_file_index_snoc, dom_insert_L, IH, fmap_app, list_to_set_app_L.
    simpl. set_solver.
Qed.

(** X3. After a save, [get_file_info] of a path gives the size and the
    modification time of the last record of that path in the batch. *)
Theorem get_file_info_after_save :
  forall (t : Q) (before after : list FileEntry.t) (f : FileEntry.t)
         (db : DatabaseManager.t),
    (forall g, g ∈ after -> FileEntry.path g <> FileEntry.path f) ->
    DatabaseManager.get_file_info (FileEntry.path f)
      (DatabaseManager.save_file_index t (before ++ f :: after) db)
    = Some (FileEntry.size f, FileEntry.modified f).
Proof.
  intros t before after f db Hafter.
  rewrite get_file_info_lookup, (save_file_index_app t before (f :: after)).
  rewrite (save_file_index_app t [f] after), save_file_index_other by done.
  unfold DatabaseManager.save_file_index at 1. simpl.
  by rewrite lookup_insert_eq.
Qed.

Lemma get_file_info_after_save_witness :
  DatabaseManager.get_file_info "/a.txt"
    (DatabaseManager.save_file_index 99%Q
       ([FileEntry.mk "a.txt" "/a.txt" ".txt" 5 10%Q false]
        ++ FileEntry.mk "a.txt" "/a.txt" ".txt" 6 11%Q false
        :: [FileEntry.mk "b.txt" "/b.txt" ".txt" 7 20%Q false]) example_store)
  = Some (6, 11%Q).
Proof.
  apply (get_file_info_after_save 99%Q
           [FileEntry.mk "a.txt" "/a.txt" ".txt" 5 10%Q false]
           [FileEntry.mk "b.txt" "/b.txt" ".txt" 7 20%Q false]
           (FileEntry.mk "a.txt" "/a.txt" ".txt" 6 11%Q false) example_store).
  intros g Hg. apply list_elem_of_singleton in Hg. by subst g.
Defined.

(** X4. [remove_deleted_files] keeps exactly the rows whose path is among
    the existing paths, untouched; pruning twice is pruning once. *)
Theorem remove_deleted_files_keeps_existing :
  forall (existing_paths : gset string) (db : DatabaseManager.t),
    let db' := DatabaseManager.remove_deleted_files existing_paths db in
    db' = filter (fun kv => kv.1 ∈ existing_paths) db /\
    DatabaseManager.get_indexed_paths db'
    = DatabaseManager.get_indexed_paths db ∩ existing_paths /\
    DatabaseManager.remove_deleted_files existing_paths db' = db'.
Proof.
  intros ex db db'.
  assert (H1 : db' = filter (fun kv => kv.1 ∈ ex) db).
  { apply map_eq. intros p. subst db'. rewrite remove_deleted_files_lookup.
    destruct (decide (p ∈ ex)) as [Hin|Hnin].
    - destruct (db !! p) as [row|] eqn:E.
      + symmetry. by apply map_lookup_filter_Some.
      + symmetry. apply map_lookup_filter_None. left. done.
    - symmetry. apply map_lookup_filter_None. right. intros row _. done. }
  split; [done|]. split.
  - unfold DatabaseManager.get_indexed_paths. apply set_eq. intros p.
    rewrite elem_of_intersection, !elem_of_dom. subst db'.
    rewrite remove_deleted_files_lookup. destruct (decide (p ∈ ex)).
    + naive_solver.
    + split; [by intros [? ?]|naive_solver].
  - apply map_eq. intros p. rewrite remove_deleted_files_lookup. subst db'.
    rewrite remove_deleted_files_lookup. by destruct (decide (p ∈ ex)).
Qed.

(** X5. [load_selected_extensions] after [save_selected_extensions] gives
    the saved set, whatever the table held before. *)
Theorem selected_extensions_round_trip :
  forall (extensions : gset string) (table : gmap string Z),
    DatabaseManager.load_selected_extensions
      (DatabaseManager.save_selected_extensions extensions table)
    = extensions.
Proof.
  intros extensions table.
  unfold DatabaseManager.load_selected_extensions,
         DatabaseManager.save_selected_extensions.
  assert (Hl : forall (l : list string) (m : gmap string Z) p,
             foldl (fun table ext => <[ext := 1]> table) m l !! p
             = if decide (p ∈ l) then Some 1 else m !! p).
  { induction l as [|x l IH] using rev_ind; intros m p.
    - rewrite decide_False; [done|]. by intros H%elem_of_nil.
    - rewrite foldl_app. simpl. destruct (decide (x = p)) as [->|Hne].
      + rewrite lookup_insert_eq, decide_True; [done|].
        apply elem_of_app. right. apply list_elem_of_here.
      + rewrite lookup_insert_ne, IH by done.
        destruct (decide (p ∈ l)) as [Hin|Hnin].
        * rewrite decide_True; [done|]. apply elem_of_app. by left.
        * rewrite decide_False; [done|]. rewrite elem_of_app, list_elem_of_singleton.
          intros [?|?]; [done|]. by subst. }
  apply set_eq. intros p. rewrite elem_of_dom. split.
  - intros [x Hx]. apply map_lookup_filter_Some in Hx as [Hx _].
    rewrite Hl in Hx. destruct (decide (p ∈ elements extensions)) as [Hin|Hnin].
    + by apply elem_of_elements in Hin.
    + by rewrite lookup_empty in Hx.
  - intros Hin. exists 1. apply map_lookup_filter_Some. split; [|done].
    rewrite Hl, decide_True; [done|]. by apply elem_of_elements.
Qed.

(** X6. The table of preferences.  When the text that [json.dumps] gives
    for a value is read back by [json.loads] as that value, the value
    saved under a key is the one [get_preference] returns for it,
    whatever was there before; the other keys answer as before; and a key
    that was never saved answers with the default. *)
Theorem preference_round_trip :
  forall (V : Type) (dumps : V -> option string) (loads : string -> option V)
         (key : string) (value default : V) (text : string)
         (prefs : gmap string string),
    dumps value = Some text ->
    loads text = Some value ->
    exists prefs',
      DatabaseManager.save_preference dumps key value prefs = Some prefs' /\
      DatabaseManager.get_preference loads key default prefs' = value /\
      (forall other d, other <> key ->
         DatabaseManager.get_preference loads other d prefs'
         = DatabaseManager.get_preference loads other d prefs) /\
      (forall other d, prefs' !! other = None ->
         DatabaseManager.get_preference loads other d prefs' = d).
Proof.
  intros V dumps loads key value default text prefs Hd Hl.
  exists (<[key := text]> prefs).
  unfold DatabaseManager.save_preference, DatabaseManager.get_preference.
  rewrite Hd. split; [done|]. split; [by rewrite lookup_insert_eq, Hl|]. split.
  - intros other d Hne. by rewrite lookup_insert_ne.
  - intros other d ->. done.
Qed.

Lemma preference_round_trip_witness :
  exists prefs',
    DatabaseManager.save_preference
      (fun b : bool => Some (if b then "true" else "false")) "dark" true ∅
    = Some prefs' /\
    DatabaseManager.get_preference
      (fun s => if String.eqb s "true" then Some true
                else if String.eqb s "false" then Some false else None)
      "dark" false prefs' = true.
Proof.
  destruct (preference_round_trip bool
              (fun b : bool => Some (if b then "true" else "false"))
              (fun s => if String.eqb s "true" then Some true
                        else if String.eqb s "false" then Some false else None)
              "dark" true false "true" ∅ eq_refl eq_refl)
    as (prefs' & Hs & Hg & _).
  exists prefs'. split; [exact Hs | exact Hg].
Defined.

Lemma sum_Permutation (l1 l2 : list Z) : l1 ≡ₚ l2 -> sum l1 = sum l2.
Proof. induction 1; simpl; lia. Qed.

(** X7. The statistics of the store after the record of a path that was
    not indexed is saved: one more file, the total size grown by the size
    of the file, and one more extension exactly when no indexed file had
    the extension of the new one. *)
Theorem get_index_stats_after_new_file :
  forall (t : Q) (f : FileEntry.t) (db : DatabaseManager.t),
    db !! FileEntry.path f = None ->
    let '(total_files, total_extensions, total_size) :=
      DatabaseManager.get_index_stats db in
    DatabaseManager.get_index_stats (DatabaseManager.save_file_index t [f] db)
    = (S total_files,
       if decide (exists p row, db !! p = Some row /\
                    DatabaseManager.extension row = FileEntry.extension f)
       then total_extensions else S total_extensions,
       total_size + FileEntry.size f).
Proof.
  intros t f db Hnew. unfold DatabaseManager.get_index_stats.
  change (DatabaseManager.save_file_index t [f] db)
    with (<[FileEntry.path f := DatabaseManager.row_of t f]> db).
  pose proof (map_to_list_insert db _ (DatabaseManager.row_of t f) Hnew) as Hp.
  assert (Hrows : (map_to_list (<[FileEntry.path f := DatabaseManager.row_of t f]> db)).*2
                  ≡ₚ DatabaseManager.row_of t f :: (map_to_list db).*2).
  { by rewrite Hp. }
  set (rows' := (map_to_list (<[_ := _]> db)).*2) in *.
  set (rows := (map_to_list db).*2) in *.
  f_equal; [f_equal|].
  - by rewrite Hrows.
  - assert (Hset : (list_to_set (DatabaseManager.extension <$> rows') : gset string)
                   = {[FileEntry.extension f]}
                     ∪ list_to_set (DatabaseManager.extension <$> rows)).
    { apply set_eq. intros x. rewrite elem_of_list_to_set, Hrows.
      rewrite fmap_cons, elem_of_cons, elem_of_union, elem_of_singleton,
        elem_of_list_to_set. by destruct f. }
    rewrite Hset.
    assert (Hiff : (exists p row, db !! p = Some row /\
                      DatabaseManager.extension row = FileEntry.extension f)
                   <-> FileEntry.extension f
                        ∈ (list_to_set (DatabaseManager.extension <$> rows) : gset string)).
    { rewrite elem_of_list_to_set, list_elem_of_fmap. split.
      - intros (p & row & Hl & He). exists row. split; [done|].
        apply list_elem_of_fmap. exists (p, row). split; [done|].
        by apply elem_of_map_to_list.
      - intros (row & He & Hin). apply list_elem_of_fmap in Hin as ([p row'] & -> & Hin).
        apply elem_of_map_to_list in Hin. by exists p, row'. }
    case_decide as Hd.
    + apply Hiff in Hd. f_equal. set_solver.
    + rewrite Hiff in Hd. rewrite size_union by set_solver.
      by rewrite size_singleton.
  - change (foldr Z.add 0) with sum.
    rewrite (sum_Permutation _ (DatabaseManager.size <$>
               DatabaseManager.row_of t f :: rows)) by by rewrite Hrows.
    rewrite fmap_cons. unfold sum. cbn [foldr]. destruct f. simpl. lia.
Qed.

Lemma get_index_stats_after_new_file_witness :
  DatabaseManager.get_index_stats
    (DatabaseManager.save_file_index 99%Q
       [FileEntry.mk "z.log" "/z.log" ".log" 4 1%Q false] ∅)
  = (1%nat, 1%nat, 4).
Proof.
  exact (get_index_stats_after_new_file 99%Q
           (FileEntry.mk "z.log" "/z.log" ".log" 4 1%Q false) ∅ (lookup_empty _)).
Defined.

(** ** Duplicate groups *)

Lemma sum_nonneg (l : list Z) : Forall (fun x => 0 <= x) l -> 0 <= sum l.
Proof. induction 1; simpl; lia. Qed.

Lemma maximum_elem_of (x : Z) (l : list Z) : maximum (x :: l) ∈ x :: l.
Proof.
  simpl. induction l as [|y l IH]; simpl; [apply list_elem_of_here|].
  destruct (Z.max_spec y (foldr Z.max x l)) as [[_ ->]|[_ ->]].
  - apply elem_of_cons in IH as [->|IH]; [apply list_elem_of_here|].
    by do 2 apply list_elem_of_further.
  - apply list_elem_of_further, list_elem_of_here.
Qed.

(** X8. When no member has a negative size, [wasted_space] lies between 0
    and [total_size]; when all members have the same size, it is that
    size times the number of members but one. *)
Theorem wasted_space_bounds :
  forall g : DuplicateGroup.t,
    (Forall (fun f => 0 <= DuplicateFile.size f) (DuplicateGroup.files g) ->
     0 <= DuplicateGroup.wasted_space g <= DuplicateGroup.total_size g) /\
    (forall s,
       Forall (fun f => DuplicateFile.size f = s) (DuplicateGroup.files g) ->
       DuplicateGroup.wasted_space g = Z.of_nat (DuplicateGroup.count g - 1) * s).
Proof.
  intros [k fs].
  unfold DuplicateGroup.wasted_space, DuplicateGroup.total_size, DuplicateGroup.count.
  cbn [DuplicateGroup.files].
  destruct fs as [|f1 fs].
  { split; [done|]. intros s _. simpl. lia. }
  destruct fs as [|f2 fs].
  { split.
    - intros H. apply Forall_cons in H as [H _]. simpl. lia.
    - intros s _. simpl. lia. }
  change (length (f1 :: f2 :: fs) <=? 1)%nat with false. cbv iota.
  rewrite sum_drop1, sum_sorted_reverse.
  set (sizes := map DuplicateFile.size (f1 :: f2 :: fs)).
  assert (Hmax : head_or 0 (sorted_reverse sizes) ∈ sizes).
  { subst sizes. cbn [map]. rewrite head_sorted_reverse. apply maximum_elem_of. }
  split.
  - intros H.
    assert (Hs : Forall (fun x => 0 <= x) sizes).
    { subst sizes. apply Forall_fmap. exact H. }
    pose proof (proj1 (Forall_forall _ _) Hs _ Hmax) as Hm.
    set (m := head_or 0 (sorted_reverse sizes)) in *.
    apply list_elem_of_split in Hmax as (l1 & l2 & E).
    clearbody m sizes. subst sizes. apply Forall_app in Hs as [H1 H2].
    apply Forall_cons in H2 as [_ H2].
    apply sum_nonneg in H1, H2.
    assert (Hsum : forall a b : list Z, sum (a ++ b) = sum a + sum b).
    { intros a b. induction a as [|x a IH]; simpl; lia. }
    rewrite Hsum. simpl in *. lia.
  - intros s H.
    assert (Hs : Forall (fun x => x = s) sizes).
    { subst sizes. apply Forall_fmap. exact H. }
    rewrite (proj1 (Forall_forall _ _) Hs _ Hmax).
    assert (Hsum : sum sizes = Z.of_nat (length sizes) * s).
    { clear -Hs. induction Hs as [|x l -> _ IH]; simpl; [done|].
      change (foldr Z.add 0 l) with (sum l). rewrite IH. lia. }
    rewrite Hsum. subst sizes. rewrite length_map. simpl length. lia.
Qed.

Lemma wasted_space_bounds_witness :
  DuplicateGroup.wasted_space
    (DuplicateGroup.mk "k" [DuplicateFile.mk "a" "/a" 7 0%Q None;
                            DuplicateFile.mk "b" "/b" 7 0%Q None;
                            DuplicateFile.mk "c" "/c" 7 0%Q None]) = 2 * 7.
Proof.
  exact (proj2 (wasted_space_bounds
                  (DuplicateGroup.mk "k" [DuplicateFile.mk "a" "/a" 7 0%Q None;
                                          DuplicateFile.mk "b" "/b" 7 0%Q None;
                                          DuplicateFile.mk "c" "/c" 7 0%Q None]))
               7 ltac:(repeat constructor)).
Defined.

(** ** Search: the batches *)

Lemma lower_empty s : String.eqb (lower s) "" = String.eqb s "".
Proof. by destruct s. Qed.

Lemma batches_app l1 l2 : batches (l1 ++ l2) = batches l1 ++ batches l2.
Proof. apply omap_app. Qed.

Lemma batches_read l b : batches (l ++ [ReadStop b]) = batches l.
Proof. rewrite batches_app. apply app_nil_r. Qed.

Lemma batches_results l b : batches (l ++ [Emit (results_ready b)]) = batches l ++ [b].
Proof. by rewrite batches_app. Qed.

Section SearchBatches.
Import FileSearchThread.
Variable self : FileSearchThread.t.

Local Abbreviation matches := (search_matches self).
Local Abbreviation batched := (batched self).

Lemma visit_matches e (r : thread (list FileEntry.t)) :
  visit self e r
  = if matches e then
      let results := vars r ++ [e] in
      if (length results mod 100 =? 0)%nat
      then set_vars [] (emit (results_ready results) r)
      else set_vars results r
    else r.
Proof.
  unfold visit, search_matches.
  destruct (str_in (query self) (lower (FileEntry.name e))); [|done].
  by destruct (String.eqb (folder_filter self) ""
               || str_in (folder_filter self) (lower (FileEntry.path e))).
Qed.

Lemma batched_visit xs e r :
  batched xs r -> batched (xs ++ [e]) (visit self e (should_stop None r).2).
Proof.
  intros (Hc & Hlen & Hfull). unfold batched.
  rewrite filter_app, <- Hc, visit_matches. cbn [should_stop snd vars].
  destruct (matches e) eqn:Hme.
  2:{ rewrite filter_cons_False, filter_nil, app_nil_r by congruence.
      cbn [log]. rewrite batches_read. done. }
  rewrite filter_cons_True, filter_nil by done. cbv zeta.
  destruct (Nat.eqb_spec (length (vars r ++ [e]) mod 100) 0) as [Hm|Hm].
  - cbn [set_vars emit act log vars reads].
    rewrite batches_results, batches_read, concat_app. cbn [concat].
    rewrite !app_nil_r.
    split; [by rewrite app_assoc|]. split; [simpl; lia|].
    apply Forall_app. split; [done|]. constructor; [|done].
    rewrite length_app in Hm |- *. cbn [length] in *.
    assert (length (vars r) + 1 = 100 \/ length (vars r) + 1 < 100)%nat as [?|Hlt] by lia;
      [done|].
    rewrite Nat.mod_small in Hm by done. lia.
  - cbn [set_vars log vars reads]. rewrite batches_read.
    split; [by rewrite app_assoc|]. split; [|done].
    rewrite length_app in Hm |- *. cbn [length] in *.
    assert (length (vars r) + 1 = 100 \/ length (vars r) + 1 < 100)%nat as [E|?] by lia;
      [|done].
    rewrite E in Hm. done.
Qed.

Lemma batched_loop xs :
  batched xs (for_break None (visit self) xs (start [])).
Proof.
  rewrite for_break_None.
  induction xs as [|e xs IH] using rev_ind.
  - repeat split; simpl; [lia|constructor].
  - rewrite foldl_app. apply batched_visit, IH.
Qed.
End SearchBatches.

(** X9. A search that is not stopped delivers, in the order of the index
    and without repetition, exactly the records that satisfy the search
    predicate (the query in the name and, when a folder filter is given,
    the filter in the path); every batch but the last carries 100
    records, and the last one carries between 1 and 100. *)
Theorem search_batches :
  forall (index : list FileEntry.t) (query folder_filter : string),
    let bs := batches (log (FileSearchThread.run None
                              (FileSearchThread.init index query folder_filter))) in
    concat bs = filter (fun e => search_predicate query folder_filter e = true) index /\
    Forall (fun b => length b = 100%nat) (take (length bs - 1) bs) /\
    Forall (fun b => 0 < length b <= 100)%nat bs.
Proof.
  intros index query folder_filter bs. subst bs.
  set (self := FileSearchThread.init index query folder_filter).
  destruct (batched_loop self index) as (Hc & Hlen & Hfull).
  unfold FileSearchThread.run. change (FileSearchThread.index self) with index.
  set (r := for_break None _ index _) in *.
  assert (Hf : filter (fun e => search_predicate query folder_filter e = true) index
               = concat (batches (log r)) ++ vars r).
  { rewrite Hc. apply list_filter_iff. intros e. unfold search_predicate, search_matches.
    subst self. cbn [FileSearchThread.init FileSearchThread.query
                     FileSearchThread.folder_filter].
    by rewrite lower_empty. }
  rewrite Hf. clear Hf Hc.
  assert (Hpos : Forall (fun b => 0 < length b <= 100)%nat (batches (log r))).
  { eapply Forall_impl; [exact Hfull|]. simpl. intros b ->. lia. }
  destruct (vars r) as [|e results] eqn:Ev.
  - rewrite should_stop_None. cbn [emit act log].
    assert (Hb : forall l s, batches (l ++ [ReadStop false] ++ [Emit (search_complete s)])
                             = batches l).
    { intros l s. rewrite batches_app. apply app_nil_r. }
    rewrite <- app_assoc, Hb, app_nil_r. split; [done|]. split; [|done].
    by apply Forall_take.
  - rewrite !should_stop_None. cbn [emit act log vars reads].
    assert (Hb : forall l s, batches (l ++ [ReadStop false] ++ [Emit (search_complete s)])
                             = batches l).
    { intros l s. rewrite batches_app. apply app_nil_r. }
    rewrite <- (app_assoc _ [ReadStop false] [Emit (search_complete _)]), Hb.
    rewrite batches_results, batches_read, Ev.
    rewrite concat_app. cbn [concat]. rewrite app_nil_r. split; [done|].
    split.
    + rewrite length_app. simpl. rewrite Nat.add_sub, take_app_length. done.
    + apply Forall_app. split; [done|]. constructor; [|done]. simpl in *. lia.
Qed.

(** ** Threads that halt at the flag *)

Section Halting.
Context {L : Type} (stop_at : option nat).

Lemma halting_start (v : L) : halting stop_at (start v).
Proof.
  split.
  - intros l1 l2 H. by destruct l1.
  - intros H. by apply elem_of_nil in H.
Qed.

Lemma halting_running (r : thread L) : ~ stopped (log r) -> halting stop_at r.
Proof.
  intros Hn. split; [|done].
  intros l1 l2 E. destruct Hn. unfold stopped. rewrite E.
  apply elem_of_app. right. apply list_elem_of_here.
Qed.

Lemma halting_should_stop (r : thread L) :
  halting stop_at r -> halting stop_at (should_stop stop_at r).2.
Proof.
  intros [Hh Hf]. unfold should_stop. cbn [snd log reads]. split.
  - intros l1 l2 E. apply snoc_eq_app_cons in E as [(-> & _ & _)|(l2' & -> & E)];
      [constructor|].
    apply Forall_app. split; [by apply (Hh l1)|].
    constructor; [|done]. f_equal. apply Hf. unfold stopped. rewrite E.
    apply elem_of_app. right. apply list_elem_of_here.
  - intros Hs. apply elem_of_app in Hs as [Hs|Hs].
    + by apply flag_mono, Hf.
    + apply list_elem_of_singleton in Hs. injection Hs as Hs.
      by apply flag_mono.
Qed.

Lemma running_should_stop (r : thread L) :
  ~ stopped (log r) -> (should_stop stop_at r).1 = false ->
  ~ stopped (log (should_stop stop_at r).2).
Proof.
  unfold should_stop. cbn [fst snd log]. intros Hn Hb Hs.
  apply elem_of_app in Hs as [Hs|Hs]; [done|].
  apply list_elem_of_singleton in Hs. congruence.
Qed.

Lemma stopped_dec (l : list action) : {stopped l} + {~ stopped l}.
Proof.
  unfold stopped. induction l as [|a l [IH|IH]].
  - right. by intros H%elem_of_nil.
  - left. by apply list_elem_of_further.
  - destruct a as [[|]| | | | | | | | |];
      first [ left; apply list_elem_of_here
            | right; intros H; apply elem_of_cons in H as [H|H]; [discriminate|done] ].
Qed.

Lemma halting_for_break {X} (body : X -> thread L -> thread L) xs r :
  (forall x r, ~ stopped (log r) -> ~ stopped (log (body x r))) ->
  halting stop_at r -> halting stop_at (for_break stop_at body xs r).
Proof.
  intros Hbody. revert r. induction xs as [|x xs IH]; intros r Hr; [done|].
  cbn [for_break].
  pose proof (halting_should_stop r Hr) as H1.
  pose proof (running_should_stop r) as H2.
  destruct (should_stop stop_at r) as [b r1] eqn:E. cbn [fst snd] in *.
  destruct b; [done|].
  apply IH. destruct (stopped_dec (log r)) as [Hs|Hn].
  - exfalso. destruct Hr as [_ Hf]. specialize (Hf Hs).
    unfold should_stop in E. injection E as E _. congruence.
  - apply halting_running, Hbody, H2; done.
Qed.
End Halting.

Lemma running_act {L} a (r : thread L) :
  a <> ReadStop true -> ~ stopped (log r) -> ~ stopped (log (act a r)).
Proof.
  intros Ha Hn Hs. cbn [act log] in Hs. apply elem_of_app in Hs as [Hs|Hs]; [done|].
  apply list_elem_of_singleton in Hs. done.
Qed.

Lemma halting_last_emit {L} stop_at (s : thread L -> signal) (r : thread L) :
  halting stop_at r ->
  halting stop_at (let '(b, r1) := should_stop stop_at r in
                   if b then r1 else emit (s r1) r1).
Proof.
  intros Hr.
  pose proof (halting_should_stop stop_at r Hr) as H1.
  pose proof (running_should_stop stop_at r) as H2.
  destruct (should_stop stop_at r) as [b r1] eqn:E. cbn [fst snd] in *.
  destruct b; [done|].
  destruct (stopped_dec (log r)) as [Hs|Hn].
  - exfalso. destruct Hr as [_ Hf]. specialize (Hf Hs).
    unfold should_stop in E. injection E as E _. congruence.
  - apply halting_running, running_act; [done|]. by apply H2.
Qed.

(** X10. Once a read of the flag has seen it set, a search and a deletion
    batch do nothing but read the flag again: no batch of results (not
    even the one being collected), no removal, no progress and no
    completion signal follows. *)
Theorem search_and_deletion_halt_at_stop :
  forall stop_at : option nat,
    (forall self, halted_after_stop (log (FileSearchThread.run stop_at self))) /\
    (forall files_to_delete disk,
        halted_after_stop (log (FileDeletionThread.run stop_at files_to_delete disk))).
Proof.
  intros stop_at. split.
  - intros self. unfold FileSearchThread.run.
    set (r := for_break _ _ _ _).
    assert (Hr : halting stop_at r).
    { apply halting_for_break; [|apply halting_start].
      intros e r0 Hn. unfold FileSearchThread.visit.
      repeat match goal with |- context [if ?c then _ else _] => destruct c end;
        try done.
      apply (running_act (Emit _) r0); done. }
    set (r' := match vars r with [] => r | _ :: _ => _ end).
    assert (Hr' : halting stop_at r').
    { subst r'. destruct (vars r) as [|e results]; [done|].
      apply (halting_last_emit stop_at (fun r1 => results_ready (vars r1)) r Hr). }
    apply (halting_last_emit stop_at (fun _ => search_complete _) r' Hr').
  - intros files disk. unfold FileDeletionThread.run.
    set (r := for_break _ _ _ _).
    assert (Hr : halting stop_at r).
    { apply halting_for_break; [|apply halting_start].
      intros [i f] r0 Hn. unfold FileDeletionThread.attempt.
      destruct (_ !! _) as [[w rm]|]; [|done]. destruct w; [|done]. cbn [negb writable removable].
      destruct rm; apply (running_act (Emit _)); try done;
        cbn [set_vars log]; apply (running_act (OsRemove _) r0); done. }
    apply (halting_last_emit stop_at
             (fun r1 => deletion_complete
                          (FileDeletionThread.deleted_count (vars r1))
                          (FileDeletionThread.failed_count (vars r1))) r Hr).
Qed.

(** ** Deletion: the progress signals *)

Lemma log_deletion_loop disk total (items : list (nat * DuplicateFile.t))
    (r : thread FileDeletionThread.locals) :
  NoDup ((fun it => DuplicateFile.path it.2) <$> items) ->
  (forall it, it ∈ items ->
     FileDeletionThread.files_on_disk (vars r) !! DuplicateFile.path it.2
     = disk !! DuplicateFile.path it.2) ->
  log (for_break None (FileDeletionThread.attempt total) items r)
  = log r ++ concat (attempt_log disk total <$> items).
Proof.
  revert r. induction items as [|[i f] items IH]; intros r Hnd Hdisk.
  { simpl. by rewrite app_nil_r. }
  cbn [for_break]. rewrite should_stop_None.
  apply NoDup_cons in Hnd as [Hnin Hnd].
  rewrite IH; [|done|].
  - rewrite fmap_cons. cbn [concat]. rewrite app_assoc. f_equal.
    pose proof (Hdisk (i, f) (list_elem_of_here _ _)) as Hd. cbn [snd] in Hd.
    unfold attempt_log, FileDeletionThread.attempt. cbn [fst snd vars].
    rewrite Hd.
    destruct (disk !! DuplicateFile.path f) as [[w rm]|]; cbn [set_vars log];
      [|done].
    destruct w; cbn [negb writable removable set_vars log]; [|done].
    destruct rm; cbn [emit act set_vars log]; by rewrite <- !app_assoc.
  - intros it Hit.
    assert (Hne : DuplicateFile.path it.2 <> DuplicateFile.path f).
    { intros E. apply Hnin. cbn [snd]. rewrite <- E.
      apply list_elem_of_fmap. by exists it. }
    rewrite <- (Hdisk it) by by apply list_elem_of_further.
    unfold FileDeletionThread.attempt. cbn [vars snd].
    destruct (_ !! DuplicateFile.path f) as [[w rm]|]; cbn [set_vars vars];
      [|done].
    destruct w; cbn [negb writable removable set_vars vars]; [|done].
    destruct rm; cbn [emit act set_vars vars FileDeletionThread.files_on_disk
                      FileDeletionThread.failed]; [|done].
    by rewrite lookup_delete_ne.
Qed.

(** X11. The log of a deletion batch of distinct paths that is not
    stopped: for each file in turn, a read of the flag and, only when the
    file exists and is writable, [os.remove] followed by the progress
    signal that carries the position of the file (from 1) and the size of
    the batch, whether the removal succeeded or raised; then the
    completion signal. *)
Theorem deletion_progress_follows_each_removal :
  forall (files : list DuplicateFile.t) (disk : gmap string file_mode),
    NoDup (DuplicateFile.path <$> files) ->
    let r := FileDeletionThread.run None files disk in
    log r
    = concat (attempt_log disk (length files) <$> enumerate files)
      ++ [ReadStop false;
          Emit (deletion_complete (FileDeletionThread.deleted_count (vars r))
                                  (FileDeletionThread.failed_count (vars r)))].
Proof.
  intros files disk Hnd r. subst r. unfold FileDeletionThread.run.
  rewrite should_stop_None. cbn [emit act log vars].
  rewrite log_deletion_loop with (disk := disk).
  - simpl. by rewrite <- app_assoc.
  - assert (E : (fun it : nat * DuplicateFile.t => DuplicateFile.path it.2)
                <$> enumerate files = DuplicateFile.path <$> files).
    { apply enumerate_paths. }
    by rewrite E.
  - done.
Qed.

Lemma deletion_progress_follows_each_removal_witness :
  log (FileDeletionThread.run None
         [DuplicateFile.mk "old.txt" "/tmp/old.txt" 10 0%Q None;
          DuplicateFile.mk "copy.txt" "/tmp/copy.txt" 10 0%Q None]
         {[ "/tmp/copy.txt" := FileMode true true ]})
  = [ReadStop false; ReadStop false; OsRemove "/tmp/copy.txt";
     Emit (deletion_progress 2 2); ReadStop false; Emit (deletion_complete 1 1)].
Proof.
  etrans.
  - apply (deletion_progress_follows_each_removal
             [DuplicateFile.mk "old.txt" "/tmp/old.txt" 10 0%Q None;
              DuplicateFile.mk "copy.txt" "/tmp/copy.txt" 10 0%Q None]
             {[ "/tmp/copy.txt" := FileMode true true ]}).
    simpl. apply NoDup_cons. split; [|apply NoDup_singleton].
    by intros H%list_elem_of_singleton.
  - vm_compute. reflexivity.
Defined.

(** ** The full index: what is saved *)

Lemma saved_batches_app l1 l2 :
  saved_batches (l1 ++ l2) = saved_batches l1 ++ saved_batches l2.
Proof. apply omap_app. Qed.

Lemma saved_batches_other l a :
  (forall b, a <> SaveFileIndex b) -> saved_batches (l ++ [a]) = saved_batches l.
Proof.
  intros Ha. rewrite saved_batches_app. destruct a; try apply app_nil_r.
  by destruct (Ha files).
Qed.

Lemma saved_batches_save l b :
  saved_batches (l ++ [SaveFileIndex b]) = saved_batches l ++ [b].
Proof. by rewrite saved_batches_app. Qed.

Lemma stored_save e t batch (db : DatabaseManager.t) f :
  Forall (recorded e) batch -> recorded e f ->
  stored db f \/ f ∈ batch ->
  stored (DatabaseManager.save_file_index t batch db) f.
Proof.
  intros Hb Hf Hor. rewrite Forall_forall in Hb.
  assert (Hin : forall g, g ∈ batch -> FileEntry.path g = FileEntry.path f ->
                          stored (DatabaseManager.save_file_index t batch db) f).
  { intros g Hg Hp.
    destruct (save_file_index_saved t batch db g Hg) as (g' & Hg' & Hp' & Hl).
    exists (DatabaseManager.row_of t g'). rewrite <- Hp. split; [done|].
    apply (recorded_holds e t g' (FileEntry.path f)); [by apply Hb|congruence|done]. }
  destruct (decide (FileEntry.path f ∈ FileEntry.path <$> batch)) as [Hp|Hp].
  - apply list_elem_of_fmap in Hp as (g & Hp & Hg). by apply (Hin g).
  - destruct Hor as [(row & Hl & Hh)|Hfb]; [|by apply (Hin f)].
    exists row. split; [|done]. rewrite save_file_index_other; [done|].
    intros g Hg E. apply Hp. rewrite <- E. apply list_elem_of_fmap. by exists g.
Qed.

Section FullIndex.
Import SystemIndexerThread.
Context (stop_at : option nat) (e : env) (index0 : list FileEntry.t)
        (l0 : list action).
Local Abbreviation inv := (full_index_inv e index0 l0).

Lemma full_index_inv_log (r r' : thread full_index_vars) a :
  (forall b, a <> SaveFileIndex b) ->
  log r' = log r ++ [a] -> vars r' = vars r -> inv r -> inv r'.
Proof.
  intros Ha Hl Hv (bs & H). exists bs. rewrite Hl, Hv, saved_batches_other by done.
  exact H.
Qed.

Lemma full_index_inv_should_stop r : inv r -> inv (should_stop stop_at r).2.
Proof. by apply full_index_inv_log with (a := ReadStop (flag stop_at (reads r))). Qed.

Lemma full_index_inv_act a r :
  (forall b, a <> SaveFileIndex b) -> inv r -> inv (act a r).
Proof. intros Ha. by apply full_index_inv_log with (a := a). Qed.

Lemma full_index_inv_index_file root filename r :
  inv r -> inv (index_file e root filename r).
Proof.
  intros Hr. unfold index_file. set (filepath := os_path_join root filename).
  pose proof (full_index_inv_act (OsStat filepath) r ltac:(done) Hr) as Hr1.
  destruct (os_stat e filepath) as [st|] eqn:Hst; [|exact Hr1].
  cbv zeta. cbn [act vars].
  set (entry := new_entry filename filepath st).
  assert (He : indexed_record e entry).
  { split; [by apply recorded_new_entry|]. done. }
  destruct Hr as (bs & H1 & H2 & H3 & H4 & H5 & H6 & H7).
  destruct (Nat.leb_spec batch_size (length (batch (vars r) ++ [entry]))) as [Hfull|Hless].
  - unfold save.
    exists (bs ++ [batch (vars r) ++ [entry]]).
    cbn [emit act set_vars log vars fi_index fi_db total_files batch].
    rewrite concat_app. cbn [concat]. rewrite !app_nil_r.
    rewrite saved_batches_other by done.
    rewrite saved_batches_save, saved_batches_other by done.
    rewrite H1, H2, H5. rewrite <- !app_assoc.
    split; [done|]. split; [done|]. split; [unfold batch_size; simpl; lia|].
    split.
    { apply Forall_app. split; [done|]. constructor; [|done].
      rewrite length_app in Hfull |- *. unfold batch_size in *. simpl in *. lia. }
    split; [rewrite !length_app; simpl; lia|].
    assert (Hall : Forall (indexed_record e) (concat bs ++ batch (vars r) ++ [entry])).
    { rewrite app_assoc. apply Forall_app. split; [done|]. by constructor. }
    split; [done|].
    rewrite Forall_forall. intros f Hf.
    assert (Hrec : forall g, g ∈ concat bs ++ batch (vars r) ++ [entry] -> recorded e g).
    { intros g Hg. by apply (proj1 (Forall_forall _ _) Hall g Hg). }
    apply (stored_save e).
    + rewrite Forall_forall. intros g Hg. apply Hrec, elem_of_app. by right.
    + by apply Hrec.
    + apply elem_of_app in Hf as [Hf|Hf]; [left|by right].
      by apply (proj1 (Forall_forall _ _) H7).
  - exists bs. cbn [act set_vars log vars fi_index fi_db total_files batch].
    rewrite saved_batches_other by done.
    rewrite H1, H2, H5. rewrite <- !app_assoc.
    split; [done|]. split; [done|]. split; [done|]. split; [done|].
    split; [rewrite !length_app; simpl; lia|].
    split; [|done].
    rewrite app_assoc. apply Forall_app. split; [done|]. by constructor.
Qed.

Lemma full_index_inv_loops drives r :
  inv r -> inv (for_break stop_at (index_drive stop_at e) drives r).
Proof.
  apply for_break_ind; [apply full_index_inv_should_stop|].
  intros drive r1 _ H1. unfold index_drive.
  apply walk_break_ind.
  - apply full_index_inv_should_stop.
  - intros root r2. by apply full_index_inv_act.
  - intros [[root dirs] files] r2 _ H2. unfold index_directory.
    apply for_break_ind; [apply full_index_inv_should_stop| |done].
    intros filename r3 _. apply full_index_inv_index_file.
  - by apply full_index_inv_act.
Qed.
End FullIndex.

(** X12. Stopped or not, a full index saves everything it has added to
    the index: the records added are, in order, the batches handed to
    [save_file_index]; every batch but the last has 500 records and the
    last has between 1 and 500; every record carries what [os.stat]
    answers for its path, is not a directory and has the lower-cased
    extension of its name; and the store ends with a row of its size and
    time. *)
Theorem full_index_saves_what_it_indexes :
  forall (stop_at : option nat) (e : env) (drives : list fs_node)
         (index : list FileEntry.t) (db : DatabaseManager.t) (r0 : thread unit),
    let r := SystemIndexerThread.full_index stop_at e drives index db r0 in
    exists bs db',
      SystemIndexerThread.index (vars r) = index ++ concat bs /\
      SystemIndexerThread.db_manager (vars r) = Some db' /\
      saved_batches (log r) = saved_batches (log r0) ++ bs /\
      Forall (fun b => length b = 500%nat) (take (length bs - 1) bs) /\
      Forall (fun b => 0 < length b <= 500)%nat bs /\
      Forall (fun f => indexed_record e f /\ stored db' f) (concat bs).
Proof.
  intros stop_at e drives index db r0 r. subst r.
  unfold SystemIndexerThread.full_index.
  set (r1 := for_break _ _ _ _).
  assert (H1 : full_index_inv e index (log r0) r1).
  { apply full_index_inv_loops. exists []. simpl. rewrite !app_nil_r.
    repeat split; try done. unfold SystemIndexerThread.batch_size. lia. }
  destruct H1 as (bs & H1 & H2 & H3 & H4 & H5 & H6 & H7).
  unfold SystemIndexerThread.batch_size in *.
  assert (Hpos : Forall (fun b => 0 < length b <= 500)%nat bs).
  { eapply Forall_impl; [exact H4|]. simpl. intros b ->. lia. }
  destruct (SystemIndexerThread.batch (vars r1)) as [|f batch] eqn:Eb.
  - exists bs, (SystemIndexerThread.fi_db (vars r1)).
    rewrite app_nil_r in H1, H6.
    destruct (should_stop stop_at r1) as [b r2] eqn:Es.
    assert (Hl : saved_batches (log (if b then r2 else
                   emit (indexing_complete (SystemIndexerThread.total_files (vars r1))) r2))
                 = saved_batches (log r1)).
    { unfold should_stop in Es. injection Es as <- <-.
      destruct (flag stop_at (reads r1)); cbn [emit act log];
        by rewrite !saved_batches_other. }
    cbn [set_vars vars log SystemIndexerThread.index SystemIndexerThread.db_manager].
    rewrite Hl. split; [done|]. split; [done|]. split; [done|].
    split; [by apply Forall_take|]. split; [done|].
    rewrite Forall_forall in H6, H7 |- *. intros g Hg. split; [by apply H6|by apply H7].
  - unfold SystemIndexerThread.save.
    set (db' := DatabaseManager.save_file_index _ _ _).
    set (r2 := act (SaveFileIndex (f :: batch)) r1).
    exists (bs ++ [f :: batch]), db'.
    rewrite concat_app. cbn [concat]. rewrite app_nil_r.
    destruct (should_stop stop_at r2) as [b r3] eqn:Es.
    assert (Hl : saved_batches (log (if b then r3 else
                   emit (indexing_complete (SystemIndexerThread.total_files (vars r1))) r3))
                 = saved_batches (log r1) ++ [f :: batch]).
    { unfold should_stop in Es. injection Es as <- <-. subst r2.
      cbn [act reads]. destruct (flag stop_at (reads r1)); cbn [emit act log];
        rewrite !saved_batches_other by done; apply saved_batches_save. }
    cbn [set_vars vars log SystemIndexerThread.index SystemIndexerThread.db_manager].
    rewrite Hl, H2, <- app_assoc. split; [done|]. split; [done|]. split; [done|].
    split.
    { rewrite length_app. simpl. by rewrite Nat.add_sub, take_app_length. }
    split.
    { apply Forall_app. split; [done|]. constructor; [|done]. simpl in *. lia. }
    rewrite Forall_forall in H6 |- *. intros g Hg. split; [by apply H6|].
    subst db'. apply (stored_save e).
    + rewrite Forall_forall. intros g' Hg'. apply H6, elem_of_app. by right.
    + by apply H6.
    + apply elem_of_app in Hg as [Hg|Hg]; [left|by right].
      by apply (proj1 (Forall_forall _ _) H7).
Qed.

(** ** The full index: what is walked *)

Lemma for_break_None_obs {X L A} (obs : thread L -> list A) (g : X -> list A)
    (body : X -> thread L -> thread L) xs r :
  (forall r, obs (should_stop None r).2 = obs r) ->
  (forall x r, obs (body x r) = obs r ++ g x) ->
  obs (for_break None body xs r) = obs r ++ concat (g <$> xs).
Proof.
  intros Hstop Hbody. revert r. induction xs as [|x xs IH]; intros r.
  { simpl. by rewrite app_nil_r. }
  cbn [for_break]. specialize (Hstop r). rewrite should_stop_None in Hstop |- *.
  cbn [snd] in Hstop. by rewrite IH, Hbody, Hstop, fmap_cons, <- app_assoc.
Qed.

Lemma walk_break_None_obs {L A} (obs : thread L -> list A)
    (g : string * list string * list string -> list A) body items r :
  (forall r, obs (should_stop None r).2 = obs r) ->
  (forall root r, obs (act (Scandir root) r) = obs r) ->
  (forall x r, obs (body x r) = obs r ++ g x) ->
  obs (walk_break None body items r) = obs r ++ concat (g <$> items).
Proof.
  intros Hstop Hscan Hbody. revert r. induction items as [|x xs IH]; intros r.
  { simpl. by rewrite app_nil_r. }
  cbn [walk_break]. specialize (Hstop (act (Scandir x.1.1) r)).
  rewrite should_stop_None in Hstop |- *. cbn [snd] in Hstop.
  by rewrite IH, Hbody, Hstop, Hscan, fmap_cons, <- app_assoc.
Qed.

Lemma stats_app l1 l2 : stats (l1 ++ l2) = stats l1 ++ stats l2.
Proof. apply omap_app. Qed.

Lemma stats_other l a :
  (forall p, a <> OsStat p) -> stats (l ++ [a]) = stats l.
Proof.
  intros Ha. rewrite stats_app. destruct a; try apply app_nil_r.
  by destruct (Ha filepath).
Qed.

Lemma concat_fmap_singleton {A B} (f : A -> B) (l : list A) :
  concat ((fun x => [f x]) <$> l) = f <$> l.
Proof.
  induction l as [|x l IH]; [done|].
  rewrite !fmap_cons. cbn [concat app]. by rewrite IH.
Qed.

Lemma concat_fmap_concat {A B} (g : A -> list B) (ls : list (list A)) :
  concat (g <$> concat ls) = concat ((fun l => concat (g <$> l)) <$> ls).
Proof.
  induction ls as [|l ls IH]; [done|].
  rewrite fmap_cons. cbn [concat]. by rewrite fmap_app, concat_app, IH.
Qed.

Lemma concat_fmap_option {A B} (f : A -> option B) (l : list A) :
  concat ((fun x => option_list (f x)) <$> l) = omap f l.
Proof.
  induction l as [|x l IH]; [done|].
  rewrite fmap_cons. cbn [concat omap list_omap]. rewrite IH. by destruct (f x).
Qed.

Section FullWalk.
Import SystemIndexerThread.
Context (e : env).

(** What the loops of an unstopped full index observe: the paths
    stat'ed and the index. *)
Lemma full_index_walk_obs {A} (obs : thread full_index_vars -> list A)
    (g : string * string -> list A) drives r :
  (forall r, obs (should_stop None r).2 = obs r) ->
  (forall a r, (forall p, a <> OsStat p) -> obs (act a r) = obs r) ->
  (forall root filename r,
     obs (index_file e root filename r) = obs r ++ g (root, filename)) ->
  obs (for_break None (index_drive None e) drives r)
  = obs r ++ concat (g <$> walked drives).
Proof.
  intros Hstop Hact Hfile.
  rewrite (for_break_None_obs obs (fun drive => concat (g <$> walked_in drive)));
    [|done|].
  - f_equal. unfold walked. by rewrite concat_fmap_concat, <- list_fmap_compose.
  - intros drive r1. unfold index_drive, emit.
    rewrite (walk_break_None_obs obs (fun item => concat (g <$> files_in item))).
    + rewrite Hact by done. f_equal. unfold walked_in.
      by rewrite concat_fmap_concat, <- list_fmap_compose.
    + done.
    + intros root r2. by apply Hact.
    + intros [[root dirs] files] r2. unfold index_directory.
      rewrite (for_break_None_obs obs (fun filename => g (root, filename))); [|done|].
      * f_equal. unfold files_in. simpl. by rewrite <- list_fmap_compose.
      * intros filename r3. apply Hfile.
Qed.

Lemma stats_index_file root filename (r : thread full_index_vars) :
  stats (log (index_file e root filename r))
  = stats (log r) ++ [os_path_join root filename].
Proof.
  unfold index_file. destruct (os_stat e (os_path_join root filename)) as [st|].
  - cbv zeta. case_match.
    + unfold save. cbn [emit act set_vars log].
      rewrite !stats_other by done. by rewrite stats_app.
    + cbn [act set_vars log]. by rewrite stats_app.
  - cbn [act log]. by rewrite stats_app.
Qed.

Lemma fi_index_index_file root filename (r : thread full_index_vars) :
  fi_index (vars (index_file e root filename r))
  = fi_index (vars r) ++ option_list (entry_of e (root, filename)).
Proof.
  unfold index_file, entry_of. cbn [fst snd].
  destruct (os_stat e (os_path_join root filename)) as [st|].
  - cbv zeta. case_match; done.
  - simpl. by rewrite app_nil_r.
Qed.
End FullWalk.

(** X13. A full index that is not stopped stats, in the order of the
    walk, every file of every directory that [os.walk] comes to on the
    drives (the sub-directories whose name starts with a dot or is
    excluded are not entered); it adds to the index the record of each
    of them that [os.stat] answers for, and of no other; and it ends by
    announcing the number of records added.  Started by [run], the index
    is the list of these records. *)
Theorem full_index_walks_every_file :
  forall (e : env) (drives : list fs_node) (index : list FileEntry.t)
         (db : DatabaseManager.t) (r0 : thread unit),
    let r := SystemIndexerThread.full_index None e drives index db r0 in
    let added := omap (entry_of e) (walked drives) in
    stats (log r)
      = stats (log r0) ++ ((fun file => os_path_join file.1 file.2) <$> walked drives) /\
    SystemIndexerThread.index (vars r) = index ++ added /\
    last (log r) = Some (Emit (indexing_complete (length added))) /\
    SystemIndexerThread.index (vars (SystemIndexerThread.run None e true db drives))
      = added.
Proof.
  intros e drives index db r0.
  assert (Hgen : forall index (r0 : thread unit),
    let r := SystemIndexerThread.full_index None e drives index db r0 in
    let added := omap (entry_of e) (walked drives) in
    stats (log r)
      = stats (log r0) ++ ((fun file => os_path_join file.1 file.2) <$> walked drives) /\
    SystemIndexerThread.index (vars r) = index ++ added /\
    last (log r) = Some (Emit (indexing_complete (length added)))).
  { clear index r0. intros index r0 r added. subst r.
    unfold SystemIndexerThread.full_index.
    set (r1 := for_break _ _ _ _).
    assert (Hs : stats (log r1) = stats (log r0)
                 ++ ((fun file => os_path_join file.1 file.2) <$> walked drives)).
    { subst r1.
      rewrite (full_index_walk_obs e (fun r => stats (log r))
                 (fun file => [os_path_join file.1 file.2])).
      - by rewrite concat_fmap_singleton.
      - intros r. cbn [should_stop snd log]. by apply stats_other.
      - intros a r Ha. cbn [act log]. by apply stats_other.
      - intros root filename r. apply stats_index_file. }
    assert (Hi : SystemIndexerThread.fi_index (vars r1) = index ++ added).
    { subst r1.
      rewrite (full_index_walk_obs e (fun r => SystemIndexerThread.fi_index (vars r))
                 (fun file => option_list (entry_of e file))).
      - by rewrite concat_fmap_option.
      - done.
      - done.
      - intros root filename r. apply fi_index_index_file. }
    assert (Hinv : full_index_inv e index (log r0) r1).
    { apply full_index_inv_loops. exists []. simpl. rewrite !app_nil_r.
      repeat split; try done. unfold SystemIndexerThread.batch_size. lia. }
    destruct Hinv as (bs & H1 & _ & _ & _ & H5 & _).
    rewrite Hi in H1. apply app_inv_head in H1. rewrite <- H1 in H5.
    set (saved := match SystemIndexerThread.batch (vars r1) with
                  | [] => _ | _ :: _ => _ end).
    assert (Hsaved : stats (log saved.2) = stats (log r1)).
    { subst saved. destruct (SystemIndexerThread.batch (vars r1)); [done|].
      unfold SystemIndexerThread.save. cbn [snd act log]. by apply stats_other. }
    destruct saved as [db' r2]. cbn [snd] in Hsaved.
    rewrite should_stop_None.
    cbn [set_vars emit act vars log SystemIndexerThread.index].
    rewrite !stats_other by done. rewrite Hsaved, Hs, Hi, H5.
    split; [done|]. split; [done|]. apply last_snoc. }
  intros r added. destruct (Hgen index r0) as (H1 & H2 & H3).
  split; [done|]. split; [done|]. split; [done|].
  unfold SystemIndexerThread.run. cbn [negb SystemIndexerThread.close vars set_vars
    SystemIndexerThread.index].
  by destruct (Hgen [] (act (Call full_index_method) (start tt))) as (_ & -> & _).
Qed.

(** ** The walk: what is never entered *)

Lemma fs_node_tree_ind (P : fs_node -> Prop) :
  (forall name subdirs files, Forall P subdirs -> P (Folder name subdirs files)) ->
  (forall name, P (NotListed name)) ->
  forall node, P node.
Proof.
  intros Hf Hn. fix IH 1. intros [name subdirs files|name]; [|apply Hn].
  apply Hf. induction subdirs as [|d ds IHds]; constructor; [apply IH|exact IHds].
Qed.

Lemma os_walk_roots keep top node item :
  item ∈ os_walk keep top node ->
  exists names, Forall (fun d => keep d = true) names /\
                item.1.1 = foldl os_path_join top names /\
                forall filename, filename ∈ item.2 -> file_at node names filename.
Proof.
  revert top item. induction node as [name subdirs files IH|name] using fs_node_tree_ind;
    intros top item Hin; [|by apply elem_of_nil in Hin].
  cbn [os_walk] in Hin. apply elem_of_cons in Hin as [->|Hin].
  { exists []. split; [constructor|]. split; [done|].
    intros filename Hf. by constructor. }
  assert (Hsubs : exists sub, sub ∈ subdirs /\ keep (dirname sub) = true /\
                    item ∈ os_walk keep (os_path_join top (dirname sub)) sub /\
                    forall top item, item ∈ os_walk keep top sub ->
                      exists names, Forall (fun d => keep d = true) names /\
                        item.1.1 = foldl os_path_join top names /\
                        forall filename, filename ∈ item.2 ->
                                         file_at sub names filename).
  { induction IH as [|sub subdirs Hsub _ IHsubs]; [by apply elem_of_nil in Hin|].
    apply elem_of_app in Hin as [Hin|Hin].
    - destruct (keep (dirname sub)) eqn:Hk; [|by apply elem_of_nil in Hin].
      exists sub. split; [apply list_elem_of_here|done].
    - destruct (IHsubs Hin) as (sub' & H1 & H2). exists sub'.
      split; [by apply list_elem_of_further|done]. }
  destruct Hsubs as (sub & Hsub & Hk & Hitem & IHsub).
  destruct (IHsub _ _ Hitem) as (names & Hnames & -> & Hfiles).
  exists (dirname sub :: names). split; [by constructor|]. split; [done|].
  intros filename Hf. constructor; [done|by apply Hfiles].
Qed.

Lemma keep_dir_true d :
  SystemIndexerThread.keep_dir d = true ->
  startswith d "." = false /\ d ∉ SystemIndexerThread.excluded_dirs.
Proof.
  unfold SystemIndexerThread.keep_dir. intros [H1 H2]%andb_true_iff.
  apply negb_true_iff in H1, H2. split; [done|].
  intros Hin. apply list_elem_of_In in Hin.
  assert (Hex : existsb (String.eqb d) SystemIndexerThread.excluded_dirs = true).
  { apply existsb_exists. exists d. split; [done|]. apply String.eqb_refl. }
  congruence.
Qed.

Lemma elem_of_concat {A} (x : A) (ls : list (list A)) :
  x ∈ concat ls <-> exists l, x ∈ l /\ l ∈ ls.
Proof.
  induction ls as [|l ls IH]; cbn [concat].
  - split; [by intros H%elem_of_nil|]. by intros (l & _ & H%elem_of_nil).
  - rewrite elem_of_app, IH. split.
    + intros [H|(l' & H1 & H2)].
      * exists l. split; [done|apply list_elem_of_here].
      * exists l'. split; [done|by apply list_elem_of_further].
    + intros (l' & H1 & [->|H2]%elem_of_cons); [by left|]. right. by exists l'.
Qed.

Lemma walked_in_reachable drives drive file :
  drive ∈ drives -> file ∈ walked_in drive ->
  reachable drives (os_path_join file.1 file.2).
Proof.
  intros Hd Hf. unfold walked_in in Hf.
  apply elem_of_concat in Hf as (l & Hf & Hl).
  apply list_elem_of_fmap in Hl as (item & -> & Hitem).
  apply list_elem_of_fmap in Hf as (filename & -> & Hfile).
  destruct (os_walk_roots _ _ _ _ Hitem) as (names & Hnames & Hroot & Hfiles).
  exists drive, names, filename. split; [done|]. split; [by apply Hfiles|]. split.
  - eapply Forall_impl; [exact Hnames|]. intros d. apply keep_dir_true.
  - simpl. by rewrite Hroot.
Qed.

Lemma elem_of_stats l p : p ∈ stats l <-> OsStat p ∈ l.
Proof.
  unfold stats. rewrite list_elem_of_omap. split.
  - intros (a & Ha & E). destruct a; try done. by injection E as ->.
  - intros H. by exists (OsStat p).
Qed.

Section WalkStats.
Import SystemIndexerThread.
Context (stop_at : option nat) (e : env) (drives : list fs_node)
        (l0 : list action).

Local Abbreviation within := (within drives l0).

Lemma within_other {L L'} a (r : thread L) (r' : thread L') :
  (forall p, a <> OsStat p) -> log r' = log r ++ [a] -> within r -> within r'.
Proof. intros Ha Hl Hr p. rewrite Hl, stats_other by done. apply Hr. Qed.

Lemma within_should_stop {L} (r : thread L) :
  within r -> within (should_stop stop_at r).2.
Proof. by apply within_other with (a := ReadStop (flag stop_at (reads r))). Qed.

Lemma within_walk {L} (file_body : string -> string -> thread L -> thread L)
    (dir_body : string * list string * list string -> thread L -> thread L)
    (pre : fs_node -> thread L -> thread L) r :
  (forall root filename r,
     stats (log (file_body root filename r))
     = stats (log r) ++ [os_path_join root filename]) ->
  (forall item r,
     dir_body item r = for_break stop_at (file_body item.1.1) item.2 r) ->
  (forall drive r, within r -> within (pre drive r)) ->
  within r ->
  within (for_break stop_at
            (fun drive r =>
               walk_break stop_at dir_body (os_walk keep_dir (dirname drive) drive)
                          (pre drive r)) drives r).
Proof.
  intros Hfile Hdir Hpre. apply for_break_ind; [apply within_should_stop|].
  intros drive r1 Hdrive H1.
  apply walk_break_ind; [apply within_should_stop| | |by apply Hpre].
  - intros root r2. by apply within_other with (a := Scandir root).
  - intros item r2 Hitem H2. rewrite Hdir.
    apply for_break_ind; [apply within_should_stop| |done].
    intros filename r3 Hfn H3 p. rewrite Hfile, elem_of_app, list_elem_of_singleton.
    intros [Hp| ->]; [by apply H3|]. right.
    apply (walked_in_reachable drives drive (item.1.1, filename)); [done|].
    unfold walked_in. apply elem_of_concat.
    exists (files_in item). split; [|by apply list_elem_of_fmap_2].
    unfold files_in. by apply (list_elem_of_fmap_2 (fun fn => (item.1.1, fn))).
Qed.

Lemma stats_count_checked (r : thread incremental_vars) :
  stats (log (count_checked r)) = stats (log r).
Proof.
  unfold count_checked. case_match; [|done].
  cbn [emit act set_vars log]. by apply stats_other.
Qed.

Lemma stats_check_file root filename (r : thread incremental_vars) :
  stats (log (check_file e root filename r))
  = stats (log r) ++ [os_path_join root filename].
Proof.
  unfold check_file. cbv zeta.
  destruct (os_stat e (os_path_join root filename)) as [st|];
    [|cbn [act set_vars log]; by rewrite stats_app].
  repeat case_match; rewrite ?stats_count_checked;
    cbn [act set_vars log]; by rewrite stats_app.
Qed.

Ltac within_other_from H :=
  eapply within_other; [ | | exact H]; [ | cbn; reflexivity]; done.

Lemma within_full_index index db (r0 : thread unit) :
  log r0 = l0 -> within (full_index stop_at e drives index db r0).
Proof.
  intros Hl0. unfold full_index.
  set (r1 := for_break _ _ _ _).
  assert (H1 : within r1).
  { apply (within_walk (index_file e) (index_directory stop_at e)
             (fun drive => emit (progress (IndexingDrive (dirname drive))))).
    - apply stats_index_file.
    - by intros [[root dirs] files] r.
    - intros drive r H. within_other_from H.
    - intros p. cbn [set_vars log]. rewrite Hl0. by left. }
  set (saved := match batch (vars r1) with [] => _ | _ :: _ => _ end).
  assert (H2 : within saved.2).
  { subst saved. destruct (batch (vars r1)); [done|]. within_other_from H1. }
  destruct saved as [db' r2]. cbn [snd] in H2.
  pose proof (within_should_stop r2 H2) as H3.
  destruct (should_stop stop_at r2) as [b r3]. cbn [snd] in H3.
  assert (H4 : within (if b then r3 else emit (indexing_complete (total_files (vars r1))) r3)).
  { destruct b; [done|]. within_other_from H3. }
  exact H4.
Qed.

Lemma within_incremental_update (r0 : thread self) :
  log r0 = l0 -> within (incremental_update stop_at e drives r0).
Proof.
  intros Hl0. unfold incremental_update.
  destruct (db_manager (vars r0)) as [db|]; [|intros p; rewrite Hl0; by left].
  set (r1 := for_break _ _ _ _).
  assert (H0 : within r0) by (intros p; rewrite Hl0; by left).
  assert (H1 : within r1).
  { apply (within_walk (check_file e) (check_directory stop_at e) (fun _ r => r)).
    - apply stats_check_file.
    - by intros [[root dirs] files] r.
    - done.
    - within_other_from H0. }
  set (s1 := match new_files (vars r1) with [] => _ | _ :: _ => _ end).
  assert (H2 : within s1.2).
  { subst s1. destruct (new_files (vars r1)) as [|f fs]; [done|]. unfold save. cbn [snd].
    assert (H : within (act (SaveFileIndex (f :: fs)) r1)) by within_other_from H1.
    within_other_from H. }
  destruct s1 as [db1 r2]. cbn [snd] in H2.
  set (s2 := match updated_files (vars r1) with [] => _ | _ :: _ => _ end).
  assert (H3 : within s2.2).
  { subst s2. destruct (updated_files (vars r1)) as [|f fs]; [done|]. unfold save. cbn [snd].
    assert (H : within (act (SaveFileIndex (f :: fs)) r2)) by within_other_from H2.
    within_other_from H. }
  destruct s2 as [db2 r3]. cbn [snd] in H3.
  assert (H4 : within (act (RemoveDeletedFiles (existing_paths (vars r1))) r3))
    by within_other_from H3.
  pose proof (within_should_stop _ H4) as H5.
  destruct (should_stop stop_at _) as [b r4]. cbn [snd] in H5.
  assert (H6 : within (if b then r4 else emit (indexing_complete (length (iu_index (vars r1)))) r4)).
  { destruct b; [done|]. within_other_from H5. }
  exact H6.
Qed.
End WalkStats.

(** X14. Stopped or not, a full index and an incremental update stat
    nothing outside the walk: every path they stat is that of a file of
    the tree of one of the drives, in a directory that is reached from
    the drive through sub-directories none of which has a name that
    starts with a dot or is one of the excluded names. *)
Theorem indexer_stats_only_reachable_paths :
  forall (stop_at : option nat) (e : env) (drives : list fs_node) (p : string),
    (forall index db (r0 : thread unit),
        OsStat p ∈ log (SystemIndexerThread.full_index stop_at e drives index db r0) ->
        OsStat p ∈ log r0 \/ reachable drives p) /\
    (forall r0 : thread SystemIndexerThread.self,
        OsStat p ∈ log (SystemIndexerThread.incremental_update stop_at e drives r0) ->
        OsStat p ∈ log r0 \/ reachable drives p).
Proof.
  intros stop_at e drives p. split.
  - intros index db r0 Hp. rewrite <- !elem_of_stats in *.
    by apply (within_full_index stop_at e drives (log r0) index db r0).
  - intros r0 Hp. rewrite <- !elem_of_stats in *.
    by apply (within_incremental_update stop_at e drives (log r0) r0).
Qed.

Lemma indexer_stats_only_reachable_paths_witness :
  reachable [example_project] "/data/src/main.py".
Proof.
  destruct (proj1 (indexer_stats_only_reachable_paths None example_env
                     [example_project] "/data/src/main.py") [] ∅ (start tt))
    as [H|H].
  - apply list_elem_of_In. vm_compute. tauto.
  - by apply elem_of_nil in H.
  - exact H.
Defined.

(** The file of the excluded directory of [example_project] cannot be
    come to, and neither can a path that is no file of the tree. *)
Example excluded_directory_is_not_reachable :
  ~ reachable [example_project] "/data/.git/config" /\
  ~ reachable [example_project] "/data/src/other.py" /\
  ~ reachable [Folder "/data" [] []] "/data/.git/config".
Proof.
  assert (Hmain : forall p,
            reachable [example_project] p -> p = "/data/a.txt" \/ p = "/data/src/main.py").
  { intros p (drive & names & filename & Hd & Hfile & Hkeep & ->).
    apply list_elem_of_singleton in Hd as ->. unfold example_project in Hfile.
    inversion Hfile as [? ? ? ? Hf|? ? ? sub names' ? Hsub Hfile']; subst.
    { apply list_elem_of_singleton in Hf as ->. by left. }
    apply Forall_cons in Hkeep as [[Hdot _] Hkeep].
    apply elem_of_cons in Hsub as [->|Hsub]; [discriminate Hdot|].
    apply list_elem_of_singleton in Hsub as ->.
    inversion Hfile' as [? ? ? ? Hf|? ? ? sub' ? ? Hsub' _]; subst.
    - apply list_elem_of_singleton in Hf as ->. by right.
    - by apply elem_of_nil in Hsub'. }
  split; [|split].
  - intros [H|H]%Hmain; discriminate H.
  - intros [H|H]%Hmain; discriminate H.
  - intros (drive & names & filename & Hd & Hfile & _).
    apply list_elem_of_singleton in Hd as ->.
    inversion Hfile as [? ? ? ? Hf|? ? ? sub ? ? Hsub _]; subst.
    + by apply elem_of_nil in Hf.
    + by apply elem_of_nil in Hsub.
Qed.

(** X15. [run] leaves the thread without a connection to the store, so
    that an incremental update that starts after [run] has returned (the
    one it schedules when the cache is large) returns at once: it stats
    nothing, saves nothing, prunes nothing and announces nothing. *)
Theorem incremental_update_after_run_does_nothing :
  forall (stop_at stop_at' : option nat) (e e' : env) (force_full_index : bool)
         (database : DatabaseManager.t) (drives drives' : list fs_node),
    let r := SystemIndexerThread.run stop_at e force_full_index database drives in
    SystemIndexerThread.db_manager (vars r) = None /\
    SystemIndexerThread.incremental_update stop_at' e' drives' r = r.
Proof.
  intros stop_at stop_at' e e' force_full_index database drives drives' r.
  assert (H : SystemIndexerThread.db_manager (vars r) = None).
  { subst r. unfold SystemIndexerThread.run.
    destruct force_full_index; cbn [negb]; [done|]. by case_match. }
  split; [done|]. unfold SystemIndexerThread.incremental_update. by rewrite H.
Qed.

(** ** Normalisation: names without a copy marker, and case *)

Lemma chars_str l : chars (str l) = l.
Proof. apply list_ascii_of_string_of_list_ascii. Qed.

Lemma str_chars s : str (chars s) = s.
Proof. apply string_of_list_ascii_of_string. Qed.

Lemma str_app l1 l2 : str (l1 ++ l2) = str l1 +:+ str l2.
Proof. induction l1 as [|x l1 IH]; simpl; [done|]. by rewrite IH. Qed.

Lemma chars_app s1 s2 : chars (s1 +:+ s2) = chars s1 ++ chars s2.
Proof. induction s1 as [|x s1 IH]; simpl; [done|]. by rewrite IH. Qed.

Lemma lower_app s1 s2 : lower (s1 +:+ s2) = lower s1 +:+ lower s2.
Proof. unfold lower. by rewrite chars_app, map_app, str_app. Qed.

Lemma splitext_chars_app p :
  (splitext_chars p).1 ++ (splitext_chars p).2 = p.
Proof.
  unfold splitext_chars. repeat case_match; simpl;
    first [apply take_drop | apply app_nil_r].
Qed.

Lemma splitext_app filename :
  (splitext filename).1 +:+ (splitext filename).2 = filename.
Proof.
  unfold splitext. pose proof (splitext_chars_app (chars filename)) as H.
  destruct (splitext_chars (chars filename)) as [root ext]. simpl in *.
  by rewrite <- str_app, H, str_chars.
Qed.

Lemma derives_End_nil w rest : derives [End] w rest -> w = [].
Proof.
  intros H. inversion H as [| | | |p w' rest' He Hd]; subst.
  by inversion Hd.
Qed.

Lemma derives_last_class p w rest c :
  derives p w rest -> last_class p = Some c ->
  exists w' x, w = w' ++ [x] /\ in_class c x = true.
Proof.
  induction 1 as [rest|c0 x p w rest Hx Hd IH|c0 u p w rest Hu Hd IH
                  |c0 x u p w rest Hx Hu Hd IH|p w rest He Hd IH]; intros Hl.
  - done.
  - destruct p as [|i p]; [done|]. destruct i as [c1|c1|c1|].
    + destruct (IH Hl) as (w' & y & -> & Hy). exists (x :: w'), y. done.
    + destruct (IH Hl) as (w' & y & -> & Hy). exists (x :: w'), y. done.
    + destruct (IH Hl) as (w' & y & -> & Hy). exists (x :: w'), y. done.
    + destruct p as [|i p].
      * injection Hl as <-. apply derives_End_nil in Hd as ->. by exists [], x.
      * destruct (IH Hl) as (w' & y & -> & Hy). exists (x :: w'), y. done.
  - destruct p as [|i p]; [done|].
    assert (Hl' : last_class (i :: p) = Some c) by (by destruct i, p).
    destruct (IH Hl') as (w' & y & -> & Hy). exists (u ++ w'), y.
    by rewrite app_assoc.
  - destruct p as [|i p]; [done|]. destruct i as [c1|c1|c1|].
    + destruct (IH Hl) as (w' & y & -> & Hy). exists (x :: u ++ w'), y.
      by rewrite app_comm_cons, app_assoc.
    + destruct (IH Hl) as (w' & y & -> & Hy). exists (x :: u ++ w'), y.
      by rewrite app_comm_cons, app_assoc.
    + destruct (IH Hl) as (w' & y & -> & Hy). exists (x :: u ++ w'), y.
      by rewrite app_comm_cons, app_assoc.
    + destruct p as [|i p].
      * injection Hl as <-. apply derives_End_nil in Hd as ->.
        rewrite app_nil_r. destruct u as [|y u _] using rev_ind.
        -- by exists [], x.
        -- apply Forall_app in Hu as [_ Hy]. apply Forall_cons in Hy as [Hy _].
           exists (x :: u), y. done.
      * destruct (IH Hl) as (w' & y & -> & Hy). exists (x :: u ++ w'), y.
        by rewrite app_comm_cons, app_assoc.
  - destruct p as [|i p]; [done|].
    assert (Hl' : last_class (i :: p) = Some c) by (by destruct i, p).
    by apply IH.
Qed.

Lemma in_class_marker c x :
  c ∈ [Lit ")"; Lit "y"; Digit] -> in_class c x = true -> copy_marker_end x = true.
Proof.
  intros Hc.
  repeat (apply elem_of_cons in Hc as [->|Hc]);
    [| | |by apply elem_of_nil in Hc];
    destruct x as [[] [] [] [] [] [] [] []]; vm_compute; congruence.
Qed.

Lemma patterns_end p :
  p ∈ FastDuplicateScannerThread.patterns ->
  last p = Some End /\
  exists c, last_class p = Some c /\ c ∈ [Lit ")"; Lit "y"; Digit].
Proof.
  unfold FastDuplicateScannerThread.patterns. intros Hin.
  repeat (apply elem_of_cons in Hin as [->|Hin]);
    [| | | | | |by apply elem_of_nil in Hin];
    (split; [reflexivity|]); eexists; (split; [reflexivity|]);
    repeat first [apply list_elem_of_here | apply list_elem_of_further].
Qed.

Lemma re_sub_plain p s :
  p ∈ FastDuplicateScannerThread.patterns ->
  match last s with Some c => copy_marker_end c = false | None => True end ->
  re_sub p s = s.
Proof.
  intros Hp Hs.
  destruct (re_sub_patterns p s Hp) as [(pre & w & rest & E & Hd & _)|[_ E]]; [|done].
  exfalso. destruct (patterns_end p Hp) as (Hlast & c & Hc & Hin).
  destruct (derives_last_class p w rest c Hd Hc) as (w' & x & -> & Hx).
  apply (in_class_marker c x Hin) in Hx.
  destruct (at_end_cases rest (derives_anchored p _ rest Hd Hlast)) as [-> | ->].
  - rewrite app_nil_r, app_assoc in E. rewrite E, last_snoc in Hs. congruence.
  - rewrite !app_assoc in E. rewrite E, last_snoc in Hs. done.
Qed.

(** X16. An ASCII file name whose part before the extension does not
    end in a closing parenthesis, in [y] or [Y], in a digit or in a
    newline is its own normalised name (lower-cased where case is not
    kept): none of the six patterns removes anything from it. *)
Theorem normalize_filename_keeps_plain_names :
  forall (case_sensitive : bool) (filename : string),
    ascii_only filename = true ->
    match last (chars (splitext filename).1) with
    | Some c => copy_marker_end c = false
    | None => True
    end ->
    FastDuplicateScannerThread.normalize_filename case_sensitive filename
    = if case_sensitive then filename else lower filename.
Proof.
  intros case_sensitive filename _ Hplain.
  unfold FastDuplicateScannerThread.normalize_filename.
  pose proof (splitext_app filename) as Happ.
  destruct (splitext filename) as [name ext]. cbn [fst snd] in *.
  assert (Hfold : forall ps,
            (forall p, p ∈ ps -> p ∈ FastDuplicateScannerThread.patterns) ->
            foldl (fun name pattern => re_sub pattern name) (chars name) ps
            = chars name).
  { induction ps as [|p ps IH]; intros Hps; [done|]. cbn [foldl].
    rewrite re_sub_plain; [|apply Hps, list_elem_of_here|done].
    apply IH. intros q Hq. by apply Hps, list_elem_of_further. }
  rewrite Hfold by done. rewrite str_chars.
  destruct case_sensitive; cbn [negb]; [done|]. by rewrite <- lower_app, Happ.
Qed.

Lemma normalize_filename_keeps_plain_names_witness :
  FastDuplicateScannerThread.normalize_filename true "notes.final.txt"
  = "notes.final.txt".
Proof.
  apply (normalize_filename_keeps_plain_names true "notes.final.txt");
    vm_compute; reflexivity.
Defined.

(** *** Case *)

Lemma ascii_lower_facts x :
  ascii_lower (ascii_lower x) = ascii_lower x /\
  is_space (ascii_lower x) = is_space x /\
  is_digit (ascii_lower x) = is_digit x /\
  Ascii.eqb (ascii_lower x) "/" = Ascii.eqb x "/" /\
  Ascii.eqb (ascii_lower x) "." = Ascii.eqb x "." /\
  Ascii.eqb (ascii_lower x) "010" = Ascii.eqb x "010".
Proof. destruct x as [[] [] [] [] [] [] [] []]; vm_compute; tauto. Qed.

Lemma in_class_lower c x : in_class c (ascii_lower x) = in_class c x.
Proof.
  destruct (ascii_lower_facts x) as (H1 & H2 & H3 & _).
  destruct c; simpl; congruence.
Qed.

Lemma at_end_lower s : at_end (map ascii_lower s) = at_end s.
Proof.
  destruct s as [|x [|y s]]; simpl; try done.
  by destruct (ascii_lower_facts x) as (_ & _ & _ & _ & _ & ->).
Qed.

Lemma match_star_lower c k s :
  (forall s, k (map ascii_lower s) = k s) ->
  match_star c k (map ascii_lower s) = match_star c k s.
Proof.
  intros Hk. induction s as [|x s IH]; [apply (Hk [])|].
  cbn [map match_star]. rewrite in_class_lower, IH.
  change (ascii_lower x :: map ascii_lower s) with (map ascii_lower (x :: s)).
  by rewrite (Hk (x :: s)).
Qed.

Lemma match_here_lower p s :
  match_here p (map ascii_lower s) = match_here p s.
Proof.
  revert s. induction p as [|[c|c|c|] p IH]; intros s; simpl.
  - done.
  - destruct s as [|x s]; simpl; [done|]. by rewrite in_class_lower, IH.
  - by apply match_star_lower.
  - destruct s as [|x s]; simpl; [done|].
    by rewrite in_class_lower, match_star_lower.
  - by rewrite at_end_lower, IH.
Qed.

Lemma re_sub_from_lower p n s :
  re_sub_from p n (map ascii_lower s) = map ascii_lower (re_sub_from p n s).
Proof.
  revert n. induction s as [|x s IH]; intros n; [done|].
  cbn [map re_sub_from]. destruct n as [|n]; [|apply IH].
  change (ascii_lower x :: map ascii_lower s) with (map ascii_lower (x :: s)).
  rewrite match_here_lower.
  destruct (match_here p (x :: s)) as [[|m]|]; cbn [map]; by rewrite IH.
Qed.

Lemma foldl_re_sub_lower ps s :
  foldl (fun name pattern => re_sub pattern name) (map ascii_lower s) ps
  = map ascii_lower (foldl (fun name pattern => re_sub pattern name) s ps).
Proof.
  revert s. induction ps as [|p ps IH]; intros s; [done|].
  cbn [foldl]. unfold re_sub at 2. by rewrite re_sub_from_lower, IH.
Qed.

Lemma rfind_from_lower c s i acc :
  Ascii.eqb c "/" || Ascii.eqb c "." = true ->
  rfind_from c (map ascii_lower s) i acc = rfind_from c s i acc.
Proof.
  intros Hc. revert i acc. induction s as [|x s IH]; intros i acc; [done|].
  cbn [map rfind_from]. rewrite IH. f_equal.
  destruct (ascii_lower_facts x) as (_ & _ & _ & H1 & H2 & _).
  apply orb_true_iff in Hc as [Hc|Hc]; apply Ascii.eqb_eq in Hc; subst c;
    by rewrite ?H1, ?H2.
Qed.

Lemma existsb_lower_dot s :
  existsb (fun c => negb (Ascii.eqb c ".")) (map ascii_lower s)
  = existsb (fun c => negb (Ascii.eqb c ".")) s.
Proof.
  induction s as [|x s IH]; simpl; [done|]. rewrite IH.
  by destruct (ascii_lower_facts x) as (_ & _ & _ & _ & -> & _).
Qed.

Lemma splitext_chars_lower p :
  splitext_chars (map ascii_lower p)
  = (map ascii_lower (splitext_chars p).1, map ascii_lower (splitext_chars p).2).
Proof.
  unfold splitext_chars, rfind. rewrite !rfind_from_lower by done.
  rewrite skipn_map, firstn_map, existsb_lower_dot.
  repeat case_match; cbn [fst snd]; by rewrite ?firstn_map, ?skipn_map.
Qed.

Lemma lower_lower s : lower (lower s) = lower s.
Proof.
  unfold lower. rewrite chars_str, map_map. f_equal. apply map_ext.
  intros x. by destruct (ascii_lower_facts x) as (-> & _).
Qed.

Lemma normalize_filename_lower filename :
  FastDuplicateScannerThread.normalize_filename false (lower filename)
  = FastDuplicateScannerThread.normalize_filename false filename.
Proof.
  unfold FastDuplicateScannerThread.normalize_filename, splitext.
  unfold lower at 1. rewrite chars_str, splitext_chars_lower.
  destruct (splitext_chars (chars filename)) as [root ext]. cbn [fst snd negb].
  rewrite !chars_str, foldl_re_sub_lower.
  assert (H : forall l, lower (str (map ascii_lower l)) = lower (str l)).
  { intros l. unfold lower. rewrite !chars_str, map_map. f_equal. apply map_ext.
    intros x. by destruct (ascii_lower_facts x) as (-> & _). }
  by rewrite !H.
Qed.

(** X17. Where case is not kept (on win32), two ASCII file names that
    differ only in the case of their letters have the same normalised
    name, and the normalised name is the lower-cased one that the
    case-keeping platforms compute. *)
Theorem normalize_filename_ignores_case :
  forall filename1 filename2 : string,
    ascii_only filename1 = true ->
    ascii_only filename2 = true ->
    lower filename1 = lower filename2 ->
    FastDuplicateScannerThread.normalize_filename false filename1
    = FastDuplicateScannerThread.normalize_filename false filename2 /\
    FastDuplicateScannerThread.normalize_filename false filename1
    = lower (FastDuplicateScannerThread.normalize_filename true filename1).
Proof.
  intros filename1 filename2 _ _ Hl. split.
  - by rewrite <- (normalize_filename_lower filename1),
               <- (normalize_filename_lower filename2), Hl.
  - unfold FastDuplicateScannerThread.normalize_filename.
    destruct (splitext filename1) as [name ext]. cbn [negb].
    by rewrite lower_app.
Qed.

Lemma normalize_filename_ignores_case_witness :
  FastDuplicateScannerThread.normalize_filename false "Report (1).TXT"
  = FastDuplicateScannerThread.normalize_filename false "REPORT (1).txt".
Proof.
  apply (normalize_filename_ignores_case "Report (1).TXT" "REPORT (1).txt");
    vm_compute; reflexivity.
Defined.

(** ** Dictionaries *)

Section Dict.
Context {K V : Type} `{EqDecision K} (eqb : K -> K -> bool).
Hypothesis eqb_eq : forall a b, eqb a b = true <-> a = b.

Lemma eqb_decide a b : eqb a b = bool_decide (a = b).
Proof.
  destruct (eqb a b) eqn:E.
  - apply eqb_eq in E. by rewrite bool_decide_eq_true_2.
  - rewrite bool_decide_eq_false_2; [done|]. intros H%eqb_eq. congruence.
Qed.

Lemma dict_get_append k' k (x : V) d :
  dict_get eqb k' (dict_append eqb k x d)
  = if decide (k' = k) then Some (default [] (dict_get eqb k d) ++ [x])
    else dict_get eqb k' d.
Proof.
  induction d as [|[k0 xs] d IH]; cbn [dict_append dict_get].
  - rewrite (eqb_decide k k'). destruct (decide (k' = k)) as [->|Hne].
    + by rewrite bool_decide_eq_true_2.
    + by rewrite bool_decide_eq_false_2.
  - rewrite !eqb_decide. destruct (decide (k0 = k)) as [->|Hne0].
    + rewrite bool_decide_eq_true_2 by done. cbn [dict_get].
      rewrite eqb_decide. destruct (decide (k' = k)) as [->|Hne].
      * by rewrite bool_decide_eq_true_2.
      * by rewrite bool_decide_eq_false_2.
    + rewrite bool_decide_eq_false_2 by done. cbn [dict_get].
      rewrite eqb_decide, IH. destruct (decide (k' = k)) as [->|Hne].
      * by rewrite bool_decide_eq_false_2.
      * done.
Qed.

Lemma dict_keys_append k (x : V) d :
  (dict_append eqb k x d).*1 = if decide (k ∈ d.*1) then d.*1 else d.*1 ++ [k].
Proof.
  induction d as [|[k0 xs] d IH]; cbn [dict_append].
  - rewrite decide_False; [done|]. by intros H%elem_of_nil.
  - rewrite eqb_decide. destruct (decide (k0 = k)) as [->|Hne].
    + rewrite bool_decide_eq_true_2 by done.
      rewrite decide_True; [done|]. apply list_elem_of_here.
    + rewrite bool_decide_eq_false_2 by done. rewrite !fmap_cons, IH. cbn [fst].
      destruct (decide (k ∈ d.*1)) as [Hin|Hnin].
      * rewrite decide_True; [done|]. by apply list_elem_of_further.
      * rewrite decide_False; [done|]. intros [E|H]%elem_of_cons; congruence.
Qed.

Lemma dict_get_elem_of {W} k (v : W) (d : list (K * W)) :
  dict_get eqb k d = Some v -> (k, v) ∈ d.
Proof.
  induction d as [|[k0 v0] d IH]; cbn [dict_get]; [done|].
  rewrite eqb_decide. case_bool_decide as E.
  - intros [= <-]. subst. apply list_elem_of_here.
  - intros H. by apply list_elem_of_further, IH.
Qed.

Lemma elem_of_dict_get {W} k (v : W) (d : list (K * W)) :
  NoDup d.*1 -> (k, v) ∈ d -> dict_get eqb k d = Some v.
Proof.
  induction d as [|[k0 v0] d IH]; intros Hnd Hin; [by apply elem_of_nil in Hin|].
  rewrite fmap_cons in Hnd. apply NoDup_cons in Hnd as [Hnin Hnd].
  cbn [dict_get]. rewrite eqb_decide.
  apply elem_of_cons in Hin as [[= <- <-]|Hin].
  - by rewrite bool_decide_eq_true_2.
  - rewrite bool_decide_eq_false_2; [by apply IH|].
    intros ->. apply Hnin. apply list_elem_of_fmap. by exists (k, v).
Qed.
End Dict.

Section Grouped.
Context {K X : Type} `{EqDecision K} (eqb : K -> K -> bool) (key : X -> K).
Hypothesis eqb_eq : forall a b, eqb a b = true <-> a = b.

Lemma grouped_snoc xs x :
  grouped eqb key (xs ++ [x]) = dict_append eqb (key x) x (grouped eqb key xs).
Proof. unfold grouped. by rewrite foldl_app. Qed.

Lemma dict_get_grouped k xs :
  dict_get eqb k (grouped eqb key xs)
  = match filter (fun x => key x = k) xs with
    | [] => None
    | x :: vs => Some (x :: vs)
    end.
Proof.
  induction xs as [|x xs IH] using rev_ind; [done|].
  rewrite grouped_snoc, (dict_get_append eqb eqb_eq), filter_app.
  destruct (decide (k = key x)) as [->|Hne].
  - rewrite IH, filter_cons_True, filter_nil by done.
    by destruct (filter _ xs).
  - rewrite IH, filter_cons_False, filter_nil, app_nil_r by congruence. done.
Qed.

Lemma NoDup_grouped xs : NoDup (grouped eqb key xs).*1.
Proof.
  induction xs as [|x xs IH] using rev_ind; [constructor|].
  rewrite grouped_snoc, (dict_keys_append eqb eqb_eq). case_decide; [done|].
  apply NoDup_app. split; [done|]. split; [|apply NoDup_singleton].
  intros k Hk ->%list_elem_of_singleton. done.
Qed.

(** The buckets of the dictionary: one for every key that occurs, with
    all the elements of that key in their order. *)
Lemma elem_of_grouped k vs xs :
  (k, vs) ∈ grouped eqb key xs
  <-> vs = filter (fun x => key x = k) xs /\ vs <> [].
Proof.
  split.
  - intros Hin. apply (elem_of_dict_get eqb eqb_eq) in Hin; [|apply NoDup_grouped].
    rewrite dict_get_grouped in Hin.
    destruct (filter _ xs); [done|]. by injection Hin as <-.
  - intros [-> Hne]. apply (dict_get_elem_of eqb eqb_eq).
    rewrite dict_get_grouped. by destruct (filter _ xs).
Qed.
End Grouped.

(** ** Loops that are not stopped, seen from the local variables *)

Lemma for_return_None_vars {X L} (body : X -> thread L -> flow L)
    (step : L -> X -> L) xs r :
  (forall x r, exists r', body x r = Continue r' /\ vars r' = step (vars r) x) ->
  exists r', for_return None body xs r = Continue r' /\
             vars r' = foldl step (vars r) xs.
Proof.
  intros Hbody. revert r. induction xs as [|x xs IH]; intros r; [by exists r|].
  cbn [for_return]. rewrite should_stop_None.
  destruct (Hbody x (Run (S (reads r)) (log r ++ [ReadStop false]) (vars r)))
    as (r1 & -> & Hv).
  destruct (IH r1) as (r2 & -> & Hv2). exists r2. split; [done|].
  by rewrite Hv2, Hv.
Qed.

Lemma walk_return_None_vars {L}
    (body : string * list string * list string -> thread L -> flow L)
    (step : L -> string * string -> L) items r :
  (forall item r, exists r',
      body item r = Continue r' /\ vars r' = foldl step (vars r) (files_in item)) ->
  exists r', walk_return None body items r = Continue r' /\
             vars r' = foldl step (vars r) (concat (files_in <$> items)).
Proof.
  intros Hbody. revert r. induction items as [|item items IH]; intros r; [by exists r|].
  cbn [walk_return]. rewrite should_stop_None.
  destruct (Hbody item (Run (S (reads (act (Scandir item.1.1) r)))
                            (log (act (Scandir item.1.1) r) ++ [ReadStop false])
                            (vars (act (Scandir item.1.1) r))))
    as (r1 & -> & Hv).
  destruct (IH r1) as (r2 & -> & Hv2). exists r2. split; [done|].
  rewrite Hv2, Hv, fmap_cons. cbn [concat]. by rewrite foldl_app.
Qed.

(** ** The fast scan: its groups *)

Lemma key_eqb_eq (k1 k2 : string * option Z) :
  FastDuplicateScannerThread.key_eqb k1 k2 = true <-> k1 = k2.
Proof.
  destruct k1 as [n1 s1], k2 as [n2 s2]. unfold FastDuplicateScannerThread.key_eqb.
  cbn [fst snd]. rewrite andb_true_iff, String.eqb_eq. split.
  - intros [-> H]. destruct s1, s2; try done. apply Z.eqb_eq in H. by subst.
  - intros [= -> ->]. split; [done|]. destruct s2; [apply Z.eqb_refl|done].
Qed.

Lemma dict_get_set {K V} `{EqDecision K} (eqb : K -> K -> bool) k' k (v : V) d :
  (forall a b, eqb a b = true <-> a = b) ->
  dict_get eqb k' (dict_set eqb k v d)
  = if decide (k' = k) then Some v else dict_get eqb k' d.
Proof.
  intros eqb_eq. induction d as [|[k0 v0] d IH]; cbn [dict_set dict_get].
  - rewrite (eqb_decide eqb eqb_eq). destruct (decide (k' = k)) as [->|Hne].
    + by rewrite bool_decide_eq_true_2.
    + by rewrite bool_decide_eq_false_2.
  - rewrite !(eqb_decide eqb eqb_eq). destruct (decide (k0 = k)) as [->|Hne0].
    + rewrite bool_decide_eq_true_2 by done. cbn [dict_get].
      rewrite (eqb_decide eqb eqb_eq). destruct (decide (k' = k)) as [->|Hne].
      * by rewrite bool_decide_eq_true_2.
      * by rewrite bool_decide_eq_false_2.
    + rewrite bool_decide_eq_false_2 by done. cbn [dict_get].
      rewrite (eqb_decide eqb eqb_eq), IH. destruct (decide (k' = k)) as [->|Hne].
      * by rewrite bool_decide_eq_false_2.
      * done.
Qed.

Lemma filter_duplicates_snoc file_map key files :
  FastDuplicateScannerThread.filter_duplicates (file_map ++ [(key, files)])
  = if (1 <? length files)%nat
    then dict_set String.eqb key.1 files
           (FastDuplicateScannerThread.filter_duplicates file_map)
    else FastDuplicateScannerThread.filter_duplicates file_map.
Proof. unfold FastDuplicateScannerThread.filter_duplicates. by rewrite foldl_app. Qed.

(** A group that step 2 reports is a bucket of more than one file... *)
Lemma filter_duplicates_sound file_map k files :
  dict_get String.eqb k (FastDuplicateScannerThread.filter_duplicates file_map)
  = Some files ->
  exists size, ((k, size), files) ∈ file_map /\ (1 < length files)%nat.
Proof.
  induction file_map as [|[key fs] file_map IH] using rev_ind; [done|].
  rewrite filter_duplicates_snoc.
  destruct (Nat.ltb_spec 1 (length fs)) as [Hlt|Hle].
  - rewrite (dict_get_set String.eqb) by apply String.eqb_eq.
    destruct (decide (k = key.1)) as [->|Hne].
    + intros [= <-]. exists key.2. split; [|done].
      apply elem_of_app. right. destruct key. apply list_elem_of_here.
    + intros H. destruct (IH H) as (size & Hin & Hl). exists size.
      split; [|done]. apply elem_of_app. by left.
  - intros H. destruct (IH H) as (size & Hin & Hl). exists size.
    split; [|done]. apply elem_of_app. by left.
Qed.

(** ... and every bucket of more than one file has its name reported. *)
Lemma filter_duplicates_complete file_map key files :
  (key, files) ∈ file_map -> (1 < length files)%nat ->
  is_Some (dict_get String.eqb key.1
             (FastDuplicateScannerThread.filter_duplicates file_map)).
Proof.
  induction file_map as [|[key' fs] file_map IH] using rev_ind;
    intros Hin Hlen; [by apply elem_of_nil in Hin|].
  rewrite filter_duplicates_snoc.
  apply elem_of_app in Hin as [Hin|Hin].
  - destruct (Nat.ltb_spec 1 (length fs)); [|by apply IH].
    rewrite (dict_get_set String.eqb) by apply String.eqb_eq.
    case_decide; [done|by apply IH].
  - apply list_elem_of_singleton in Hin as [= <- <-].
    destruct (Nat.ltb_spec 1 (length files)); [|lia].
    rewrite (dict_get_set String.eqb) by apply String.eqb_eq.
    by rewrite decide_True.
Qed.

Section FastScan.
Import FastDuplicateScannerThread.
Context (case_sensitive use_size_filter : bool) (e : env).

Lemma scan_file_step root filename (r : thread locals) :
  exists r',
    scan_file case_sensitive use_size_filter e root filename r = Continue r' /\
    vars r' = fast_step case_sensitive use_size_filter e (vars r) (root, filename).
Proof.
  unfold scan_file, fast_step, duplicate_of. cbn [fst snd].
  destruct (os_stat e (os_path_join root filename)) as [st|]; [|by eexists].
  eexists. split; [done|]. cbn [fmap option_fmap option_map].
  case_match; cbn [emit act set_vars vars]; unfold fast_key; cbn [DuplicateFile.name
    DuplicateFile.size]; by destruct use_size_filter.
Qed.

Lemma scan_directory_step item (r : thread locals) :
  exists r',
    scan_directory None case_sensitive use_size_filter e item r = Continue r' /\
    vars r' = foldl (fast_step case_sensitive use_size_filter e) (vars r)
                    (files_in item).
Proof.
  destruct item as [[root dirs] files]. unfold scan_directory, files_in. cbn [fst snd].
  destruct (for_return_None_vars
              (scan_file case_sensitive use_size_filter e root)
              (fun v filename =>
                 fast_step case_sensitive use_size_filter e v (root, filename))
              files r) as (r' & Hr & Hv).
  { intros filename r0. apply scan_file_step. }
  exists r'. split; [done|]. rewrite Hv. clear.
  generalize (vars r). induction files as [|f files IH]; intros v; [done|].
  simpl. apply IH.
Qed.

Lemma file_map_fast_steps files v :
  file_map (foldl (fast_step case_sensitive use_size_filter e) v files)
  = foldl (fun d f => dict_append key_eqb
                        (fast_key case_sensitive use_size_filter f) f d)
          (file_map v) (omap (duplicate_of e) files).
Proof.
  revert v. induction files as [|file files IH]; intros v; [done|].
  cbn [foldl omap list_omap]. rewrite IH. unfold fast_step.
  by destruct (duplicate_of e file).
Qed.
End FastScan.

(** X18. The groups that a fast scan reports when it is not stopped.
    Every reported group has more than one file and consists of all the
    records of the walk that have its normalised name (and one common
    size, when the size filter is on), in the order of the walk; and
    every name under which more than one such record is filed is
    reported.  With the size filter on, one name is reported with the
    records of one size only. *)
Theorem fast_scan_groups :
  forall (case_sensitive use_size_filter : bool) (e : env) (root_folder : fs_node),
    let records := omap (duplicate_of e) (scanned root_folder) in
    let bucket := fun key =>
      filter (fun f => fast_key case_sensitive use_size_filter f = key) records in
    exists duplicates,
      last (log (FastDuplicateScannerThread.run None case_sensitive use_size_filter
                   e root_folder))
      = Some (Emit (scan_complete duplicates)) /\
      (forall name files,
          dict_get String.eqb name duplicates = Some files ->
          (1 < length files)%nat /\ exists size, files = bucket (name, size)) /\
      (forall name size,
          (1 < length (bucket (name, size)))%nat ->
          is_Some (dict_get String.eqb name duplicates)).
Proof.
  intros case_sensitive use_size_filter e root_folder records bucket.
  unfold FastDuplicateScannerThread.run.
  set (r0 := emit _ _).
  destruct (walk_return_None_vars
              (FastDuplicateScannerThread.scan_directory None case_sensitive
                 use_size_filter e)
              (fast_step case_sensitive use_size_filter e)
              (os_walk hidden_filter (dirname root_folder) root_folder) r0)
    as (r1 & -> & Hv).
  { intros item r. apply scan_directory_step. }
  fold (scanned root_folder) in Hv.
  assert (Hmap : FastDuplicateScannerThread.file_map (vars r1)
                 = grouped FastDuplicateScannerThread.key_eqb
                     (fast_key case_sensitive use_size_filter) records).
  { rewrite Hv. apply file_map_fast_steps. }
  rewrite should_stop_None. cbn [emit act log vars]. rewrite Hmap.
  eexists. split; [apply last_snoc|]. split.
  - intros name files Hget.
    apply filter_duplicates_sound in Hget as (size & Hin & Hlen).
    split; [done|]. exists size.
    by apply (elem_of_grouped _ _ key_eqb_eq) in Hin as [-> _].
  - intros name size Hlen.
    apply (filter_duplicates_complete _ (name, size) (bucket (name, size))); [|done].
    apply (elem_of_grouped _ _ key_eqb_eq). split; [done|].
    intros E. rewrite E in Hlen. simpl in Hlen. lia.
Qed.

Lemma fast_scan_groups_witness :
  exists duplicates,
    last (log (FastDuplicateScannerThread.run None true false
                 (Env (fun _ => Some (1, 0%Q)) (fun _ => None) (fun _ => 0%Q))
                 (Folder "/" [] ["a.txt"; "a (1).txt"])))
    = Some (Emit (scan_complete duplicates)) /\
    is_Some (dict_get String.eqb "a.txt" duplicates).
Proof.
  destruct (fast_scan_groups true false
              (Env (fun _ => Some (1, 0%Q)) (fun _ => None) (fun _ => 0%Q))
              (Folder "/" [] ["a.txt"; "a (1).txt"]))
    as (duplicates & Hlast & _ & Hcomplete).
  exists duplicates. split; [exact Hlast|].
  apply (Hcomplete "a.txt" None). vm_compute. lia.
Defined.

(** ** The deep scan: no duplicate is missed *)

Lemma two_members {A} (x y : A) (l : list A) :
  x <> y -> x ∈ l -> y ∈ l -> (1 < length l)%nat.
Proof.
  intros Hne Hx Hy. destruct l as [|a [|b l]]; simpl; [|exfalso|lia].
  - by apply elem_of_nil in Hx.
  - apply list_elem_of_singleton in Hx, Hy. congruence.
Qed.

Section DeepSteps.
Import DeepDuplicateScannerThread.
Context (e : env).

Lemma size_file_step root filename (r : thread locals) :
  exists r', size_file e root filename r = Continue r' /\
             vars r' = size_step e (vars r) (root, filename).
Proof.
  unfold size_file, size_step. cbn [fst snd].
  destruct (os_stat e (os_path_join root filename)) as [st|]; [|by eexists].
  eexists. split; [done|]. by case_match.
Qed.

Lemma size_directory_step item (r : thread locals) :
  exists r', size_directory None e item r = Continue r' /\
             vars r' = foldl (size_step e) (vars r) (files_in item).
Proof.
  destruct item as [[root dirs] files]. unfold size_directory, files_in. cbn [fst snd].
  destruct (for_return_None_vars (size_file e root)
              (fun v filename => size_step e v (root, filename)) files r)
    as (r' & Hr & Hv).
  { intros filename r0. apply size_file_step. }
  exists r'. split; [done|]. rewrite Hv. clear.
  generalize (vars r). induction files as [|f files IH]; intros v; [done|].
  simpl. apply IH.
Qed.

Lemma hash_one_step to_hash p (r : thread locals) :
  exists r', hash_one e to_hash p r = Continue r' /\
             vars r' = hash_step e (vars r) p.
Proof.
  unfold hash_one, hash_step, hashed_record.
  destruct (hash_file e p) as [h|]; [|by eexists].
  destruct (os_stat e p) as [st|]; [|by eexists].
  eexists. split; [done|]. by case_match.
Qed.

Lemma size_steps files v :
  let v' := foldl (size_step e) v files in
  size_map v'
  = foldl (fun d p => dict_append Z.eqb (size_of e p) p d) (size_map v)
          (filter (fun p => 0 < size_of e p)
                  ((fun file => os_path_join file.1 file.2) <$> files)) /\
  hash_map v' = hash_map v.
Proof.
  revert v. induction files as [|file files IH]; intros v; [done|].
  cbn [foldl]. destruct (IH (size_step e v file)) as [-> ->].
  rewrite fmap_cons. unfold size_step. cbv zeta.
  assert (Hso : forall st, os_stat e (os_path_join file.1 file.2) = Some st ->
                  size_of e (os_path_join file.1 file.2) = st.1).
  { intros st H. unfold size_of. by rewrite H. }
  destruct (os_stat e (os_path_join file.1 file.2)) as [st|] eqn:Hst.
  - specialize (Hso st eq_refl). cbn [size_map hash_map]. split; [|done].
    destruct (Z.ltb_spec 0 st.1).
    + rewrite filter_cons_True by lia. cbn [foldl]. by rewrite Hso.
    + by rewrite filter_cons_False by lia.
  - rewrite filter_cons_False; [done|]. unfold size_of. rewrite Hst. lia.
Qed.

Lemma hash_steps paths v :
  hash_map (foldl (hash_step e) v paths)
  = foldl (fun d f => dict_append String.eqb (digest f) f d) (hash_map v)
          (omap (hashed_record e) paths).
Proof.
  revert v. induction paths as [|p paths IH]; intros v; [done|].
  cbn [foldl omap list_omap]. rewrite IH. unfold hash_step.
  by destruct (hashed_record e p).
Qed.
End DeepSteps.

(** X19. A deep scan that is not stopped misses no duplicate: two
    different files of the walk for which [os.stat] answers the same
    positive size and [hash_file] the same digest are reported in one
    group, under that digest. *)
Theorem deep_scan_reports_every_duplicate :
  forall (e : env) (root_folder : fs_node),
    exists duplicates,
      last (log (DeepDuplicateScannerThread.run None e root_folder))
      = Some (Emit (scan_complete duplicates)) /\
      forall (p1 p2 : string) (size : Z) (m1 m2 : Q) (h : string),
        p1 <> p2 ->
        p1 ∈ scanned_paths root_folder -> p2 ∈ scanned_paths root_folder ->
        os_stat e p1 = Some (size, m1) -> os_stat e p2 = Some (size, m2) ->
        0 < size ->
        hash_file e p1 = Some h -> hash_file e p2 = Some h ->
        exists files f1 f2,
          (h, files) ∈ duplicates /\ f1 ∈ files /\ f2 ∈ files /\
          DuplicateFile.path f1 = p1 /\ DuplicateFile.path f2 = p2.
Proof.
  intros e root_folder. unfold DeepDuplicateScannerThread.run.
  set (r0 := emit _ _).
  destruct (walk_return_None_vars (DeepDuplicateScannerThread.size_directory None e)
              (size_step e)
              (os_walk hidden_filter (dirname root_folder) root_folder) r0)
    as (r1 & -> & Hv1).
  { intros item r. apply size_directory_step. }
  fold (scanned root_folder) in Hv1.
  destruct (size_steps e (scanned root_folder) (vars r0)) as [Hsm Hhm].
  cbv zeta in Hsm, Hhm. rewrite <- Hv1 in Hsm, Hhm.
  fold (scanned_paths root_folder) in Hsm.
  change (DeepDuplicateScannerThread.size_map (vars r0)) with (@nil (Z * list string)) in Hsm.
  change (DeepDuplicateScannerThread.hash_map (vars r0))
    with (@nil (string * list DuplicateFile.t)) in Hhm.
  set (positive := filter (fun p => 0 < size_of e p) (scanned_paths root_folder)) in Hsm.
  fold (grouped Z.eqb (size_of e) positive) in Hsm.
  set (to_hash := DeepDuplicateScannerThread.files_to_hash _).
  set (r2 := emit _ r1).
  destruct (for_return_None_vars
              (DeepDuplicateScannerThread.hash_one e (length to_hash))
              (hash_step e) to_hash r2) as (r3 & -> & Hv3).
  { intros p r. apply hash_one_step. }
  assert (Hmap : DeepDuplicateScannerThread.hash_map (vars r3)
                 = grouped String.eqb digest (omap (hashed_record e) to_hash)).
  { rewrite Hv3, hash_steps. subst r2. cbn [emit act vars]. by rewrite Hhm. }
  rewrite should_stop_None. cbn [emit act log vars]. rewrite Hmap.
  eexists. split; [apply last_snoc|].
  intros p1 p2 size m1 m2 h Hne Hp1 Hp2 Hs1 Hs2 Hpos Hh1 Hh2.
  assert (Hso : forall p m, os_stat e p = Some (size, m) -> size_of e p = size).
  { intros p m H. unfold size_of. by rewrite H. }
  assert (Hto : forall p m, p ∈ scanned_paths root_folder ->
                  os_stat e p = Some (size, m) -> p ∈ to_hash).
  { intros p m Hp Hs. subst to_hash. unfold DeepDuplicateScannerThread.files_to_hash.
    apply elem_of_concat.
    set (bucket := filter (fun q => size_of e q = size) positive).
    assert (Hin : forall q m', q ∈ scanned_paths root_folder ->
                    os_stat e q = Some (size, m') -> q ∈ bucket).
    { intros q m' Hq Hsq. subst bucket positive.
      apply list_elem_of_filter. split; [by apply (Hso q m')|].
      apply list_elem_of_filter. split; [|done]. by rewrite (Hso q m'). }
    exists bucket. split; [by apply (Hin p m)|].
    apply list_elem_of_In, in_map_iff. exists (size, bucket). split; [done|].
    apply list_elem_of_In, list_elem_of_filter. split.
    - cbn [snd]. apply Is_true_true, Nat.ltb_lt.
      apply (two_members p1 p2); [done|by apply (Hin p1 m1)|by apply (Hin p2 m2)].
    - rewrite Hsm. apply (elem_of_grouped _ _ Z.eqb_eq). split; [done|].
      intros E. specialize (Hin p m Hp Hs). rewrite E in Hin.
      by apply elem_of_nil in Hin. }
  set (f1 := DuplicateFile.mk (DeepDuplicateScannerThread.basename p1) p1
               size m1 (Some h)).
  set (f2 := DuplicateFile.mk (DeepDuplicateScannerThread.basename p2) p2
               size m2 (Some h)).
  set (group := filter (fun f => digest f = h) (omap (hashed_record e) to_hash)).
  assert (H1 : f1 ∈ group).
  { subst group. apply list_elem_of_filter. split; [done|].
    apply list_elem_of_omap. exists p1. split; [by apply (Hto p1 m1)|].
    unfold hashed_record. by rewrite Hh1, Hs1. }
  assert (H2 : f2 ∈ group).
  { subst group. apply list_elem_of_filter. split; [done|].
    apply list_elem_of_omap. exists p2. split; [by apply (Hto p2 m2)|].
    unfold hashed_record. by rewrite Hh2, Hs2. }
  exists group, f1, f2. split; [|done].
  apply list_elem_of_filter. split.
  - cbn [snd]. apply Is_true_true, Nat.ltb_lt.
    apply (two_members f1 f2); [|done|done]. intros E. apply Hne.
    by apply (f_equal DuplicateFile.path) in E.
  - apply (elem_of_grouped _ _ String.eqb_eq). split; [done|].
    intros E. rewrite E in H1. by apply elem_of_nil in H1.
Qed.

Lemma deep_scan_reports_every_duplicate_witness :
  exists duplicates files,
    last (log (DeepDuplicateScannerThread.run None
                 (Env (fun _ => Some (3, 0%Q)) (fun _ => Some "d41d") (fun _ => 0%Q))
                 (Folder "/" [] ["a.bin"; "b.bin"])))
    = Some (Emit (scan_complete duplicates)) /\
    ("d41d", files) ∈ duplicates.
Proof.
  destruct (deep_scan_reports_every_duplicate
              (Env (fun _ => Some (3, 0%Q)) (fun _ => Some "d41d") (fun _ => 0%Q))
              (Folder "/" [] ["a.bin"; "b.bin"]))
    as (duplicates & Hlast & Hall).
  assert (Hne : "/a.bin" <> "/b.bin") by discriminate.
  assert (H1 : "/a.bin" ∈ scanned_paths (Folder "/" [] ["a.bin"; "b.bin"]))
    by apply list_elem_of_here.
  assert (H2 : "/b.bin" ∈ scanned_paths (Folder "/" [] ["a.bin"; "b.bin"]))
    by apply list_elem_of_further, list_elem_of_here.
  destruct (Hall "/a.bin" "/b.bin" 3 0%Q 0%Q "d41d" Hne H1 H2
              eq_refl eq_refl eq_refl eq_refl eq_refl)
    as (files & _ & _ & Hin & _).
  exists duplicates, files. split; [exact Hlast|exact Hin].
Defined.

(** ** The incremental update: the store after a whole walk *)

Lemma is_Some_save_file_index t files (db : DatabaseManager.t) p :
  is_Some (DatabaseManager.save_file_index t files db !! p)
  <-> is_Some (db !! p) \/ p ∈ FileEntry.path <$> files.
Proof.
  induction files as [|f files IH] using rev_ind.
  - split; [by left|]. intros [H|H]; [done|]. by apply elem_of_nil in H.
  - rewrite save_file_index_snoc, fmap_app, elem_of_app, lookup_insert_is_Some, IH.
    change (FileEntry.path <$> [f]) with [FileEntry.path f].
    rewrite list_elem_of_singleton. split.
    + intros [<-|[_ [H|H]]]; [right; by right|by left|right; by left].
    + intros [H|[H|H]].
      * destruct (decide (FileEntry.path f = p)); [by left|]. right. split; [done|by left].
      * destruct (decide (FileEntry.path f = p)); [by left|]. right. split; [done|by right].
      * by left.
Qed.

Section UpdateWalk.
Import SystemIndexerThread.
Context (e : env).

Lemma walk_None_obs {L A} (obs : thread L -> list A) (g : string * string -> list A)
    (file_body : string -> string -> thread L -> thread L)
    (dir_body : string * list string * list string -> thread L -> thread L)
    drives r :
  (forall r, obs (should_stop None r).2 = obs r) ->
  (forall root r, obs (act (Scandir root) r) = obs r) ->
  (forall root filename r,
     obs (file_body root filename r) = obs r ++ g (root, filename)) ->
  (forall item r, dir_body item r = for_break None (file_body item.1.1) item.2 r) ->
  obs (for_break None
         (fun drive => walk_break None dir_body
                         (os_walk keep_dir (dirname drive) drive)) drives r)
  = obs r ++ concat (g <$> walked drives).
Proof.
  intros Hstop Hscan Hfile Hdir.
  rewrite (for_break_None_obs obs (fun drive => concat (g <$> walked_in drive)));
    [|done|].
  - f_equal. unfold walked. by rewrite concat_fmap_concat, <- list_fmap_compose.
  - intros drive r1.
    rewrite (walk_break_None_obs obs (fun item => concat (g <$> files_in item)));
      [|done|done|].
    + f_equal. unfold walked_in. by rewrite concat_fmap_concat, <- list_fmap_compose.
    + intros item r2. rewrite Hdir.
      rewrite (for_break_None_obs obs (fun filename => g (item.1.1, filename)));
        [|done|].
      * f_equal. unfold files_in. by rewrite <- list_fmap_compose.
      * intros filename r3. apply Hfile.
Qed.

Lemma stats_incremental_update drives index db :
  stats (log (incremental_update None e drives (start (Self index (Some db)))))
  = walked_paths drives.
Proof.
  unfold incremental_update. cbn [start vars db_manager].
  set (r1 := for_break _ _ _ _).
  assert (H1 : stats (log r1) = walked_paths drives).
  { subst r1.
    rewrite (walk_None_obs (fun r => stats (log r))
               (fun file => [os_path_join file.1 file.2])
               (check_file e) (check_directory None e)).
    - by rewrite concat_fmap_singleton.
    - intros r. cbn [should_stop snd log]. by apply stats_other.
    - intros root r. cbn [act log]. by apply stats_other.
    - intros root filename r. apply stats_check_file.
    - by intros [[root dirs] files] r. }
  set (s1 := match new_files (vars r1) with [] => _ | _ :: _ => _ end).
  assert (H2 : stats (log s1.2) = walked_paths drives).
  { subst s1. destruct (new_files (vars r1)) as [|f fs]; [done|].
    unfold save. cbn [snd emit act log]. by rewrite !stats_other. }
  destruct s1 as [db1 r2]. cbn [snd] in H2.
  set (s2 := match updated_files (vars r1) with [] => _ | _ :: _ => _ end).
  assert (H3 : stats (log s2.2) = walked_paths drives).
  { subst s2. destruct (updated_files (vars r1)) as [|f fs]; [done|].
    unfold save. cbn [snd emit act log]. by rewrite !stats_other. }
  destruct s2 as [db2 r3]. cbn [snd] in H3.
  rewrite should_stop_None. cbn [emit act set_vars log]. by rewrite !stats_other.
Qed.
End UpdateWalk.

(** X20. The store after an incremental update that is not stopped: it
    has a row for a path exactly when the walk of the drives comes to
    the path and either the store had a row for it or [os.stat] answers
    for it.  Rows of paths outside the walk are gone, files of the walk
    that cannot be stat'ed keep the row they had, and every other file
    of the walk has a row. *)
Theorem incremental_update_store_after_whole_walk :
  forall (e : env) (drives : list fs_node) (index : list FileEntry.t)
         (db : DatabaseManager.t),
    let r := SystemIndexerThread.incremental_update None e drives
               (start (SystemIndexerThread.Self index (Some db))) in
    exists db',
      SystemIndexerThread.db_manager (vars r) = Some db' /\
      forall p, is_Some (db' !! p)
                <-> p ∈ walked_paths drives /\
                    (is_Some (db !! p) \/ is_Some (os_stat e p)).
Proof.
  intros e drives index db r.
  destruct (incremental_update_facts None e drives index db)
    as (w & t1 & t2 & Hw & _ & _ & Hdb & Hstat & _ & _).
  fold r in Hdb, Hstat. cbn zeta in *.
  destruct Hw as (_ & _ & _ & _ & H5 & H6 & H7).
  eexists. split; [exact Hdb|]. intros p.
  rewrite remove_deleted_files_lookup.
  assert (Hex : p ∈ SystemIndexerThread.existing_paths (vars w)
                <-> p ∈ walked_paths drives).
  { rewrite <- Hstat, <- elem_of_stats. subst r.
    by rewrite stats_incremental_update. }
  destruct (decide (p ∈ SystemIndexerThread.existing_paths (vars w))) as [Hin|Hnin].
  2:{ split; [by intros [? ?]|]. intros [Hp _]. by apply Hex in Hp. }
  rewrite !is_Some_save_file_index. split.
  - intros Hsome. split; [by apply Hex|].
    destruct Hsome as [[Hdbp|Hnew]|Hupd]; [by left| |].
    + apply list_elem_of_fmap in Hnew as (f & -> & Hf).
      destruct (H5 f Hf) as (_ & Hrec & _). right. unfold recorded in Hrec.
      by rewrite Hrec.
    + apply list_elem_of_fmap in Hupd as (f & -> & Hf).
      destruct (H6 f Hf) as ((row & Hrow & _) & _). left. by rewrite Hrow.
  - intros [_ [Hdbp|[st Hst]]]; [left; by left|].
    destruct (db !! p) as [row|] eqn:Hrow; [left; by left|].
    destruct (H7 p st Hin Hst) as [Hnew _].
    destruct (Hnew Hrow) as (f & Hf & <-). left. right.
    apply list_elem_of_fmap. by exists f.
Qed.

(** ** The explorer: what a search shows *)

Lemma search_batches_concat self :
  concat (batches (log (FileSearchThread.run None self)))
  = filter (fun e => search_matches self e = true) (FileSearchThread.index self).
Proof.
  destruct (batched_loop self (FileSearchThread.index self)) as (Hc & _ & _).
  unfold FileSearchThread.run.
  set (r := for_break None _ _ _) in *. rewrite <- Hc.
  assert (Hb : forall l s, batches (l ++ [ReadStop false] ++ [Emit (search_complete s)])
                           = batches l).
  { intros l s. rewrite batches_app. apply app_nil_r. }
  destruct (vars r) as [|e results] eqn:Ev.
  - rewrite should_stop_None. cbn [emit act log].
    by rewrite <- app_assoc, Hb, app_nil_r.
  - rewrite !should_stop_None. cbn [emit act log vars reads].
    rewrite <- (app_assoc _ [ReadStop false] [Emit (search_complete _)]), Hb.
    rewrite batches_results, batches_read, Ev, concat_app. cbn [concat].
    by rewrite app_nil_r.
Qed.

Lemma files_deliver tab l :
  FileExplorerTab.files (foldl FileExplorerTab.deliver tab l)
  = FileExplorerTab.files tab ++ concat (batches l) /\
  FileExplorerTab.file_index (foldl FileExplorerTab.deliver tab l)
  = FileExplorerTab.file_index tab.
Proof.
  revert tab. induction l as [|a l IH]; intros tab.
  { simpl. by rewrite app_nil_r. }
  cbn [foldl]. destruct (IH (FileExplorerTab.deliver tab a)) as [-> ->].
  destruct a as [| | | | | | | | |s]; try done.
  destruct s; try done.
  cbn [FileExplorerTab.deliver FileExplorerTab.on_search_results
       FileExplorerTab.files FileExplorerTab.file_index].
  change (batches (Emit (results_ready results) :: l)) with (results :: batches l).
  cbn [concat]. by rewrite app_assoc.
Qed.

(** X21. [perform_search] with a text that is not blank, on a tab whose
    index is not empty, starts a search for the stripped text with no
    folder filter and leaves the table as it is; when the signals of that
    search, run without being stopped, have been delivered, the table
    shows the rows it showed before followed by the records of the index
    whose name contains the stripped text, without regard to case, in
    the order of the index.  The rows of an earlier search are not
    cleared. *)
Theorem explorer_search_appends_matches :
  forall (text : string) (tab : FileExplorerTab.t),
    strip text <> "" ->
    FileExplorerTab.file_index tab <> [] ->
    exists thread,
      FileExplorerTab.perform_search text tab = (tab, Some thread) /\
      let tab' := foldl FileExplorerTab.deliver tab
                        (log (FileSearchThread.run None thread)) in
      FileExplorerTab.files tab'
      = FileExplorerTab.files tab
        ++ filter (fun e => str_in (lower (strip text)) (lower (FileEntry.name e)) = true)
                  (FileExplorerTab.file_index tab) /\
      FileExplorerTab.file_index tab' = FileExplorerTab.file_index tab.
Proof.
  intros text tab Hq Hi. unfold FileExplorerTab.perform_search.
  destruct (String.eqb_spec (strip text) ""); [done|].
  destruct (FileExplorerTab.file_index tab) as [|f fs] eqn:Ei; [done|].
  eexists. split; [done|]. cbv zeta.
  set (thread := FileSearchThread.init _ _ _).
  destruct (files_deliver tab (log (FileSearchThread.run None thread))) as [-> ->].
  split; [|done]. rewrite search_batches_concat. f_equal.
  apply list_filter_iff. intros x. unfold search_matches. subst thread.
  cbn [FileSearchThread.init FileSearchThread.query FileSearchThread.folder_filter].
  change (lower "") with "". cbn [String.eqb orb]. by rewrite andb_true_r.
Qed.

Lemma explorer_search_appends_matches_witness :
  exists thread,
    FileExplorerTab.perform_search " txt "
      (FileExplorerTab.mk example_index [FileEntry.mk "old" "/old" "" 1 0%Q false])
    = (FileExplorerTab.mk example_index [FileEntry.mk "old" "/old" "" 1 0%Q false],
       Some thread) /\
    FileExplorerTab.files
      (foldl FileExplorerTab.deliver
         (FileExplorerTab.mk example_index [FileEntry.mk "old" "/old" "" 1 0%Q false])
         (log (FileSearchThread.run None thread)))
    = FileEntry.mk "old" "/old" "" 1 0%Q false :: example_index.
Proof.
  destruct (explorer_search_appends_matches " txt "
              (FileExplorerTab.mk example_index
                 [FileEntry.mk "old" "/old" "" 1 0%Q false]))
    as (thread & Hp & Hf & _); [discriminate|discriminate|].
  exists thread. split; [exact Hp|]. rewrite Hf. reflexivity.
Defined.

(** ** Themes *)

Lemma dom_set_custom_color element color self :
  dom (ThemeManager.custom_colors (ThemeManager.set_custom_color element color self))
  = dom (ThemeManager.custom_colors self) /\
  ThemeManager.current_theme (ThemeManager.set_custom_color element color self)
  = ThemeManager.current_theme self.
Proof.
  unfold ThemeManager.set_custom_color. case_bool_decide as H; [|done].
  cbn [ThemeManager.custom_colors ThemeManager.current_theme].
  split; [|done]. rewrite dom_insert_L. set_solver.
Qed.

Lemma dom_load_custom_colors colors self :
  dom (ThemeManager.custom_colors (ThemeManager.load_custom_colors colors self))
  = dom (ThemeManager.custom_colors self) /\
  ThemeManager.current_theme (ThemeManager.load_custom_colors colors self)
  = ThemeManager.current_theme self.
Proof.
  unfold ThemeManager.load_custom_colors. revert self.
  induction colors as [|[key value] colors IH]; intros self; [done|].
  cbn [foldl]. destruct (IH (ThemeManager.set_custom_color key value self)) as [H1 H2].
  unfold ThemeManager.set_custom_color in H1, H2. rewrite H1, H2.
  apply dom_set_custom_color.
Qed.

Lemma in_THEMES theme_name :
  theme_name ∈ dom ThemeManager.THEMES ->
  theme_name = "light" \/ theme_name = "dark" \/ theme_name = "blue"
  \/ theme_name = "custom".
Proof.
  unfold ThemeManager.THEMES. rewrite dom_list_to_map_L. cbn [fmap list_fmap fst].
  rewrite elem_of_list_to_set, !elem_of_cons, elem_of_nil. tauto.
Qed.

(** X22. Whatever the settings dialog does to a theme manager (choosing
    a theme, setting one custom colour, loading saved custom colours),
    the custom colours keep exactly the eight elements of the custom
    theme and the current theme stays one of the four themes, so that
    [get_stylesheet] finds every colour it looks up. *)
Theorem theme_manager_keeps_its_elements :
  forall calls : list ThemeManager.call,
    let self := foldl ThemeManager.apply ThemeManager.init calls in
    dom (ThemeManager.custom_colors self)
    = dom (ThemeManager.custom_colors ThemeManager.init) /\
    ThemeManager.current_theme self ∈ dom ThemeManager.THEMES /\
    is_Some (ThemeManager.get_stylesheet self).
Proof.
  intros calls self.
  assert (Hinv : dom (ThemeManager.custom_colors self)
                 = dom (ThemeManager.custom_colors ThemeManager.init) /\
                 ThemeManager.current_theme self ∈ dom ThemeManager.THEMES).
  { subst self. induction calls as [|c calls IH] using rev_ind.
    - split; [done|]. vm_compute. tauto.
    - rewrite foldl_app. cbn [foldl]. destruct IH as [IH1 IH2].
      set (self := foldl ThemeManager.apply ThemeManager.init calls) in *.
      destruct c as [theme_name|element color|colors]; cbn [ThemeManager.apply].
      + unfold ThemeManager.set_theme. case_bool_decide; done.
      + destruct (dom_set_custom_color element color self) as [-> ->]. done.
      + destruct (dom_load_custom_colors colors self) as [-> ->]. done. }
  destruct Hinv as [Hdom Hcur]. split; [done|]. split; [done|].
  unfold ThemeManager.get_stylesheet.
  apply in_THEMES in Hcur as [E|[E|[E|E]]]; rewrite E;
    [vm_compute; by eexists..|].
  change (String.eqb "custom" "custom") with true. cbv iota.
  assert (Hk : forall k, k ∈ dom (ThemeManager.custom_colors ThemeManager.init) ->
                 is_Some (ThemeManager.custom_colors self !! k)).
  { intros k Hk. apply elem_of_dom. by rewrite Hdom. }
  cbn [mapM].
  destruct (Hk "background") as [? ->]; [by vm_compute|].
  destruct (Hk "foreground") as [? ->]; [by vm_compute|].
  destruct (Hk "group_border") as [? ->]; [by vm_compute|].
  destruct (Hk "button_bg") as [? ->]; [by vm_compute|].
  destruct (Hk "button_fg") as [? ->]; [by vm_compute|].
  destruct (Hk "button_hover") as [? ->]; [by vm_compute|].
  destruct (Hk "input_border") as [? ->]; [by vm_compute|].
  destruct (Hk "selection") as [? ->]; [by vm_compute|].
  by eexists.
Qed.

(** ** The organizer: names for the files it transfers *)

Lemma string_app_inv_head (s x y : string) : s +:+ x = s +:+ y -> x = y.
Proof. induction s as [|c s IH]; simpl; [done|]. intros [= H]. by apply IH. Qed.

Lemma string_app_inv_tail (x y s : string) : x +:+ s = y +:+ s -> x = y.
Proof.
  intros H. apply (f_equal chars) in H. rewrite !chars_app in H.
  apply app_inv_tail in H. by rewrite <- (str_chars x), <- (str_chars y), H.
Qed.

Lemma numbered_inj base_name ext k k' :
  FileOrganizerThread.numbered base_name k ext
  = FileOrganizerThread.numbered base_name k' ext -> k = k'.
Proof.
  unfold FileOrganizerThread.numbered. intros H.
  do 2 apply string_app_inv_head in H. apply string_app_inv_tail in H.
  by apply pretty_nat_inj in H.
Qed.

Lemma numbered_startswith base_name ext k k' :
  startswith (FileOrganizerThread.numbered base_name k ext) "/"
  = startswith (FileOrganizerThread.numbered base_name k' ext) "/".
Proof. unfold FileOrganizerThread.numbered. by destruct base_name. Qed.

Lemma candidate_inj dest_path base_name ext k k' :
  candidate dest_path base_name ext k = candidate dest_path base_name ext k' -> k = k'.
Proof.
  unfold candidate, os_path_join.
  rewrite (numbered_startswith base_name ext k k').
  destruct (startswith _ "/"); [apply numbered_inj|].
  destruct (String.eqb dest_path "" || endswith dest_path "/").
  - intros H%string_app_inv_head. by apply numbered_inj in H.
  - intros H. do 2 apply string_app_inv_head in H. by apply numbered_inj in H.
Qed.

Lemma free_name_cases fuel disk dest_path base_name ext counter dest_file :
  match FileOrganizerThread.free_name fuel disk dest_path base_name ext
          counter dest_file with
  | Some found =>
      (found ∉ disk) /\
      (found = dest_file \/
       dest_file ∈ disk /\
       exists n, (counter <= n)%nat /\ found = candidate dest_path base_name ext n /\
         forall k, (counter <= k < n)%nat ->
                   candidate dest_path base_name ext k ∈ disk)
  | None =>
      ((0 < fuel)%nat -> dest_file ∈ disk) /\
      forall k, (counter <= k)%nat -> (S k < counter + fuel)%nat ->
                candidate dest_path base_name ext k ∈ disk
  end.
Proof.
  revert counter dest_file. induction fuel as [|fuel IH]; intros counter dest_file.
  { simpl. split; [lia|]. intros k H1 H2. lia. }
  cbn [FileOrganizerThread.free_name]. case_bool_decide as Hin; [|by split; [|left]].
  specialize (IH (S counter) (candidate dest_path base_name ext counter)).
  fold (candidate dest_path base_name ext counter).
  destruct (FileOrganizerThread.free_name fuel disk dest_path base_name ext
              (S counter) (candidate dest_path base_name ext counter)) as [found|].
  - destruct IH as [Hfree [->|(Hc & n & Hn & -> & Hall)]].
    + split; [done|]. right. split; [done|]. exists counter.
      split; [lia|]. split; [done|]. intros k Hk. lia.
    + split; [done|]. right. split; [done|]. exists n.
      split; [lia|]. split; [done|]. intros k Hk.
      destruct (decide (k = counter)) as [->|Hne]; [done|]. apply Hall. lia.
  - destruct IH as [Hd Hall]. split; [done|]. intros k H1 H2.
    destruct (decide (k = counter)) as [->|Hne]; [apply Hd; lia|]. apply Hall; lia.
Qed.

(** The loop does not end only if more different paths exist than the
    disk has. *)
Lemma free_name_ends disk dest_path base_name ext dest_file :
  is_Some (FileOrganizerThread.free_name (FileOrganizerThread.rounds disk) disk
             dest_path base_name ext 1 dest_file).
Proof.
  pose proof (free_name_cases (FileOrganizerThread.rounds disk) disk dest_path
                base_name ext 1 dest_file) as H.
  destruct (FileOrganizerThread.free_name _ _ _ _ _ _ _) as [found|]; [done|].
  exfalso. unfold FileOrganizerThread.rounds in H.
  set (tried := candidate dest_path base_name ext <$> seq 1 (S (size disk))).
  assert (Hnd : NoDup tried).
  { apply NoDup_fmap_2; [|apply NoDup_seq]. intros k k'. apply candidate_inj. }
  assert (Hsub : (list_to_set tried : gset string) ⊆ disk).
  { intros p Hp. apply elem_of_list_to_set, list_elem_of_fmap in Hp as (k & -> & Hk).
    apply elem_of_seq in Hk. apply (proj2 H); lia. }
  apply subseteq_size in Hsub. rewrite size_list_to_set in Hsub by done.
  subst tried. rewrite length_fmap, length_seq in Hsub. lia.
Qed.

(** X23. The name that the organizer gives to a file at its destination.
    The loop that looks for it always ends (on a disk of [n] paths,
    within [n + 2] probes); the path it ends with does not exist; it is
    the path of the file's own name in the destination folder when that
    one is free, and otherwise the first free one among
    [base_1.ext], [base_2.ext], ... *)
Theorem organizer_finds_free_name :
  forall (disk : gset string) (dest_path filename : string),
    let base_name := (splitext filename).1 in
    let ext := (splitext filename).2 in
    let dest_file := os_path_join dest_path filename in
    exists found,
      FileOrganizerThread.free_name (FileOrganizerThread.rounds disk) disk
        dest_path base_name ext 1 dest_file = Some found /\
      (found ∉ disk) /\
      (dest_file ∉ disk -> found = dest_file) /\
      (dest_file ∈ disk ->
       exists n, (1 <= n)%nat /\ found = candidate dest_path base_name ext n /\
         forall k, (1 <= k < n)%nat -> candidate dest_path base_name ext k ∈ disk).
Proof.
  intros disk dest_path filename base_name ext dest_file.
  destruct (free_name_ends disk dest_path base_name ext dest_file) as [found Hf].
  pose proof (free_name_cases (FileOrganizerThread.rounds disk) disk dest_path
                base_name ext 1 dest_file) as H.
  rewrite Hf in H. destruct H as [Hfree Hcases].
  exists found. split; [done|]. split; [done|]. split.
  - intros Hn. by destruct Hcases as [->|[Hin _]].
  - intros Hin. destruct Hcases as [->|[_ H]]; [done|exact H].
Qed.

Lemma organizer_finds_free_name_witness :
  FileOrganizerThread.free_name 4 {[ "/out/a.txt"; "/out/a_1.txt" ]}
    "/out" "a" ".txt" 1 "/out/a.txt"
  = Some "/out/a_2.txt".
Proof.
  destruct (organizer_finds_free_name {[ "/out/a.txt"; "/out/a_1.txt" ]} "/out" "a.txt")
    as (found & Hf & _ & _ & Hn).
  destruct Hn as (n & Hn1 & -> & Hall); [set_solver|].
  vm_compute. reflexivity.
Defined.

(** ** The organizer: what it does to the disk, and what it reports *)

Lemma replay_app disk l1 l2 :
  replay disk (l1 ++ l2) = replay disk l1 ≫= fun disk' => replay disk' l2.
Proof.
  revert disk. induction l1 as [|ev l1 IH]; intros disk; [done|].
  destruct ev; cbn [app replay]; try apply IH; case_bool_decide; by rewrite ?IH.
Qed.

Section Organizer.
Import FileOrganizerThread.
Context (stop_at : option nat) (self : t) (disk0 : gset string).
Local Abbreviation organizing := (organizing self disk0).

Lemma organizing_quiet ev s s' :
  is_progress ev = false -> is_transfer ev = false ->
  log s' = log s ++ [ev] -> disk s' = disk s ->
  processed_count s' = processed_count s -> failed_count s' = failed_count s ->
  organizing s -> organizing s'.
Proof.
  intros Hp Ht Hl Hd Hpc Hfc (H1 & H2 & H3 & H4).
  split; [|split; [|split]].
  - rewrite Hl, replay_app, H1, Hd. destruct ev; done.
  - intros p Hin. destruct (H2 p Hin) as [?|[Hm [d Hd']]]; [left; by rewrite Hd|].
    right. split; [done|]. exists d. rewrite Hl. apply elem_of_app. by left.
  - rewrite Hl, length_filter_snoc, Hp, Hpc, H3. lia.
  - rewrite Hl, length_filter_snoc, Ht, Hpc, Hfc, H4. lia.
Qed.
Lemma organizing_should_stop s : organizing s -> organizing (should_stop stop_at s).2.
Proof. by apply organizing_quiet with (ev := ReadStop (flag stop_at (reads s))). Qed.

Lemma organizing_record ev s :
  is_progress ev = false -> is_transfer ev = false ->
  organizing s -> organizing (record ev s).
Proof. intros Hp Ht. by apply organizing_quiet with (ev := ev). Qed.

Lemma organizing_transfer total_files item s :
  organizing s -> organizing (transfer self total_files item s).
Proof.
  intros (H1 & H2 & H3 & H4). destruct item as [i source_file].
  unfold transfer.
  set (filename := DeepDuplicateScannerThread.basename source_file).
  destruct (splitext filename) as [base_name ext].
  pose proof (free_name_cases (rounds (disk s)) (disk s) (dest_path self)
                base_name ext 1 (os_path_join (dest_path self) filename)) as Hfree.
  destruct (free_name _ _ _ _ _ _ _) as [found|]; [|done].
  destruct Hfree as [Hfree _].
  set (done := bool_decide (source_file ∈ disk s) && permitted self source_file found).
  destruct done eqn:Hdone.
  - destruct (move_files self) eqn:Hm; (split; [|split; [|split]]);
      cbn [log disk processed_count failed_count].
    + rewrite replay_app, H1. cbn [mbind option_bind replay].
      by rewrite bool_decide_eq_false_2.
    + intros p Hp. destruct (decide (p = source_file)) as [->|Hne].
      * right. split; [done|]. exists found. apply elem_of_app. right.
        apply list_elem_of_here.
      * destruct (H2 p Hp) as [Hin|[_ [d Hd]]]; [left; set_solver|].
        right. split; [done|]. exists d. apply elem_of_app. by left.
    + rewrite app_two, !length_filter_snoc, H3. simpl. lia.
    + rewrite app_two, !length_filter_snoc, <- H4. simpl. lia.
    + rewrite replay_app, H1. cbn [mbind option_bind replay].
      by rewrite bool_decide_eq_false_2.
    + intros p Hp. destruct (H2 p Hp) as [Hin|[? _]]; [left; set_solver|done].
    + rewrite app_two, !length_filter_snoc, H3. simpl. lia.
    + rewrite app_two, !length_filter_snoc, <- H4. simpl. lia.
  - assert (Hev : forall ev, is_transfer ev = true -> is_progress ev = false ->
              replay (disk s) [ev] = Some (disk s) ->
              (forall p d, ev <> Move p d true) ->
              organizing (State (reads s) (log s ++ [ev]) (disk s)
                                (processed_count s) (S (failed_count s)))).
    { intros ev Ht Hp Hr Hno. split; [|split; [|split]];
        cbn [log disk processed_count failed_count].
      - by rewrite replay_app, H1.
      - intros p Hin. destruct (H2 p Hin) as [?|[Hm [d Hd']]]; [by left|].
        right. split; [done|]. exists d. apply elem_of_app. by left.
      - rewrite length_filter_snoc, Hp, H3. lia.
      - rewrite length_filter_snoc, Ht, <- H4. lia. }
    destruct (move_files self); apply Hev; try done;
      cbn [replay]; by rewrite bool_decide_eq_false_2.
Qed.

Lemma organizing_transfer_all total_files items s :
  organizing s -> organizing (transfer_all stop_at self total_files items s).
Proof.
  revert s. induction items as [|item items IH]; intros s Hs; [done|].
  cbn [transfer_all]. pose proof (organizing_should_stop s Hs) as H1.
  destruct (should_stop stop_at s) as [b s1]. cbn [snd] in H1.
  destruct b; [done|]. by apply IH, organizing_transfer.
Qed.

Lemma organizing_scan_tree items acc s :
  organizing s -> organizing (scan_tree stop_at self items acc s).1.
Proof.
  revert acc s. induction items as [|[[root dirs] files] items IH]; intros acc s Hs;
    [done|].
  cbn [scan_tree]. pose proof (organizing_should_stop s Hs) as H1.
  destruct (should_stop stop_at s) as [b s1]. cbn [snd] in H1.
  destruct b; [done|]. by apply IH.
Qed.

Lemma organizing_scan_listing items acc s :
  organizing s -> organizing (scan_listing stop_at self items acc s).1.
Proof.
  revert acc s. induction items as [|[item isfile] items IH]; intros acc s Hs; [done|].
  cbn [scan_listing]. pose proof (organizing_should_stop s Hs) as H1.
  destruct (should_stop stop_at s) as [b s1]. cbn [snd] in H1.
  destruct b; [done|]. by apply IH.
Qed.

Lemma organizing_run : organizing (run stop_at self disk0).
Proof.
  unfold run.
  assert (H0 : organizing (record StatusMessage (start disk0))).
  { apply organizing_record; [done..|]. repeat split; try done. intros p Hp. by left. }
  set (scan := if scan_subfolders self then _ else _).
  assert (H1 : organizing scan.1).
  { subst scan. destruct (scan_subfolders self); [by apply organizing_scan_tree|].
    destruct (listing self); [by apply organizing_scan_listing|].
    by apply organizing_record. }
  destruct scan as [s [files|]]; cbn [fst] in H1; [|done].
  apply organizing_record; [done..|]. by apply organizing_transfer_all.
Qed.
End Organizer.

(** X24. Stopped or not, the organizer never overwrites: at every call
    of [shutil.move] or [shutil.copy2] the destination does not exist,
    and the disk at the end is the first one changed by the transfers
    that were made, in their order.  A path that was on the disk is
    still there at the end unless the organizer moved it; when it
    copies, nothing leaves the disk. *)
Theorem organizer_never_overwrites :
  forall (stop_at : option nat) (self : FileOrganizerThread.t) (disk : gset string),
    let s := FileOrganizerThread.run stop_at self disk in
    replay disk (FileOrganizerThread.log s) = Some (FileOrganizerThread.disk s) /\
    (forall p, p ∈ disk ->
       p ∈ FileOrganizerThread.disk s \/
       exists dest_file,
         FileOrganizerThread.Move p dest_file true ∈ FileOrganizerThread.log s) /\
    (FileOrganizerThread.move_files self = false ->
     disk ⊆ FileOrganizerThread.disk s).
Proof.
  intros stop_at self disk s.
  destruct (organizing_run stop_at self disk) as (H1 & H2 & _). fold s in H1, H2.
  split; [done|]. split.
  - intros p Hp. destruct (H2 p Hp) as [?|[_ ?]]; [by left|by right].
  - intros Hm p Hp. destruct (H2 p Hp) as [?|[? _]]; [done|congruence].
Qed.

Section OrganizerReport.
Import FileOrganizerThread.
Context (self : t).

Lemma scan_tree_None items acc s :
  (scan_tree None self items acc s).2
  = Some (acc ++ concat ((fun item : string * list string * list string =>
                            map (os_path_join item.1.1) (filter (selected self) item.2))
                         <$> items)).
Proof.
  revert acc s. induction items as [|[[root dirs] files] items IH]; intros acc s.
  { simpl. by rewrite app_nil_r. }
  cbn [scan_tree should_stop flag]. rewrite IH, fmap_cons. cbn [concat fst snd].
  by rewrite app_assoc.
Qed.

Lemma scan_listing_None items acc s :
  (scan_listing None self items acc s).2
  = Some (acc ++ omap (fun item : string * bool =>
                         if item.2 && selected self item.1
                         then Some (os_path_join (source_path self) item.1)
                         else None) items).
Proof.
  revert acc s. induction items as [|[item isfile] items IH]; intros acc s.
  { simpl. by rewrite app_nil_r. }
  cbn [scan_listing should_stop flag]. rewrite IH. cbn [omap list_omap fst snd].
  destruct (isfile && selected self item); [|done]. by rewrite <- app_assoc.
Qed.

Lemma scan_tree_Some k items acc s :
  (reads s <= k)%nat ->
  if (k - reads s <? length items)%nat
  then scan_tree (Some k) self items acc s
       = (State (S k)
                (log s ++ replicate (k - reads s) (ReadStop false) ++ [ReadStop true])
                (disk s) (processed_count s) (failed_count s), None)
  else is_Some (scan_tree (Some k) self items acc s).2.
Proof.
  revert acc s. induction items as [|[[root dirs] files] items IH]; intros acc s Hle.
  { simpl. by eexists. }
  cbn [scan_tree should_stop flag length].
  destruct (Nat.leb_spec k (reads s)) as [Hk|Hk].
  - assert (k = reads s) as -> by lia. rewrite Nat.sub_diag. by cbn.
  - set (s1 := State _ _ _ _ _).
    specialize (IH (acc ++ map (os_path_join root) (filter (selected self) files)) s1).
    assert (Hs1 : (reads s1 <= k)%nat) by (subst s1; cbn; lia).
    specialize (IH Hs1). subst s1. cbn [reads log disk processed_count failed_count] in IH.
    destruct (Nat.ltb_spec (k - S (reads s)) (length items)) as [H1|H1];
      destruct (Nat.ltb_spec (k - reads s) (S (length items))) as [H2|H2]; try lia.
    + rewrite IH. f_equal. f_equal. rewrite <- app_assoc. f_equal.
      replace (k - reads s)%nat with (S (k - S (reads s))) by lia. done.
    + done.
Qed.

Lemma counts_scan_tree stop_at items acc s :
  processed_count (scan_tree stop_at self items acc s).1 = processed_count s /\
  failed_count (scan_tree stop_at self items acc s).1 = failed_count s.
Proof.
  revert acc s. induction items as [|[[root dirs] files] items IH]; intros acc s;
    [done|].
  cbn [scan_tree should_stop]. destruct (flag stop_at (reads s)); [done|].
  by rewrite !(proj1 (IH _ _)), !(proj2 (IH _ _)).
Qed.

Lemma counts_scan_listing stop_at items acc s :
  processed_count (scan_listing stop_at self items acc s).1 = processed_count s /\
  failed_count (scan_listing stop_at self items acc s).1 = failed_count s.
Proof.
  revert acc s. induction items as [|[item isfile] items IH]; intros acc s; [done|].
  cbn [scan_listing should_stop]. destruct (flag stop_at (reads s)); [done|].
  by rewrite !(proj1 (IH _ _)), !(proj2 (IH _ _)).
Qed.

(** The scan of a run that is not stopped selects the files of
    [to_process] and leaves the counters at 0. *)
Lemma scan_None disk files :
  to_process self = Some files ->
  exists s1,
    (if scan_subfolders self
     then scan_tree None self
            (os_walk (fun _ => true) (source_path self) (tree self)) []
            (record StatusMessage (start disk))
     else match listing self with
          | Some items =>
              scan_listing None self items [] (record StatusMessage (start disk))
          | None => (record ErrorOccurred (record StatusMessage (start disk)), None)
          end) = (s1, Some files) /\
    processed_count s1 = 0%nat /\ failed_count s1 = 0%nat.
Proof.
  unfold to_process. set (s0 := record StatusMessage (start disk)).
  destruct (scan_subfolders self).
  - intros [= <-].
    pose proof (scan_tree_None
                  (os_walk (fun _ => true) (source_path self) (tree self)) [] s0) as H.
    pose proof (counts_scan_tree None
                  (os_walk (fun _ => true) (source_path self) (tree self)) [] s0) as Hc.
    destruct (scan_tree _ _ _ _ _) as [s1 res]. cbn [fst snd] in *.
    exists s1. by rewrite H.
  - destruct (listing self) as [items|]; [|done]. intros [= <-].
    pose proof (scan_listing_None items [] s0) as H.
    pose proof (counts_scan_listing None items [] s0) as Hc.
    destruct (scan_listing _ _ _ _ _) as [s1 res]. cbn [fst snd] in *.
    exists s1. by rewrite H.
Qed.
End OrganizerReport.

Lemma length_filter_transfer l :
  length (filter is_transfer l) = length (omap transfer_source l).
Proof.
  induction l as [|ev l IH]; [done|].
  destruct ev; cbn [omap list_omap transfer_source];
    rewrite ?filter_cons_True, ?filter_cons_False by (cbn; tauto);
    cbn [length]; by rewrite ?IH.
Qed.

Lemma filter_snoc {A} (P : A -> bool) (l : list A) (x : A) :
  filter P (l ++ [x]) = filter P l ++ if P x then [x] else [].
Proof.
  rewrite filter_app. f_equal. destruct (P x) eqn:E.
  - rewrite filter_cons_True, filter_nil; [done|]. by rewrite E.
  - rewrite filter_cons_False, filter_nil; [done|]. rewrite E. by intros [].
Qed.

Section Reporting.
Import FileOrganizerThread.
Context (stop_at : option nat) (self : t) (total : nat).

Lemma reporting_quiet ev tried s s' :
  is_progress ev = false -> is_transfer ev = false ->
  log s' = log s ++ [ev] ->
  processed_count s' = processed_count s -> failed_count s' = failed_count s ->
  reporting self total tried s -> reporting self total tried s'.
Proof.
  intros Hp Ht Hl Hpc Hfc (H1 & H2 & H3 & H4 & H5).
  assert (Hm : is_made ev = false /\ is_raised ev = false /\ transfer_source ev = None
               /\ in_mode self ev = true) by (by destruct ev).
  destruct Hm as (Hm & Hr & Hs & Hmode).
  unfold reporting, announced. rewrite Hl, Hpc, Hfc.
  rewrite !(filter_snoc is_made), !(filter_snoc is_raised), !(filter_snoc is_transfer),
    (filter_snoc (fun ev => is_transfer ev || is_progress ev)).
  rewrite Hm, Hr, Ht, Hp, !app_nil_r. cbn [orb].
  rewrite ?app_nil_r, omap_app. cbn [omap list_omap]. rewrite Hs, ?app_nil_r.
  repeat split; try done. apply Forall_app. split; [done|].
  apply Forall_singleton. by rewrite Hmode.
Qed.

Lemma reporting_should_stop tried s :
  reporting self total tried s -> reporting self total tried (should_stop stop_at s).2.
Proof. by apply reporting_quiet with (ev := ReadStop (flag stop_at (reads s))). Qed.

Lemma reporting_record ev tried s :
  is_progress ev = false -> is_transfer ev = false ->
  reporting self total tried s -> reporting self total tried (record ev s).
Proof. intros Hp Ht. by apply reporting_quiet with (ev := ev). Qed.

Lemma reporting_event ev tried source_file (s : state) (d : gset string) :
  is_transfer ev = true -> transfer_source ev = Some source_file ->
  in_mode self ev = true ->
  reporting self total tried s ->
  reporting self total (tried ++ [source_file])
    (if is_made ev
     then State (reads s) (log s ++ [ev; Progress (length tried + 1) total]) d
                (S (processed_count s)) (failed_count s)
     else State (reads s) (log s ++ [ev]) (disk s)
                (processed_count s) (S (failed_count s))).
Proof.
  intros Ht Hsrc Hmode (H1 & H2 & H3 & H4 & H5).
  assert (Hp : is_progress ev = false) by (by destruct ev).
  assert (Hlen : length (filter is_transfer (log s)) = length tried).
  { by rewrite length_filter_transfer, H4. }
  assert (Hr : is_raised ev = negb (is_made ev)).
  { destruct ev; try done; by destruct done. }
  unfold reporting, announced.
  destruct (is_made ev) eqn:Hm; cbn [log processed_count failed_count negb] in *.
  - rewrite app_two.
    rewrite !(filter_snoc is_made), !(filter_snoc is_raised),
      !(filter_snoc is_transfer),
      !(filter_snoc (fun ev => is_transfer ev || is_progress ev)).
    rewrite Hm, Hr, Ht, Hp. cbn [is_made is_raised is_transfer is_progress
                                   transfer_outcome orb].
    rewrite ?app_nil_r, ?length_app, ?omap_app. cbn [omap list_omap length transfer_source].
    rewrite Hsrc, ?app_nil_r, imap_app, concat_app, <- H3, Hlen. cbn [imap concat].
    rewrite Hm, ?Nat.add_0_r, ?app_nil_r, <- ?app_assoc.
    repeat split; try done; try lia.
    + by rewrite H4.
    + rewrite !Forall_app. repeat split; try done; by apply Forall_singleton; rewrite ?Hmode.
  - rewrite !(filter_snoc is_made), !(filter_snoc is_raised),
      !(filter_snoc is_transfer),
      !(filter_snoc (fun ev => is_transfer ev || is_progress ev)).
    rewrite Hm, Hr, Ht, Hp. cbn [orb negb].
    rewrite ?app_nil_r, ?length_app, ?omap_app. cbn [omap list_omap length].
    rewrite Hsrc, imap_app, concat_app, <- H3, Hlen. cbn [imap concat].
    rewrite Hm, ?Nat.add_0_r, ?app_nil_r.
    repeat split; try done; try lia.
    + by rewrite H4.
    + rewrite !Forall_app. repeat split; try done; by apply Forall_singleton; rewrite ?Hmode.
Qed.

Lemma reporting_transfer tried source_file s :
  reporting self total tried s ->
  reporting self total (tried ++ [source_file])
    (transfer self total (length tried, source_file) s).
Proof.
  intros Hs. unfold transfer.
  set (filename := DeepDuplicateScannerThread.basename source_file).
  destruct (splitext filename) as [base_name ext].
  destruct (free_name_ends (disk s) (dest_path self) base_name ext
              (os_path_join (dest_path self) filename)) as [found ->].
  set (done := bool_decide (source_file ∈ disk s) && permitted self source_file found).
  set (ev := if move_files self then Move source_file found done
             else Copy2 source_file found done).
  assert (Hev : is_transfer ev = true /\ transfer_source ev = Some source_file /\
                in_mode self ev = true /\ is_made ev = done).
  { subst ev. destruct (move_files self) eqn:Hm; cbn; rewrite ?Hm; by destruct done. }
  destruct Hev as (Ht & Hsrc & Hmode & Hmade).
  pose proof (reporting_event ev tried source_file s
                ({[found]} ∪ (if move_files self then disk s ∖ {[source_file]}
                              else disk s)) Ht Hsrc Hmode Hs) as H.
  rewrite Hmade in H. by destruct done.
Qed.

Lemma reporting_transfer_all tried rest s :
  reporting self total tried s ->
  exists seen,
    seen `prefix_of` rest /\ (stop_at = None -> seen = rest) /\
    reporting self total (tried ++ seen)
      (transfer_all stop_at self total
         (imap (fun j source_file => (length tried + j, source_file)%nat) rest) s).
Proof.
  revert tried s. induction rest as [|source_file rest IH]; intros tried s Hs.
  { exists []. by rewrite app_nil_r. }
  cbn [imap transfer_all]. pose proof (reporting_should_stop tried s Hs) as H1.
  unfold should_stop in *. cbn [snd] in H1.
  destruct (flag stop_at (reads s)) eqn:Hflag.
  { exists []. rewrite app_nil_r. split; [apply prefix_nil|]. split; [|done].
    intros ->. done. }
  rewrite Nat.add_0_r.
  apply (reporting_transfer tried source_file) in H1.
  destruct (IH (tried ++ [source_file]) _ H1) as (seen & Hpre & Hall & Hrep).
  exists (source_file :: seen). split; [by apply prefix_cons|].
  split; [intros E; by rewrite (Hall E)|].
  rewrite <- app_assoc in Hrep. cbn [app] in Hrep.
  erewrite imap_ext; [exact Hrep|].
  intros j x _. cbn. rewrite length_app. cbn [length]. f_equal. lia.
Qed.

Lemma reporting_scan_tree items acc tried s :
  reporting self total tried s ->
  reporting self total tried (scan_tree stop_at self items acc s).1.
Proof.
  revert acc s. induction items as [|[[root dirs] files] items IH]; intros acc s Hs;
    [done|].
  cbn [scan_tree]. pose proof (reporting_should_stop tried s Hs) as H1.
  destruct (should_stop stop_at s) as [b s1]. cbn [snd] in H1.
  destruct b; [done|]. by apply IH.
Qed.

Lemma reporting_scan_listing items acc tried s :
  reporting self total tried s ->
  reporting self total tried (scan_listing stop_at self items acc s).1.
Proof.
  revert acc s. induction items as [|[item isfile] items IH]; intros acc s Hs; [done|].
  cbn [scan_listing]. pose proof (reporting_should_stop tried s Hs) as H1.
  destruct (should_stop stop_at s) as [b s1]. cbn [snd] in H1.
  destruct b; [done|]. by apply IH.
Qed.

Lemma scan_tree_result items acc s files :
  (scan_tree stop_at self items acc s).2 = Some files ->
  files = acc ++ concat ((fun item : string * list string * list string =>
                            map (os_path_join item.1.1) (filter (selected self) item.2))
                         <$> items).
Proof.
  revert acc s. induction items as [|[[root dirs] files'] items IH]; intros acc s.
  { simpl. intros [= <-]. by rewrite app_nil_r. }
  cbn [scan_tree should_stop]. destruct (flag stop_at (reads s)); [done|].
  intros H%IH. rewrite H, fmap_cons. cbn [concat fst snd]. by rewrite app_assoc.
Qed.

Lemma scan_listing_result items acc s files :
  (scan_listing stop_at self items acc s).2 = Some files ->
  files = acc ++ omap (fun item : string * bool =>
                         if item.2 && selected self item.1
                         then Some (os_path_join (source_path self) item.1)
                         else None) items.
Proof.
  revert acc s. induction items as [|[item isfile] items IH]; intros acc s.
  { simpl. intros [= <-]. by rewrite app_nil_r. }
  cbn [scan_listing should_stop]. destruct (flag stop_at (reads s)); [done|].
  intros H%IH. rewrite H. cbn [omap list_omap fst snd].
  destruct (isfile && selected self item); [|done]. by rewrite <- app_assoc.
Qed.
End Reporting.

Lemma reporting_run stop_at self disk :
  let files := default [] (to_process self) in
  exists seen,
    seen `prefix_of` files /\
    (stop_at = None -> is_Some (to_process self) -> seen = files) /\
    reporting self (length files) seen (FileOrganizerThread.run stop_at self disk).
Proof.
  intros files0. unfold FileOrganizerThread.run.
  set (s0 := FileOrganizerThread.record _ _).
  assert (H0 : forall total, reporting self total [] s0).
  { intros total. apply reporting_record; [done..|]. repeat split; try done. }
  set (scan := if FileOrganizerThread.scan_subfolders self then _ else _).
  assert (H1 : forall total, reporting self total [] scan.1).
  { intros total. subst scan. destruct (FileOrganizerThread.scan_subfolders self);
      [by apply reporting_scan_tree|].
    destruct (FileOrganizerThread.listing self); [by apply reporting_scan_listing|].
    by apply reporting_record. }
  assert (H2 : forall files, scan.2 = Some files -> to_process self = Some files).
  { intros files. subst scan. unfold to_process.
    destruct (FileOrganizerThread.scan_subfolders self).
    - by intros ->%scan_tree_result.
    - destruct (FileOrganizerThread.listing self); [|done].
      by intros ->%scan_listing_result. }
  assert (H3 : stop_at = None -> is_Some (to_process self) -> is_Some scan.2).
  { intros -> [files Hfiles]. subst scan s0.
    destruct (scan_None self disk files Hfiles) as (s1 & -> & _). by eexists. }
  destruct scan as [s [files|]]; cbn [fst snd] in *.
  - specialize (H2 files eq_refl). subst files0. rewrite H2. cbn [default].
    destruct (reporting_transfer_all stop_at self (length files) [] files s (H1 _))
      as (seen & Hpre & Hall & Hrep).
    exists seen. split; [done|]. split; [by intros E _; apply Hall|].
    apply reporting_record; [done..|]. exact Hrep.
  - exists []. split; [apply prefix_nil|]. split; [|done].
    intros E1 E2. by destruct (H3 E1 E2).
Qed.

(** X25. What the organizer reports.  The number it gives as processed
    is the number of transfers that were made, and the number it gives
    as failed is the number of transfers that raised.  The transfers are
    those of the selected files, one for each in their order as far as
    the run came, made with [shutil.move] or [shutil.copy2] as the mode
    says.  Every transfer that was made is followed, before any other
    transfer or progress signal, by its progress signal, which carries
    the position of the file and the number of selected files, and no
    other progress signal is emitted.
    A run that is not stopped tries every selected file once and ends
    with [operation_complete].  A stop that is seen while the
    sub-folders are scanned ends the run without any transfer and
    without [operation_complete]; a stop that is seen later ends the
    transfers, and [operation_complete] is still emitted with the counts
    so far. *)
Theorem organizer_report :
  forall (stop_at : option nat) (self : FileOrganizerThread.t) (disk : gset string),
    let s := FileOrganizerThread.run stop_at self disk in
    let complete :=
      FileOrganizerThread.OperationComplete
        (FileOrganizerThread.processed_count s) (FileOrganizerThread.failed_count s) in
    let selected := default [] (to_process self) in
    FileOrganizerThread.processed_count s
    = length (filter is_made (FileOrganizerThread.log s)) /\
    FileOrganizerThread.failed_count s
    = length (filter is_raised (FileOrganizerThread.log s)) /\
    announced (length selected) (FileOrganizerThread.log s) /\
    omap transfer_source (FileOrganizerThread.log s) `prefix_of` selected /\
    Forall (in_mode self) (FileOrganizerThread.log s) /\
    FileOrganizerThread.processed_count s
    = length (filter is_progress (FileOrganizerThread.log s)) /\
    (FileOrganizerThread.processed_count s + FileOrganizerThread.failed_count s
     = length (filter is_transfer (FileOrganizerThread.log s)))%nat /\
    (stop_at = None ->
     forall files, to_process self = Some files ->
       last (FileOrganizerThread.log s) = Some complete /\
       omap transfer_source (FileOrganizerThread.log s) = files /\
       (FileOrganizerThread.processed_count s + FileOrganizerThread.failed_count s
        = length files)%nat) /\
    (forall k, stop_at = Some k ->
       FileOrganizerThread.scan_subfolders self = true ->
       if (k <? length (os_walk (fun _ => true) (FileOrganizerThread.source_path self)
                                (FileOrganizerThread.tree self)))%nat
       then FileOrganizerThread.log s
            = FileOrganizerThread.StatusMessage
              :: replicate k (FileOrganizerThread.ReadStop false)
              ++ [FileOrganizerThread.ReadStop true]
       else last (FileOrganizerThread.log s) = Some complete).
Proof.
  intros stop_at self disk s complete selected.
  destruct (organizing_run stop_at self disk) as (_ & _ & H3 & H4).
  destruct (reporting_run stop_at self disk)
    as (seen & Hpre & Hall & R1 & R2 & R3 & R4 & R5).
  fold s in H3, H4, R1, R2, R3, R4, R5. fold selected in Hpre, Hall, R3.
  split; [done|]. split; [done|]. split; [done|]. split; [by rewrite R4|].
  split; [done|]. split; [done|]. split; [done|]. split.
  - intros -> files Hfiles. 
    assert (Hseen : seen = files).
    { rewrite Hall; [|done|by eexists]. subst selected. by rewrite Hfiles. }
    split; [|split; [by rewrite R4|]].
    + subst complete s. unfold FileOrganizerThread.run.
      destruct (scan_None self disk files Hfiles) as (s1 & -> & Hp & Hf).
      cbn [FileOrganizerThread.record FileOrganizerThread.log
           FileOrganizerThread.processed_count FileOrganizerThread.failed_count].
      apply last_snoc.
    + by rewrite H4, length_filter_transfer, R4, Hseen.
  - intros k -> Hsub. subst complete s. unfold FileOrganizerThread.run. rewrite Hsub.
    pose proof (scan_tree_Some self k
                  (os_walk (fun _ => true) (FileOrganizerThread.source_path self)
                           (FileOrganizerThread.tree self)) []
                  (FileOrganizerThread.record FileOrganizerThread.StatusMessage
                     (FileOrganizerThread.start disk))) as H.
    cbn [FileOrganizerThread.record FileOrganizerThread.start FileOrganizerThread.reads
         FileOrganizerThread.log] in H.
    rewrite Nat.sub_0_r in H. specialize (H ltac:(lia)).
    destruct (k <? _)%nat.
    + cbn [FileOrganizerThread.record FileOrganizerThread.start] in *. by rewrite H.
    + destruct (FileOrganizerThread.scan_tree _ _ _ _ _) as [s1 [files|]];
        [|by destruct H].
      cbn [FileOrganizerThread.record FileOrganizerThread.log
           FileOrganizerThread.processed_count FileOrganizerThread.failed_count].
      apply last_snoc.
Qed.

Lemma organizer_report_witness :
  let s := FileOrganizerThread.run None
             (FileOrganizerThread.mk "/in" "/out" {[ ".txt" ]} true true
                (Folder "/in" [] ["a.txt"; "b.md"; "c.txt"]) None
                (fun _ _ => true))
             {[ "/in/a.txt"; "/out/a.txt" ]} in
  last (FileOrganizerThread.log s) = Some (FileOrganizerThread.OperationComplete 1 1) /\
  omap transfer_source (FileOrganizerThread.log s) = ["/in/a.txt"; "/in/c.txt"] /\
  filter is_made (FileOrganizerThread.log s)
  = [FileOrganizerThread.Move "/in/a.txt" "/out/a_1.txt" true].
Proof.
  intros s.
  destruct (organizer_report None
              (FileOrganizerThread.mk "/in" "/out" {[ ".txt" ]} true true
                 (Folder "/in" [] ["a.txt"; "b.md"; "c.txt"]) None
                 (fun _ _ => true))
              {[ "/in/a.txt"; "/out/a.txt" ]})
    as (_ & _ & _ & _ & _ & _ & _ & Hcomplete & _).
  destruct (Hcomplete eq_refl ["/in/a.txt"; "/in/c.txt"]) as (Hlast & Hsrc & _).
  - vm_compute. reflexivity.
  - fold s in Hlast, Hsrc. split; [|split; [exact Hsrc|]].
    + rewrite Hlast. vm_compute. reflexivity.
    + vm_compute. reflexivity.
Defined.

Lemma organizer_never_overwrites_witness :
  FileOrganizerThread.log
    (FileOrganizerThread.run None
       (FileOrganizerThread.mk "/in" "/out" {[ ".txt" ]} true true
          (Folder "/in" [] ["a.txt"]) None (fun _ _ => true))
       {[ "/in/a.txt"; "/out/a.txt" ]})
  = [FileOrganizerThread.StatusMessage; FileOrganizerThread.ReadStop false;
     FileOrganizerThread.ReadStop false;
     FileOrganizerThread.Move "/in/a.txt" "/out/a_1.txt" true;
     FileOrganizerThread.Progress 1 1; FileOrganizerThread.OperationComplete 1 0] /\
  "/out/a.txt" ∈ FileOrganizerThread.disk
    (FileOrganizerThread.run None
       (FileOrganizerThread.mk "/in" "/out" {[ ".txt" ]} true true
          (Folder "/in" [] ["a.txt"]) None (fun _ _ => true))
       {[ "/in/a.txt"; "/out/a.txt" ]}).
Proof.
  split; [vm_compute; reflexivity|].
  destruct (organizer_never_overwrites None
              (FileOrganizerThread.mk "/in" "/out" {[ ".txt" ]} true true
                 (Folder "/in" [] ["a.txt"]) None (fun _ _ => true))
              {[ "/in/a.txt"; "/out/a.txt" ]}) as (_ & Hkept & _).
  destruct (Hkept "/out/a.txt") as [Hin|[dest_file Hmoved]]; [set_solver|exact Hin|].
  exfalso. vm_compute in Hmoved.
  repeat (apply elem_of_cons in Hmoved as [Hmoved|Hmoved]; [discriminate|]).
  by apply elem_of_nil in Hmoved.
Defined.

(** ** The incremental update: nothing new, nothing changed *)

Section Settled.
Import SystemIndexerThread.
Context (stop_at : option nat) (e : env) (drives : list fs_node)
        (index0 : list FileEntry.t) (db0 : DatabaseManager.t).
Hypothesis Hsame : forall p st,
  p ∈ walked_paths drives -> os_stat e p = Some st ->
  exists row, db0 !! p = Some row /\ ~ differs st row.

Lemma settled_log (r r' : thread incremental_vars) a :
  (forall batch, a <> SaveFileIndex batch) ->
  log r' = log r ++ [a] ->
  iu_index (vars r') = iu_index (vars r) -> iu_db (vars r') = iu_db (vars r) ->
  indexed_paths (vars r') = indexed_paths (vars r) ->
  new_files (vars r') = new_files (vars r) ->
  updated_files (vars r') = updated_files (vars r) ->
  settled index0 db0 r -> settled index0 db0 r'.
Proof.
  intros Ha Hl E1 E2 E3 E4 E5 (H1 & H2 & H3 & H4 & H5 & H6).
  unfold settled. rewrite E1, E2, E3, E4, E5, Hl.
  repeat (split; [done|]). intros batch [Hin|Hin%list_elem_of_singleton]%elem_of_app.
  - by apply (H6 batch).
  - by apply (Ha batch).
Qed.

Lemma settled_should_stop r : settled index0 db0 r -> settled index0 db0 (should_stop stop_at r).2.
Proof. by apply settled_log with (a := ReadStop (flag stop_at (reads r))). Qed.

Lemma settled_count_checked r : settled index0 db0 r -> settled index0 db0 (count_checked r).
Proof.
  intros H. unfold count_checked. case_match.
  - by apply (settled_log r _ (Emit (progress (CheckedFiles (S (checked (vars r))))))).
  - destruct H as (H1 & H2 & H3 & H4 & H5 & H6). by repeat split.
Qed.

Lemma settled_check_file root filename r :
  os_path_join root filename ∈ walked_paths drives ->
  settled index0 db0 r -> settled index0 db0 (check_file e root filename r).
Proof.
  intros Hwalked Hr. unfold check_file. set (filepath := os_path_join root filename) in *.
  cbv zeta.
  set (r1 := act (OsStat filepath) _).
  assert (H1 : settled index0 db0 r1).
  { by apply (settled_log r r1 (OsStat filepath)). }
  destruct (os_stat e filepath) as [st|] eqn:Hst; [|done].
  destruct (Hsame filepath st Hwalked Hst) as (row & Hrow & Hnd).
  pose proof Hr as (_ & Hdb & Hip & _).
  rewrite bool_decide_eq_true_2 by (rewrite Hip; by apply elem_of_dom).
  cbn [negb]. rewrite get_file_info_lookup, Hdb, Hrow. cbn [fmap option_fmap option_map].
  destruct (changed st (cached_info row)) eqn:Hc.
  - by apply changed_differs in Hc.
  - by apply settled_count_checked.
Qed.

Lemma settled_walk r :
  settled index0 db0 r -> settled index0 db0 (for_break stop_at (check_drive stop_at e) drives r).
Proof.
  apply for_break_ind; [apply settled_should_stop|].
  intros drive r1 Hdrive H1. unfold check_drive.
  apply walk_break_ind; [apply settled_should_stop| | |done].
  - intros root r2. by apply (settled_log r2 _ (Scandir root)).
  - intros [[root dirs] files] r2 Hitem H2. unfold check_directory.
    apply for_break_ind; [apply settled_should_stop| |done].
    intros filename r3 Hfile. apply settled_check_file.
    unfold walked_paths. apply list_elem_of_fmap. exists (root, filename).
    split; [done|]. unfold walked. apply elem_of_concat. exists (walked_in drive).
    split; [|by apply list_elem_of_fmap_2].
    unfold walked_in. apply elem_of_concat. exists (files_in (root, dirs, files)).
    split; [|by apply (list_elem_of_fmap_2 files_in)].
    unfold files_in. by apply (list_elem_of_fmap_2 (fun fn => (root, fn))).
Qed.

Lemma settled_incremental_update :
  let r := incremental_update stop_at e drives (start (Self index0 (Some db0))) in
  index (vars r) = index0 /\
  (forall batch, SaveFileIndex batch ∉ log r) /\
  exists existing,
    RemoveDeletedFiles existing ∈ log r /\
    db_manager (vars r) = Some (DatabaseManager.remove_deleted_files existing db0).
Proof.
  unfold incremental_update. cbn [start vars db_manager index].
  set (r1 := for_break _ _ _ _).
  assert (H1 : settled index0 db0 r1).
  { apply settled_walk. repeat split. intros batch Hin. cbn in Hin.
    by apply list_elem_of_singleton in Hin. }
  destruct H1 as (H1 & H2 & H3 & H4 & H5 & H6). rewrite H4, H5, H2.
  destruct (should_stop stop_at _) as [b r2] eqn:Es.
  unfold should_stop in Es. injection Es as <- <-.
  cbn [set_vars vars index db_manager log act reads].
  split; [done|]. split.
  - intros batch Hin.
    destruct (flag stop_at (reads r1)); cbn [emit act log] in Hin;
      repeat (apply elem_of_app in Hin as [Hin|Hin%list_elem_of_singleton];
              [|done]); by apply (H6 batch).
  - exists (existing_paths (vars r1)). split; [|done].
    destruct (flag stop_at (reads r1)); cbn [emit act log];
      rewrite !elem_of_app, list_elem_of_singleton; tauto.
Qed.
End Settled.

(** X26. An incremental update that, on the files of its walk, meets
    none that is missing from the store and none whose size or time has
    changed leaves the index in memory as it was and saves nothing; all
    it does to the store is the pruning, so that every row that is left
    is a row of the store as it was.  This holds whether or not the
    update is stopped. *)
Theorem incremental_update_without_changes :
  forall (stop_at : option nat) (e : env) (drives : list fs_node)
         (index : list FileEntry.t) (db : DatabaseManager.t),
    (forall p st, p ∈ walked_paths drives -> os_stat e p = Some st ->
       exists row, db !! p = Some row /\ ~ differs st row) ->
    let r := SystemIndexerThread.incremental_update stop_at e drives
               (start (SystemIndexerThread.Self index (Some db))) in
    SystemIndexerThread.index (vars r) = index /\
    (forall batch, SaveFileIndex batch ∉ log r) /\
    exists db', SystemIndexerThread.db_manager (vars r) = Some db' /\
      forall p row, db' !! p = Some row -> db !! p = Some row.
Proof.
  intros stop_at e drives index db Hsame r.
  destruct (settled_incremental_update stop_at e drives index db Hsame)
    as (Hi & Hs & existing & _ & Hdb).
  fold r in Hi, Hs, Hdb. split; [done|]. split; [done|].
  eexists. split; [exact Hdb|]. intros p row.
  rewrite remove_deleted_files_lookup. by case_decide.
Qed.

Lemma incremental_update_without_changes_witness :
  SystemIndexerThread.index
    (vars (SystemIndexerThread.incremental_update None example_env
             [Folder "/" [] ["b.txt"; "c.txt"]]
             (start (SystemIndexerThread.Self example_index (Some example_store)))))
  = example_index.
Proof.
  apply (incremental_update_without_changes None example_env
           [Folder "/" [] ["b.txt"; "c.txt"]] example_index example_store).
  intros p st Hp Hst.
  apply elem_of_cons in Hp as [->|Hp].
  - exists (DatabaseManager.Row "b.txt" ".txt" 7 20%Q false 0%Q). split; [reflexivity|].
    injection Hst as <-. intros [H|H]; [by apply H|]. vm_compute in H. discriminate.
  - apply list_elem_of_singleton in Hp as ->. discriminate.
Defined.

(** ** The deep scan: what is hashed *)

Lemma for_return_Continue_vars {X L} stop_at (body : X -> thread L -> flow L)
    (step : L -> X -> L) xs r r' :
  (forall x r, exists r', body x r = Continue r' /\ vars r' = step (vars r) x) ->
  for_return stop_at body xs r = Continue r' ->
  vars r' = foldl step (vars r) xs.
Proof.
  intros Hbody. revert r. induction xs as [|x xs IH]; intros r.
  { by intros [= <-]. }
  cbn [for_return should_stop]. destruct (flag stop_at (reads r)); [done|].
  destruct (Hbody x (Run (S (reads r)) (log r ++ [ReadStop false]) (vars r)))
    as (r1 & -> & Hv).
  intros H. rewrite (IH _ H), Hv. done.
Qed.

Lemma walk_return_Continue_vars {L} stop_at
    (body : string * list string * list string -> thread L -> flow L)
    (step : L -> string * string -> L) items r r' :
  (forall item r r', body item r = Continue r' ->
     vars r' = foldl step (vars r) (files_in item)) ->
  walk_return stop_at body items r = Continue r' ->
  vars r' = foldl step (vars r) (concat (files_in <$> items)).
Proof.
  intros Hbody. revert r. induction items as [|item items IH]; intros r.
  { by intros [= <-]. }
  cbn [walk_return should_stop act reads log vars].
  destruct (flag stop_at (reads r)); [done|].
  destruct (body item _) as [r1|r1] eqn:E; [|done].
  intros H. rewrite (IH _ H), (Hbody _ _ _ E). cbn [vars].
  by rewrite fmap_cons, concat_cons, foldl_app.
Qed.

Lemma deep_scan_buckets stop_at e root_folder p :
  let r := DeepDuplicateScannerThread.run stop_at e root_folder in
  HashFile p ∈ log r ->
  DeepDuplicateScannerThread.size_map (vars r)
  = grouped Z.eqb (size_of e)
      (filter (fun q => 0 < size_of e q) (scanned_paths root_folder)).
Proof.
  intros r. subst r. unfold DeepDuplicateScannerThread.run.
  set (r0 := emit _ _).
  assert (H0 : sizing_inv e r0).
  { subst r0. apply sizing_inv_emit; [done|].
    split; [|split; [done|apply dict_Forall_nil]].
    intros a Ha. by apply elem_of_nil in Ha. }
  pose proof (walk_return_ind stop_at (sizing_inv e)
                (DeepDuplicateScannerThread.size_directory stop_at e)
                (os_walk hidden_filter (dirname root_folder) root_folder) r0) as H1.
  pose proof (walk_return_Continue_vars stop_at
                (DeepDuplicateScannerThread.size_directory stop_at e)
                (size_step e)
                (os_walk hidden_filter (dirname root_folder) root_folder) r0) as Hv.
  destruct (walk_return _ _ _ r0) as [r1|r1].
  2:{ intros Hp. exfalso.
      assert (Hs : sizing_inv e r1).
      { apply H1; [apply sizing_inv_should_stop| | |done].
        { intros root r2. by apply (sizing_inv_log e r2 _ (Scandir root)). }
        intros [[root dirs] files] r2 _ Hr2.
        unfold DeepDuplicateScannerThread.size_directory.
        apply for_return_ind; [apply sizing_inv_should_stop| |done].
        intros filename r3 _. apply sizing_inv_size_file. }
      destruct Hs as (Hlog & _). by destruct (Hlog _ Hp) as [H _]; destruct (H p). }
  clear H1. specialize (Hv r1).
  assert (Hsm : DeepDuplicateScannerThread.size_map (vars r1)
                = grouped Z.eqb (size_of e)
                    (filter (fun q => 0 < size_of e q) (scanned_paths root_folder))).
  { rewrite Hv; [| |done].
    - fold (scanned root_folder).
      by destruct (size_steps e (scanned root_folder) (vars r0)) as [-> _].
    - intros [[root dirs] files] r2 r2' E.
      unfold DeepDuplicateScannerThread.size_directory in E.
      rewrite (for_return_Continue_vars stop_at
                 (DeepDuplicateScannerThread.size_file e root)
                 (fun v filename => size_step e v (root, filename)) files r2 r2');
        [|intros; apply size_file_step|done].
      unfold files_in. cbn [fst snd]. generalize (vars r2). clear.
      induction files as [|f files IH]; intros v; [done|]. simpl. apply IH. }
  clear Hv. intros _.
  set (r1' := emit _ r1).
  assert (Hsm' : DeepDuplicateScannerThread.size_map (vars r1') = 
                 DeepDuplicateScannerThread.size_map (vars r1)) by done.
  rewrite <- Hsm, <- Hsm'.
  set (f2 := for_return _ _ _ r1').
  assert (H2 : DeepDuplicateScannerThread.size_map (vars (thread_of f2))
               = DeepDuplicateScannerThread.size_map (vars r1')).
  { apply (for_return_ind stop_at
             (fun r => DeepDuplicateScannerThread.size_map (vars r)
                       = DeepDuplicateScannerThread.size_map (vars r1')));
      [done| |done].
    intros filepath r2 _ Hr2.
    match goal with
    | |- context [DeepDuplicateScannerThread.hash_one e ?n filepath r2] =>
        destruct (hash_one_step e n filepath r2) as (r3 & -> & Hv3)
    end. cbn [thread_of]. rewrite Hv3. unfold hash_step.
    by destruct (hashed_record e filepath). }
  destruct f2 as [r2|r2]; cbn [thread_of] in H2; [|done].
  cbn [should_stop]. by destruct (flag stop_at (reads r2)).
Qed.

(** X27. Stopped or not, a deep scan reads the content of a file only
    when the walk has come to at least two entries of its size: a
    hashed path was stat'ed with a positive size, the entries of the
    walk that were stat'ed with that size are two or more, the path is
    one of them, and they are its bucket in [size_map].  A file of zero
    bytes, or one that is the only entry of the walk with its size, is
    never read. *)
Theorem deep_scan_hashes_only_shared_sizes :
  forall (stop_at : option nat) (e : env) (root_folder : fs_node) (p : string),
    let r := DeepDuplicateScannerThread.run stop_at e root_folder in
    let alike := filter (fun q => size_of e q = size_of e p)
                        (scanned_paths root_folder) in
    HashFile p ∈ log r ->
    0 < size_of e p /\ p ∈ alike /\ (1 < length alike)%nat /\
    (size_of e p, alike) ∈ DeepDuplicateScannerThread.size_map (vars r).
Proof.
  intros stop_at e root_folder p r alike Hp.
  pose proof (deep_scan_buckets stop_at e root_folder p Hp) as Hsm.
  fold r in Hsm.
  destruct (deep_scan_outcome stop_at e root_folder)
    as (size_map & hash_map & _ & _ & Hhash & _).
  destruct (Hhash p Hp) as [Hin E]. fold r in E. rewrite <- E, Hsm in Hin.
  unfold DeepDuplicateScannerThread.files_to_hash in Hin.
  apply elem_of_concat in Hin as (bucket & Hpb & Hb).
  apply list_elem_of_In, in_map_iff in Hb as ([size bucket'] & <- & Hb).
  apply list_elem_of_In, list_elem_of_filter in Hb as [Hlen Hb]. cbn [snd] in *.
  apply Is_true_true, Nat.ltb_lt in Hlen.
  pose proof Hb as Hb'.
  apply (elem_of_grouped Z.eqb (size_of e) Z.eqb_eq) in Hb as [Hbucket _].
  assert (Hpp : 0 < size_of e p /\ size_of e p = size).
  { rewrite Hbucket in Hpb. apply list_elem_of_filter in Hpb as [Hk Hpb].
    apply list_elem_of_filter in Hpb as [Hpos _]. done. }
  destruct Hpp as [Hpos Hsize].
  assert (Halike : bucket' = alike).
  { rewrite Hbucket. subst alike. rewrite Hsize. rewrite list_filter_filter.
    apply list_filter_iff. intros q. split; [tauto|]. intros Hq. split; [done|]. lia. }
  rewrite Hsm, Hsize, <- Halike. split; [lia|done].
Qed.

Lemma deep_scan_hashes_only_shared_sizes_witness :
  0 < size_of (Env (fun _ => Some (3, 0%Q)) (fun _ => Some "d41d") (fun _ => 0%Q))
              "/a.bin" /\
  filter (fun q => size_of (Env (fun _ => Some (3, 0%Q)) (fun _ => Some "d41d")
                              (fun _ => 0%Q)) q = 3)
         (scanned_paths (Folder "/" [] ["a.bin"; "b.bin"]))
  = ["/a.bin"; "/b.bin"].
Proof.
  destruct (deep_scan_hashes_only_shared_sizes None
              (Env (fun _ => Some (3, 0%Q)) (fun _ => Some "d41d") (fun _ => 0%Q))
              (Folder "/" [] ["a.bin"; "b.bin"]) "/a.bin")
    as (H1 & _ & _ & _).
  - apply list_elem_of_In. vm_compute. tauto.
  - split; [exact H1|]. vm_compute. reflexivity.
Defined.

(** ** Search: what a stopped search has delivered *)

Lemma batched_prefix stop_at self xs pre r :
  batched self pre r ->
  exists seen, seen `prefix_of` xs /\
    batched self (pre ++ seen) (for_break stop_at (FileSearchThread.visit self) xs r).
Proof.
  revert pre r. induction xs as [|x xs IH]; intros pre r Hr.
  { exists []. split; [done|]. by rewrite app_nil_r. }
  cbn [for_break should_stop]. destruct (flag stop_at (reads r)) eqn:Hf.
  - exists []. split; [apply prefix_nil|]. rewrite app_nil_r.
    destruct Hr as (H1 & H2 & H3). unfold batched. cbn [log vars].
    by rewrite batches_read.
  - pose proof (batched_visit self pre x r Hr) as Hx.
    rewrite should_stop_None in Hx. cbn [snd] in Hx.
    destruct (IH _ _ Hx) as (seen & Hpre & Hb).
    exists (x :: seen). split; [by apply prefix_cons|].
    by rewrite <- app_assoc in Hb.
Qed.

(** X28. Whenever it is stopped, a search has delivered only records
    that satisfy the search predicate, each once and in the order of the
    index: its batches, put end to end, are a beginning of the list of
    the matching records, and no batch is empty or has more than 100
    records. *)
Theorem search_delivers_a_prefix_of_the_matches :
  forall (stop_at : option nat) (index : list FileEntry.t)
         (query folder_filter : string),
    let bs := batches (log (FileSearchThread.run stop_at
                              (FileSearchThread.init index query folder_filter))) in
    concat bs `prefix_of`
      filter (fun e => search_predicate query folder_filter e = true) index /\
    Forall (fun b => 0 < length b <= 100)%nat bs.
Proof.
  intros stop_at index query folder_filter bs. subst bs.
  set (self := FileSearchThread.init index query folder_filter).
  assert (Hf : filter (fun e => search_predicate query folder_filter e = true) index
               = filter (fun e => search_matches self e = true) index).
  { apply list_filter_iff. intros e. unfold search_predicate, search_matches.
    subst self. cbn [FileSearchThread.init FileSearchThread.query
                     FileSearchThread.folder_filter].
    by rewrite lower_empty. }
  rewrite Hf. clear Hf.
  destruct (batched_prefix stop_at self index [] (start [])) as (seen & Hseen & Hb).
  { repeat split; simpl; [lia|constructor]. }
  cbn [app] in Hb. destruct Hb as (Hc & Hlen & Hfull).
  assert (Hpre : filter (fun e => search_matches self e = true) seen
                 `prefix_of` filter (fun e => search_matches self e = true) index).
  { destruct Hseen as [k ->]. rewrite filter_app. by eexists. }
  unfold FileSearchThread.run. change (FileSearchThread.index self) with index.
  set (r := for_break stop_at _ index _) in *.
  assert (Hpos : Forall (fun b => 0 < length b <= 100)%nat (batches (log r))).
  { eapply Forall_impl; [exact Hfull|]. simpl. intros b ->. lia. }
  assert (Hsame : forall (r' : thread (list FileEntry.t)) total,
            batches (log r') = batches (log r) \/
            batches (log r') = batches (log r) ++ [vars r] /\ vars r <> [] ->
            let bs := batches (log (let '(b, r1) := should_stop stop_at r' in
                                    if b then r1 else emit (search_complete total) r1)) in
            concat bs `prefix_of` filter (fun e => search_matches self e = true) index /\
            Forall (fun b => 0 < length b <= 100)%nat bs).
  { intros r' total Hr'. cbn [should_stop].
    assert (Hbs : batches (log (if flag stop_at (reads r')
                     then Run (S (reads r')) (log r' ++ [ReadStop (flag stop_at (reads r'))])
                              (vars r')
                     else emit (search_complete total)
                            (Run (S (reads r'))
                                 (log r' ++ [ReadStop (flag stop_at (reads r'))])
                                 (vars r'))))
                  = batches (log r')).
    { destruct (flag stop_at (reads r')); cbn [emit act log].
      - apply batches_read.
      - rewrite batches_app, batches_read. apply app_nil_r. }
    cbv zeta. rewrite Hbs. destruct Hr' as [->|[-> Hne]].
    - split; [|done]. etrans; [|exact Hpre]. rewrite <- Hc. by eexists.
    - rewrite concat_app. cbn [concat]. rewrite app_nil_r, Hc. split; [done|].
      apply Forall_app. split; [done|]. constructor; [|done].
      destruct (vars r); [done|]. simpl in *. lia. }
  destruct (vars r) as [|e results] eqn:Ev.
  - apply Hsame. by left.
  - cbn [should_stop]. destruct (flag stop_at (reads r)) eqn:Hflag.
    + apply Hsame. left. cbn [log]. apply batches_read.
    + apply Hsame. right. cbn [emit act log vars].
      rewrite batches_results, batches_read, Ev. done.
Qed.
